(** * pos-admin: offline-first order synchronisation

    A shallow embedding of the synchronisation core of the admin dashboard:
    the retry helper ([services/retry]), the server locator
    ([utils/network] and the locator embedded in the second
    [NetworkContext]), the IndexedDB order cache ([services/db]), the
    session check ([services/auth]) and the status and delete handlers of
    [AdminDashboard.jsx].

    Conventions.
    - JavaScript numbers that the code uses as counters, keys and
      timestamps are integers of [Z], standing for the double of that
      value; delays, which are multiplied by [Math.random()] and by
      [0.1], are IEEE 754 doubles: the primitive [float] with its
      round-to-nearest-even operations, specified bit by bit in
      [SpecFloat].
    - An [async] function is modelled by its sequential behaviour: every
      [await] is a call that either yields a value or throws.
    - Whatever the code reaches outside of itself (the REST backend, the
      health probes, [Math.random], [Math.pow] where the language leaves
      its result to the engine, the operation handed to a retry helper)
      is an oracle: a function of an explicit world state, or of the
      position of the call in the run. *)

From Stdlib Require Import ZArith Floats Bool List String Ascii.
From Stdlib Require Import Lia Permutation Sorted DecimalString OrderedTypeEx.
Import ListNotations.

Set Implicit Arguments.
(* A decimal literal denotes the double nearest to it, as in JavaScript. *)
Set Warnings "-inexact-float".

(* ================================================================== *)
(** * Doubles *)
(* ================================================================== *)

Module Double.

Local Open Scope Z_scope.

(** [Math.min] of two numbers: [NaN] if either is, and [-0] below [+0]. *)
Definition Math_min (a b : float) : float :=
  if is_nan a || is_nan b then nan
  else if (a <? b)%float then a
  else if (b <? a)%float then b
  else if get_sign a then a else b.

(** The literal [0.1]: the double nearest to one tenth,
    [0x1.999999999999ap-4]. *)
Definition tenth : float := 0.1%float.

(** ** Vocabulary for reasoning about doubles

    Read off the specification of a double: a number that is not [NaN]
    and, unless it is a zero, has sign [s] ([true] for minus). *)
Definition SFsigned (s : bool) (x : spec_float) : Prop :=
  match x with
  | S754_zero _ => True
  | S754_infinity s' => s' = s
  | S754_nan => False
  | S754_finite s' _ _ => s' = s
  end.

(** Neither an infinity nor [NaN]. *)
Definition SFfinite (x : spec_float) : Prop :=
  match x with
  | S754_infinity _ | S754_nan => False
  | _ => True
  end.

(** [m / 2^k] rounded to the nearest integer, ties to even. *)
Definition rne (m k : Z) : Z :=
  let q := m / 2 ^ k in
  match 2 * (m mod 2 ^ k) ?= 2 ^ k with
  | Lt => q
  | Gt => q + 1
  | Eq => if Z.even q then q else q + 1
  end.

(** The double with mantissa [q] and exponent [E], if [q] fits the 53
    bits of a mantissa: an infinity when the exponent is out of range. *)
Definition finished (q E : Z) : spec_float :=
  match q with
  | Z0 => S754_zero false
  | Zpos p => if E <=? 971 then S754_finite false p E else S754_infinity false
  | Zneg _ => S754_nan
  end.

(** The same when [q] may have been rounded up to [2^53]. *)
Definition normal (q E : Z) : spec_float :=
  if q =? 2 ^ 53 then finished (2 ^ 52) (E + 1) else finished q E.

(** The value [m * 2^e] of a double as a multiple of the smallest
    positive one, [2^-1074]. *)
Definition ulps (m e : Z) : Z := m * 2 ^ (e + 1074).

(** A non-negative finite double, in these units. *)
Definition SFulps (x : spec_float) : Z :=
  match x with
  | S754_finite false m e => ulps (Zpos m) e
  | _ => 0
  end.

End Double.

(* ================================================================== *)
(** * Retry helper (services/retry) *)
(* ================================================================== *)

Module Retry.

Import Double.
Local Open Scope Z_scope.

Section Defs.

(** [A]: what the operation resolves to; [E]: what it rejects with. *)
Variables A E : Type.

(** Settlement of one [await fn()]. *)
Inductive Outcome :=
| Resolved (a : A)
| Rejected (e : E).

(** How a retry helper itself settles. [Threw None] is [throw null]:
    [lastError] still holds its initial value. *)
Inductive Settled :=
| Returned (a : A)
| Threw (e : option E).

(** What a run leaves behind: the settlement, how many times [fn] was
    invoked, and the arguments of the [setTimeout] waits, oldest first. *)
Record Run := mkRun {
  result : Settled;
  calls : nat;
  sleeps : list float
}.

(** The destructured [options] of [exponentialBackoff]. A missing
    [shouldRetry] is [None] (the default [null]). *)
Record Options := mkOptions {
  maxAttempts : Z;
  baseDelay : float;
  maxDelay : float;
  backoffMultiplier : float;
  shouldRetry : option (E -> Z -> bool)
}.

Definition defaults : Options :=
  {| maxAttempts := 5; baseDelay := 1000%float; maxDelay := 30000%float;
     backoffMultiplier := 2%float; shouldRetry := None |}.

(** [fn k] is the settlement of the [k]-th invocation of the operation
    (counting from 1), [random k] the value of the [k]-th call of
    [Math.random()] (counting from 0), and [pow base exponent] what the
    engine computes for [Math.pow] where the language leaves the result
    to the implementation. *)
Variable fn : nat -> Outcome.
Variable pow : float -> Z -> float.
Variable random : nat -> float.

(** [Math.pow(base, exponent)] for the exponents the loop produces, which
    are integers: the result is 1 for exponent 0 whatever the base, and
    an approximation chosen by the engine otherwise. *)
Definition Math_pow (base : float) (exponent : Z) : float :=
  if exponent =? 0 then 1%float else pow base exponent.

Section Backoff.

Variable o : Options.

(** [Math.min(baseDelay * Math.pow(backoffMultiplier, attempt - 1), maxDelay)] *)
Definition delay (attempt : Z) : float :=
  Math_min (baseDelay o * Math_pow (backoffMultiplier o) (attempt - 1))%float (maxDelay o).

(** [delay * Math.random() * 0.1] *)
Definition jitter (attempt : Z) (r : float) : float :=
  (delay attempt * r * 0.1)%float.

Definition actualDelay (attempt : Z) (r : float) : float :=
  (delay attempt + jitter attempt r)%float.

(** [!shouldRetry || shouldRetry(err, attempt)] *)
Definition shouldRetryThis (err : E) (attempt : Z) : bool :=
  match shouldRetry o with
  | None => true
  | Some p => p err attempt
  end.

(** The [for (let attempt = 1; attempt <= maxAttempts; attempt++)]
    loop. [fuel] bounds the number of iterations; [None] means the
    fuel ran out while the loop condition still held. *)
Fixpoint backoffLoop (fuel : nat) (attempt : Z) (lastError : option E)
         (ncalls : nat) (slept : list float) : option Run :=
  if attempt <=? maxAttempts o then
    match fuel with
    | O => None
    | S fuel' =>
        match fn (S ncalls) with
        | Resolved a => Some (mkRun (Returned a) (S ncalls) slept)
        | Rejected err =>
            if (attempt =? maxAttempts o) || negb (shouldRetryThis err attempt)
            then Some (mkRun (Threw (Some err)) (S ncalls) slept)
            else
              backoffLoop fuel' (attempt + 1) (Some err) (S ncalls)
                (slept ++ [actualDelay attempt (random (List.length slept))])
        end
    end
  else Some (mkRun (Threw lastError) ncalls slept).

Definition exponentialBackoff : option Run :=
  backoffLoop (Z.to_nat (maxAttempts o)) 1 None 0 [].


End Backoff.

(** [simpleRetry(fn, attempts, delayMs)]:
    [for (let i = 0; i < attempts; i++)]. *)
Fixpoint simpleLoop (attempts : Z) (delayMs : float) (fuel : nat) (i : Z)
         (lastError : option E) (ncalls : nat) (slept : list float) : option Run :=
  if i <? attempts then
    match fuel with
    | O => None
    | S fuel' =>
        match fn (S ncalls) with
        | Resolved a => Some (mkRun (Returned a) (S ncalls) slept)
        | Rejected err =>
            simpleLoop attempts delayMs fuel' (i + 1) (Some err) (S ncalls)
              (if i <? attempts - 1 then slept ++ [delayMs] else slept)
        end
    end
  else Some (mkRun (Threw lastError) ncalls slept).

Definition simpleRetry (attempts : Z) (delayMs : float) : option Run :=
  simpleLoop attempts delayMs (Z.to_nat attempts) 0 None 0 [].

End Defs.

Arguments Resolved {A E} a.
Arguments Rejected {A E} e.
Arguments Returned {A E} a.
Arguments Threw {A E} e.
Arguments defaults {E}.

(** ** A concrete run: the retry scenario

    An operation rejecting with HTTP status 503 on its first [failures]
    invocations and resolving afterwards, retried with [maxAttempts = 5],
    [baseDelay = 100], [multiplier = 2] and every [Math.random()] equal
    to one half. *)

Definition flaky (failures : nat) (k : nat) : Outcome unit Z :=
  if (k <=? failures)%nat then Rejected 503 else Resolved tt.

Definition alwaysFails (k : nat) : Outcome unit Z := Rejected 503.


Definition half (k : nat) : float := 0.5%float.

(** A [Math.random()] that keeps drawing the largest double below 1. *)
Definition almostOne (k : nat) : float := 0x1.fffffffffffffp-1%float.

(** Powers by repeated multiplication: exact, and so what every engine
    returns, as long as the power is a double, as the powers of two of
    the scenarios are. *)
Fixpoint powNat (base : float) (n : nat) : float :=
  match n with
  | O => 1%float
  | S n' => (base * powNat base n')%float
  end.

Definition exactPow (base : float) (exponent : Z) : float :=
  powNat base (Z.to_nat exponent).

Definition scenario : Options Z :=
  {| maxAttempts := 5; baseDelay := 100%float; maxDelay := 30000%float;
     backoffMultiplier := 2%float; shouldRetry := None |}.

(** [shouldRetry] accepting server errors only (status >= 500). *)
Definition onlyServerErrors : Options Z :=
  {| maxAttempts := 5; baseDelay := 100%float; maxDelay := 30000%float;
     backoffMultiplier := 2%float; shouldRetry := Some (fun status _ => 500 <=? status) |}.

(** A caller that passes a negative [baseDelay]. *)
Definition negativeBase : Options Z :=
  {| maxAttempts := 5; baseDelay := (-1000)%float; maxDelay := 30000%float;
     backoffMultiplier := 2%float; shouldRetry := None |}.

(** Both durations set to one millisecond. *)
Definition oneMillisecond : Options Z :=
  {| maxAttempts := 5; baseDelay := 1%float; maxDelay := 1%float;
     backoffMultiplier := 2%float; shouldRetry := None |}.

End Retry.

(* ================================================================== *)
(** * Server locator *)
(* ================================================================== *)

Module Locator.

Local Open Scope string_scope.
Local Open Scope Z_scope.

(** What a [GET url/health] probe comes to. Only [Healthy] (a success
    status whose body parses as JSON) counts as an answer; a non-success
    status, a rejected or aborted [fetch], and an unparsable body do not. *)
Inductive Health :=
| Healthy
| NotOk
| Unreachable
| Garbled.

Definition answers (h : Health) : bool :=
  match h with Healthy => true | _ => false end.

(** A probe that did not answer. *)
Definition failed (p : string * Health) : Prop := answers (snd p) = false.

(** [{ url, mode }] *)
Record Resolution := mkResolution {
  url : string;
  mode : string
}.

(** A resolution together with the probes it made, in order. *)
Record Probed := mkProbed {
  resolution : Resolution;
  probes : list (string * Health)
}.

(** [haystack.includes(needle)] *)
Fixpoint includes (haystack needle : string) : bool :=
  String.prefix needle haystack ||
  match haystack with
  | EmptyString => false
  | String _ rest => includes rest needle
  end.

Section Probing.

(** The network as the locator sees it: [probe url timeout w] is the
    outcome of one health request issued in world [w]. *)
Variable W : Type.
Variable probe : string -> Z -> W -> Health * W.

(** ** [detectServerUrl] of the context provider *)

(** The candidate list, [.filter(Boolean)] applied: a missing or empty
    [VITE_BACKEND_URL] is dropped. *)
Definition urlsToCheck (VITE_BACKEND_URL : option string) : list string :=
  (match VITE_BACKEND_URL with
   | Some u => if String.eqb u "" then [] else [u]
   | None => []
   end ++
   [ "http://192.168.137.1:3001";
    "http://192.168.1.1:3001";
    "http://192.168.0.1:3001";
    "http://localhost:3001";
    "http://127.0.0.1:3001";
    "http://localhost:5000";
    "http://127.0.0.1:5000" ])%list.

(** The mode deduced from the URL that answered. *)
Definition modeOfUrl (u : string) : string :=
  if includes u "192.168" || includes u "10.0" then "local"
  else if includes u "cloud" || includes u "herokuapp" || includes u "vercel"
       then "online"
       else "localhost".

(** [for (const url of urlsToCheck)], with the probes made so far. *)
Fixpoint detectLoop (urls : list string) (made : list (string * Health)) (w : W)
  : Probed * W :=
  match urls with
  | [] =>
      (mkProbed (mkResolution "http://localhost:3001" "disconnected") made, w)
  | u :: rest =>
      let (h, w') := probe u 2000 w in
      if answers h
      then (mkProbed (mkResolution u (modeOfUrl u)) (made ++ [(u, h)])%list, w')
      else detectLoop rest (made ++ [(u, h)])%list w'
  end.

Definition detectServerUrl (VITE_BACKEND_URL : option string) (w : W) : Probed * W :=
  detectLoop (urlsToCheck VITE_BACKEND_URL) [] w.

(** ** [getServerUrl] of utils/network *)

(** The keys of [SERVER_URLS] that [cachedMode] ranges over. *)
Inductive CachedMode := localhost | local | cloud.

Record ServerUrls := mkServerUrls {
  cloudUrl : string;
  localUrl : string;
  localhostUrl : string
}.

(** [SERVER_URLS[cachedMode]] *)
Definition urlOf (urls : ServerUrls) (m : CachedMode) : string :=
  match m with
  | localhost => localhostUrl urls
  | local => localUrl urls
  | cloud => cloudUrl urls
  end.

(** [cachedMode === 'cloud' ? 'online' : cachedMode] *)
Definition modeOfCached (m : CachedMode) : string :=
  match m with
  | localhost => "localhost"
  | local => "local"
  | cloud => "online"
  end.

(** The module-level variables. [cachedMode = None] is [null]. *)
Record State := mkState {
  SERVER_URLS : ServerUrls;
  cachedMode : option CachedMode;
  lastCheck : Z
}.

Definition CACHE_DURATION : Z := 5000.

(** The configuration with no environment override: all three entries
    are the development fallback. *)
Definition initialUrls : ServerUrls :=
  mkServerUrls "http://localhost:3001" "http://localhost:3001" "http://localhost:3001".

Definition initialState : State := mkState initialUrls None 0.

Definition isServerAvailable (u : string) (timeout : Z) (w : W) : bool * Health * W :=
  let (h, w') := probe u timeout w in (answers h, h, w').

Definition remember (st : State) (m : CachedMode) (now : Z) : State :=
  mkState (SERVER_URLS st) (Some m) now.

(** The body of [getServerUrl] below the cache test: same-machine
    localhost first, then the configured local server, then the cloud. *)
Definition detectBest (now : Z) (onLine : bool) (st : State) (w : W)
  : Probed * State * W :=
  let urls := SERVER_URLS st in
  let '(up1, h1, w1) := isServerAvailable (localhostUrl urls) 2000 w in
  let made1 := [(localhostUrl urls, h1)] in
  if up1 then
    (mkProbed (mkResolution (localhostUrl urls) "localhost") made1,
     remember st localhost now, w1)
  else
    let '(found2, made2, w2) :=
      if negb (String.eqb (localUrl urls) (localhostUrl urls)) then
        let '(up2, h2, w2) := isServerAvailable (localUrl urls) 2000 w1 in
        (up2, (made1 ++ [(localUrl urls, h2)])%list, w2)
      else (false, made1, w1) in
    if found2 then
      (mkProbed (mkResolution (localUrl urls) "local") made2,
       remember st local now, w2)
    else
      let '(found3, made3, w3) :=
        if onLine && negb (String.eqb (cloudUrl urls) (localhostUrl urls)) then
          let '(up3, h3, w3) := isServerAvailable (cloudUrl urls) 3000 w2 in
          (up3, (made2 ++ [(cloudUrl urls, h3)])%list, w3)
        else (false, made2, w2) in
      if found3 then
        (mkProbed (mkResolution (cloudUrl urls) "online") made3,
         remember st cloud now, w3)
      else
        (mkProbed (mkResolution (localhostUrl urls) "localhost") made3,
         remember st localhost now, w3).

(** [now] is [Date.now()], [onLine] is [navigator.onLine]. *)
Definition getServerUrl (now : Z) (onLine : bool) (st : State) (w : W)
  : Probed * State * W :=
  match cachedMode st with
  | Some m =>
      if now - lastCheck st <? CACHE_DURATION
      then (mkProbed (mkResolution (urlOf (SERVER_URLS st) m) (modeOfCached m)) [],
            st, w)
      else detectBest now onLine st w
  | None => detectBest now onLine st w
  end.



End Probing.

(** ** A network on which nothing answers *)

Definition deadNetwork (u : string) (timeout : Z) (w : unit) : Health * unit :=
  (Unreachable, w).

(** A deployment with a LAN server and a cloud server configured. *)
Definition deployedUrls : ServerUrls :=
  mkServerUrls "https://pos.example-cloud.com" "http://192.168.1.50:3001"
               "http://localhost:3001".

(** A network on which only the given URL answers. *)
Definition onlyServer (good : string) (u : string) (timeout : Z) (w : unit)
  : Health * unit :=
  (if String.eqb u good then Healthy else Unreachable, w).

End Locator.

(* ================================================================== *)
(** * JavaScript values *)
(* ================================================================== *)

Module Js.

Local Open Scope string_scope.
Local Open Scope Z_scope.

(** The values an order property can hold. A property that is absent
    reads as [JUndefined]. *)
Inductive value :=
| JUndefined
| JNull
| JBool (b : bool)
| JNum (n : Z)
| JStr (s : string).

(** [ToBoolean] *)
Definition truthy (v : value) : bool :=
  match v with
  | JUndefined | JNull => false
  | JBool b => b
  | JNum n => negb (n =? 0)
  | JStr s => negb (String.eqb s "")
  end.

(** [a === b] *)
Definition strictEq (a b : value) : bool :=
  match a, b with
  | JUndefined, JUndefined => true
  | JNull, JNull => true
  | JBool x, JBool y => Bool.eqb x y
  | JNum x, JNum y => x =? y
  | JStr x, JStr y => String.eqb x y
  | _, _ => false
  end.

(** ** [String(n)] for an integer

    A number prints as the shortest digit string [s] and exponent [e]
    with [s * 10^e] converting back to the same double, the closest such
    product if there are several; the digits are followed by [e] zeros
    up to 21 digits in all, and by an exponent beyond. *)

(** The decimal digits of an integer. *)
Definition digitsOf (n : Z) : string := NilZero.string_of_int (Z.to_int n).

Definition decimalLength (n : Z) : Z := Z.of_nat (String.length (digitsOf n)).

(** The double nearest to an integer, ties to even. *)
Definition toDouble (n : Z) : spec_float := binary_normalize prec emax n 0 false.

(** The products [s * 10^e] with [k] digits in [s] that convert to the
    double of [x]: for each exponent, the two around [x]. *)
Definition candidates (x k : Z) : list (Z * Z) :=
  let len := decimalLength x in
  filter (fun c => let '(s, e) := c in
            (10 ^ (k - 1) <=? s) && (s <? 10 ^ k) && (0 <=? e)
            && SFeqb (toDouble (s * 10 ^ e)) (toDouble x))
         (flat_map (fun e => [(x / 10 ^ e, e); (x / 10 ^ e + 1, e)])
                   [len - k; len - k + 1]).

(** The candidate closer to [x]; of two equally close, the even one. *)
Definition closer (x : Z) (a b : Z * Z) : Z * Z :=
  let da := Z.abs (fst a * 10 ^ snd a - x) in
  let db := Z.abs (fst b * 10 ^ snd b - x) in
  if da <? db then a
  else if db <? da then b
  else if Z.even (fst a) then a else b.

(** The least number of digits that has a candidate, from [k] up; 17
    digits identify any double. *)
Fixpoint shortest (x : Z) (k : Z) (fuel : nat) : Z * Z :=
  match fuel with
  | O => (x, 0)
  | S fuel' =>
      match candidates x k with
      | c :: rest => fold_left (closer x) rest c
      | [] => shortest x (k + 1) fuel'
      end
  end.

Definition positiveToString (x : Z) : string :=
  let '(s, e) := shortest x 1 17 in
  let n := decimalLength s + e in
  if n <=? 21 then digitsOf (s * 10 ^ e)
  else
    match digitsOf s with
    | String d EmptyString => String d ("e+" ++ digitsOf (n - 1))
    | String d more => String d ("." ++ more ++ "e+" ++ digitsOf (n - 1))
    | EmptyString => ""
    end.

(** Below [2^53] every integer is a double of its own and prints in
    full, which is what the search above comes to there. *)
Definition numberToString (x : Z) : string :=
  if Z.abs x <? 2 ^ 53 then digitsOf x
  else if x <? 0 then "-" ++ positiveToString (- x)
  else positiveToString x.

(** [String(v)] *)
Definition toString (v : value) : string :=
  match v with
  | JUndefined => "undefined"
  | JNull => "null"
  | JBool true => "true"
  | JBool false => "false"
  | JNum n => numberToString n
  | JStr s => s
  end.

(** [a || b] *)
Definition or (a b : value) : value := if truthy a then a else b.

End Js.

(* ================================================================== *)
(** * Order records and the IndexedDB object store *)
(* ================================================================== *)

Module Store.

Import Js.
Local Open Scope Z_scope.

Record Item := mkItem {
  name : string;
  price : Z;
  quantity : Z;
  image : string
}.

(** An order object. [id] is the local key (the key path of the object
    store), [_id] the identifier the server assigned, [orderId] the order
    number shown to people. *)
Record Order := mkOrder {
  id : value;
  _id : value;
  orderId : value;
  status : value;
  items : list Item;
  total : Z;
  timestamp : Z;
  synced : value;
  dirty : value
}.

Definition withId (v : value) (o : Order) : Order :=
  mkOrder v (_id o) (orderId o) (status o) (items o) (total o) (timestamp o)
          (synced o) (dirty o).

Definition withStatus (v : value) (o : Order) : Order :=
  mkOrder (id o) (_id o) (orderId o) v (items o) (total o) (timestamp o)
          (synced o) (dirty o).

Definition withSynced (v : value) (o : Order) : Order :=
  mkOrder (id o) (_id o) (orderId o) (status o) (items o) (total o) (timestamp o)
          v (dirty o).

Definition withDirty (v : value) (o : Order) : Order :=
  mkOrder (id o) (_id o) (orderId o) (status o) (items o) (total o) (timestamp o)
          (synced o) v.

(** ** Keys

    The valid keys among the values above are numbers and strings; every
    number sorts before every string. *)
Inductive Key :=
| KNum (n : Z)
| KStr (s : string).

Definition toKey (v : value) : option Key :=
  match v with
  | JNum n => Some (KNum n)
  | JStr s => Some (KStr s)
  | _ => None
  end.

Definition ofKey (k : Key) : value :=
  match k with
  | KNum n => JNum n
  | KStr s => JStr s
  end.

Definition keyCompare (a b : Key) : comparison :=
  match a, b with
  | KNum x, KNum y => x ?= y
  | KNum _, KStr _ => Lt
  | KStr _, KNum _ => Gt
  | KStr x, KStr y => String.compare x y
  end.

Definition keyEqb (a b : Key) : bool :=
  match keyCompare a b with Eq => true | _ => false end.

(** ** The object store ['orders']

    Created with [{ keyPath: 'id', autoIncrement: true }]: records are
    held in ascending key order, each under the key found in (or injected
    into) its [id], and a key generator hands out keys to records that
    arrive without one. *)
Record Store := mkStore {
  entries : list (Key * Order);
  keyGenerator : Z
}.

Definition empty : Store := mkStore [] 1.

(** [getAll()]: every record, in key order. *)
Definition getAll (s : Store) : list Order := map snd (entries s).

Fixpoint lookup (k : Key) (l : list (Key * Order)) : option Order :=
  match l with
  | [] => None
  | (k', o) :: rest => if keyEqb k k' then Some o else lookup k rest
  end.

(** Insert-or-replace at the key's place in the order. *)
Fixpoint upsert (k : Key) (o : Order) (l : list (Key * Order)) : list (Key * Order) :=
  match l with
  | [] => [(k, o)]
  | (k', o') :: rest =>
      match keyCompare k k' with
      | Lt => (k, o) :: (k', o') :: rest
      | Eq => (k, o) :: rest
      | Gt => (k', o') :: upsert k o rest
      end
  end.

Fixpoint remove (k : Key) (l : list (Key * Order)) : list (Key * Order) :=
  match l with
  | [] => []
  | (k', o') :: rest => if keyEqb k k' then rest else (k', o') :: remove k rest
  end.

(** The largest integer the key generator may reach. *)
Definition generatorLimit : Z := 2 ^ 53.

(** An explicit numeric key at or above the generator's current number
    moves the generator past it; string keys leave it alone. *)
Definition bump (k : Key) (g : Z) : Z :=
  match k with
  | KNum n => let v := Z.min n generatorLimit in if g <=? v then v + 1 else g
  | KStr _ => g
  end.

(** How [add] and [put] can end. [DataError] is thrown by the call
    itself, before any request is queued; [ConstraintError] is the
    failure of the queued request, which aborts its transaction. *)
Inductive Written :=
| Stored (s : Store)
| DataError
| ConstraintError.

(** [store.add(o)] when [noOverwrite], [store.put(o)] otherwise. *)
Definition write (noOverwrite : bool) (o : Order) (s : Store) : Written :=
  match id o with
  | JUndefined =>
      let g := keyGenerator s in
      if generatorLimit <? g then ConstraintError
      else
        match noOverwrite, lookup (KNum g) (entries s) with
        | true, Some _ => ConstraintError
        | _, _ => Stored (mkStore (upsert (KNum g) (withId (JNum g) o) (entries s)) (g + 1))
        end
  | v =>
      match toKey v with
      | None => DataError
      | Some k =>
          match noOverwrite, lookup k (entries s) with
          | true, Some _ => ConstraintError
          | _, _ => Stored (mkStore (upsert k o (entries s)) (bump k (keyGenerator s)))
          end
      end
  end.

(** [store.clear()]: the records go, the key generator stays. *)
Definition clear (s : Store) : Store := mkStore [] (keyGenerator s).

(** How a transaction that writes several records can end. *)
Inductive Transaction :=
| Committed (s : Store)
| Interrupted (s : Store)
| Aborted.

(** [for (const order of orders) await tx.store.add(order)] inside one
    transaction. A [DataError] leaves the loop by an exception while the
    transaction, with the writes made so far, still commits; a
    [ConstraintError] aborts the transaction and undoes all of it. *)
Fixpoint addAll (orders : list Order) (s : Store) : Transaction :=
  match orders with
  | [] => Committed s
  | o :: rest =>
      match write true o s with
      | Stored s' => addAll rest s'
      | DataError => Interrupted s
      | ConstraintError => Aborted
      end
  end.

(** [for (const order of data.orders) await tx.store.put(order)] inside
    one transaction; it ends like [addAll]. *)
Fixpoint putAll (orders : list Order) (s : Store) : Transaction :=
  match orders with
  | [] => Committed s
  | o :: rest =>
      match write false o s with
      | Stored s' => putAll rest s'
      | DataError => Interrupted s
      | ConstraintError => Aborted
      end
  end.

(** ** Vocabulary for comparing stores *)

(** A record without regard to its local key. *)
Definition withoutKey (o : Order) : Order := withId JUndefined o.

(** An order that [add] accepts as far as its [id] goes: either it has
    none, or the one it has is a valid key. *)
Definition storable (o : Order) : bool :=
  match id o with
  | JUndefined => true
  | v => match toKey v with Some _ => true | None => false end
  end.

(** The orders ahead of the first one that is not storable. *)
Fixpoint storablePrefix (orders : list Order) : list Order :=
  match orders with
  | [] => []
  | o :: rest => if storable o then o :: storablePrefix rest else []
  end.

(** An order that arrives with a local key of its own. *)
Definition keyed (o : Order) : Prop := id o <> JUndefined.

(** The store a pull of [orders] leaves behind: what the transaction
    committed, or the old store when the transaction was aborted. *)
Definition pulled (orders : list Order) (s : Store) : Store :=
  match addAll orders (clear s) with
  | Committed s' => s'
  | Interrupted s' => s'
  | Aborted => s
  end.

(** A key generator pushed up to a floor, if there is one. *)
Definition raise (floor : option Z) (g : Z) : Z :=
  match floor with
  | None => g
  | Some v => Z.max g v
  end.

(** The entries that orders without a key of their own are stored as
    when the key generator stands at [g]: consecutive keys from [g] on, in
    the order of arrival, each injected into its record. *)
Fixpoint keyedFrom (g : Z) (orders : list Order) : list (Key * Order) :=
  match orders with
  | [] => []
  | o :: rest => (KNum g, withId (JNum g) o) :: keyedFrom (g + 1) rest
  end.

(** Entries all of whose keys are numbers below [g]. *)
Definition allBelow (g : Z) (l : list (Key * Order)) : Prop :=
  Forall (fun e => exists n, fst e = KNum n /\ n < g) l.

(** ** The shape of a store

    What IndexedDB maintains for an object store with in-line keys and a
    key generator: the records lie in strictly ascending key order, each
    record carries its key in its [id], and the key generator has moved
    past every numeric key in use. *)
Definition keyLt (a b : Key) : Prop := keyCompare a b = Lt.

Definition ascending (l : list (Key * Order)) : Prop :=
  StronglySorted (fun a b => keyLt (fst a) (fst b)) l.

Definition inline (e : Key * Order) : Prop := toKey (id (snd e)) = Some (fst e).

Definition passed (g : Z) (e : Key * Order) : Prop := bump (fst e) g = g.

Definition wellFormed (s : Store) : Prop :=
  ascending (entries s)
  /\ Forall inline (entries s)
  /\ Forall (passed (keyGenerator s)) (entries s).

(** ** Sorting

    [list.sort((a, b) => b.timestamp - a.timestamp)]: newest first, and
    stable, so records with equal timestamps keep their relative order. *)
Definition notOlder (a b : Order) : Prop := timestamp b <= timestamp a.

Fixpoint insertNewestFirst (x : Order) (l : list Order) : list Order :=
  match l with
  | [] => [x]
  | y :: rest =>
      if timestamp x <? timestamp y
      then y :: insertNewestFirst x rest
      else x :: y :: rest
  end.

Definition sortNewestFirst (l : list Order) : list Order :=
  fold_right insertNewestFirst [] l.

End Store.

(* ================================================================== *)
(** * Effects: the world the services run in *)
(* ================================================================== *)

Module Effects.

Import Js Store.
Local Open Scope string_scope.

(** An awaited call either yields a value or throws an error, of which
    the code only ever reads the message. *)
Inductive Res (A : Type) :=
| Ok (a : A)
| Throw (message : string).

Arguments Ok {A} a.
Arguments Throw {A} message.

(** The JSON behind [GET /orders]: an array of orders, or something that
    [for ... of] cannot iterate (an object, a number, [null]). *)
Inductive OrdersJson :=
| OrderArray (orders : list Order)
| NotIterable.

(** The JSON behind [POST /orders/sync]: an object, with or without an
    [orders] array; a bare array; or [null]. *)
Inductive SyncJson :=
| SyncObject (orders : option (list Order))
| SyncArray (orders : list Order)
| SyncNull.

(** The functions of services/api, as seen by their callers: each
    consumes the state of the outside world and either resolves or throws.
    [fetchOrdersDirect] is the dashboard's own [fetch] of
    [serverUrl/api/orders]; it resolves to [None] when the response status
    is not a success. *)
Class Backend (W : Type) := {
  apiFetchOrders : W -> Res OrdersJson * W;
  apiSyncOrders : list Order -> W -> Res SyncJson * W;
  apiUpdateOrderStatus : value -> value -> W -> Res unit * W;
  apiFetchOrderByNumber : value -> W -> Res (option Order) * W;
  apiDeleteOrder : value -> W -> Res unit * W;
  fetchOrdersDirect : W -> Res (option (list Order)) * W
}.

(** What the dashboard shows. *)
Inductive UiEvent :=
| Alert (message : string)
| SetOrders (orders : list Order).

Section World.

Context {W : Type} {B : Backend W}.

(** Everything a service call can read or change. *)
Record World := mkWorld {
  store : Store;
  backend : W;
  navigatorOnLine : bool;
  ui : list UiEvent
}.

Definition M (A : Type) : Type := World -> Res A * World.

Definition ret {A} (a : A) : M A := fun w => (Ok a, w).

Definition bind {A C} (m : M A) (k : A -> M C) : M C :=
  fun w =>
    match m w with
    | (Ok a, w') => k a w'
    | (Throw e, w') => (Throw e, w')
    end.

Definition throw {A} (message : string) : M A := fun w => (Throw message, w).

(** [try { m } catch (err) { handler(err.message) }] *)
Definition tryCatch {A} (m : M A) (handler : string -> M A) : M A :=
  fun w =>
    match m w with
    | (Ok a, w') => (Ok a, w')
    | (Throw e, w') => handler e w'
    end.

Definition call {A} (f : W -> Res A * W) : M A :=
  fun w =>
    let (r, b) := f (backend w) in
    (r, mkWorld (store w) b (navigatorOnLine w) (ui w)).

Definition getStore : M Store := fun w => (Ok (store w), w).

Definition setStore (s : Store) : M unit :=
  fun w => (Ok tt, mkWorld s (backend w) (navigatorOnLine w) (ui w)).

Definition onLine : M bool := fun w => (Ok (navigatorOnLine w), w).

Definition show (e : UiEvent) : M unit :=
  fun w => (Ok tt, mkWorld (store w) (backend w) (navigatorOnLine w) (ui w ++ [e])).

End World.

Arguments World W : clear implicits.
Arguments M W A : clear implicits.

Declare Scope js_scope.
Delimit Scope js_scope with js.
Notation "x <- m ;; k" := (bind m (fun x => k))
  (at level 61, m at next level, right associativity) : js_scope.
Notation "m ;; k" := (bind m (fun _ => k))
  (at level 61, right associativity) : js_scope.

End Effects.

(* ================================================================== *)
(** * The order cache (services/db) *)
(* ================================================================== *)

Module Db.

Import Js Store Effects.
Local Open Scope string_scope.
Local Open Scope js_scope.

Section Services.

Context {W : Type} {B : Backend W}.

(** ** The [idb] calls the module makes *)

(** [db.getAll('orders')] *)
Definition dbGetAll : M W (list Order) :=
  s <- getStore ;; ret (getAll s).

(** [db.get('orders', query)]: [undefined] ([None]) when no record has
    that key; a query that is not a valid key is a [DataError]. *)
Definition dbGet (query : value) : M W (option Order) :=
  match toKey query with
  | None => throw "DataError"
  | Some k => s <- getStore ;; ret (lookup k (entries s))
  end.

(** [db.put('orders', order)]: a transaction of its own. *)
Definition dbPut (o : Order) : M W unit :=
  s <- getStore ;;
  match write false o s with
  | Stored s' => setStore s'
  | DataError => throw "DataError"
  | ConstraintError => throw "ConstraintError"
  end.

(** [db.delete('orders', query)] *)
Definition dbDelete (query : value) : M W unit :=
  match toKey query with
  | None => throw "DataError"
  | Some k =>
      s <- getStore ;;
      setStore (mkStore (remove k (entries s)) (keyGenerator s))
  end.

(** [db.clear('orders')] *)
Definition dbClear : M W unit :=
  s <- getStore ;; setStore (clear s).

(** The read-write transaction of [getAllOrders]: [clear()], one [add]
    per fetched order, then [await tx.done]. *)
Definition replaceAll (json : OrdersJson) : M W unit :=
  s <- getStore ;;
  match json with
  | NotIterable => setStore (clear s) ;; throw "TypeError"
  | OrderArray orders =>
      match addAll orders (clear s) with
      | Committed s' => setStore s'
      | Interrupted s' => setStore s' ;; throw "DataError"
      | Aborted => throw "ConstraintError"
      end
  end.

(** [orders] as [getAllOrders] sorts and returns it. *)
Definition fetched (json : OrdersJson) : list Order :=
  match json with
  | OrderArray orders => orders
  | NotIterable => []
  end.

(** ** The exported functions *)

Definition getAllOrders : M W (list Order) :=
  online <- onLine ;;
  fromServer <-
    (if online then
       tryCatch
         (orders <- call apiFetchOrders ;;
          replaceAll orders ;;
          ret (Some (sortNewestFirst (fetched orders))))
         (fun _ => ret None)
     else ret None) ;;
  match fromServer with
  | Some orders => ret orders
  | None => orders <- dbGetAll ;; ret (sortNewestFirst orders)
  end.

Definition getOrderById (key : value) : M W (option Order) := dbGet key.

(** [o => o._id === orderId || o.orderId === orderId
          || String(o.id) === String(orderId)] *)
Definition matchesAnyId (query : value) (o : Order) : bool :=
  strictEq (_id o) query || strictEq (orderId o) query
  || String.eqb (toString (id o)) (toString query).

(** The lookup that opens both [updateOrderStatus] and [deleteOrder]:
    the primary key first and, when that finds nothing, the first record
    of [getAll()] that matches on any identity field. *)
Definition findOrder (query : value) : M W (option Order) :=
  direct <- dbGet query ;;
  match direct with
  | Some o => ret (Some o)
  | None => all <- dbGetAll ;; ret (find (matchesAnyId query) all)
  end.

Definition updateOrderStatus (query : value) (newStatus : value) : M W Order :=
  found <- findOrder query ;;
  match found with
  | None => throw "Order not found"
  | Some order =>
      let order' := withDirty (JBool true) (withStatus newStatus order) in
      dbPut order' ;;
      ret order'
  end.

Definition saveOrder (order : Order) : M W Order :=
  dbPut order ;; ret order.

Definition clearOrders : M W unit := dbClear.

Definition deleteOrder (query : value) : M W (option Order) :=
  existing <- findOrder query ;;
  match existing with
  | Some e => dbDelete (id e) ;; ret (Some e)
  | None => ret None
  end.

(** [{ success: true }], [{ success: false, message: 'Offline' }],
    [{ success: false, error }] *)
Inductive PullResult :=
| PullDone
| PullOffline
| PullError (message : string).

Definition syncWithServer : M W PullResult :=
  online <- onLine ;;
  if negb online then ret PullOffline
  else tryCatch (getAllOrders ;; ret PullDone) (fun e => ret (PullError e)).

Definition getUnsyncedOrders : M W (list Order) :=
  all <- dbGetAll ;; ret (filter (fun o => negb (truthy (synced o))) all).

(** [o => o.id === orderId || o.orderId === orderId || o._id === orderId] *)
Definition matchesForSync (query : value) (o : Order) : bool :=
  strictEq (id o) query || strictEq (orderId o) query || strictEq (_id o) query.

Definition markOrderAsSynced (query : value) : M W (option Order) :=
  orders <- dbGetAll ;;
  match find (matchesForSync query) orders with
  | Some order =>
      let order' := withSynced (JBool true) order in
      dbPut order' ;; ret (Some order')
  | None => ret None
  end.

(** [result.orders || (Array.isArray(result) ? result : [])]; reading
    [.orders] of [null] is a [TypeError]. *)
Definition syncedOrdersOf (result : SyncJson) : M W (list Order) :=
  match result with
  | SyncObject (Some orders) => ret orders
  | SyncObject None => ret []
  | SyncArray orders => ret orders
  | SyncNull => throw "TypeError"
  end.

(** [for (const o of syncedOrders)] *)
Fixpoint storeSynced (syncedOrders : list Order) : M W unit :=
  match syncedOrders with
  | [] => ret tt
  | o :: rest =>
      markOrderAsSynced (or (orderId o) (or (_id o) (id o))) ;;
      saveOrder o ;;
      storeSynced rest
  end.

(** [serverOrder?._id || null] *)
Definition serverIdOf (serverOrder : option Order) : value :=
  or (match serverOrder with Some so => _id so | None => JUndefined end) JNull.

(** The server identifier of a local record: the cached [_id] if there
    is one, else the one the server reports for the order number. *)
Definition resolveServerId (d : Order) : M W value :=
  let serverId := or (_id d) JNull in
  if negb (truthy serverId) && truthy (orderId d)
  then serverOrder <- call (apiFetchOrderByNumber (orderId d)) ;;
       ret (serverIdOf serverOrder)
  else ret serverId.

(** The body of [for (const d of dirty)], with its own [try]/[catch]. *)
Definition pushDirty (d : Order) : M W unit :=
  tryCatch
    (serverId <- resolveServerId d ;;
     if truthy serverId
     then call (apiUpdateOrderStatus serverId (status d)) ;;
          dbPut (withDirty (JBool false) d)
     else ret tt)
    (fun _ => ret tt).

Fixpoint pushAllDirty (dirtyOrders : list Order) : M W unit :=
  match dirtyOrders with
  | [] => ret tt
  | d :: rest => pushDirty d ;; pushAllDirty rest
  end.

(** [{ success: true, synced }], [{ success: false, message: 'Offline' }],
    [{ success: false, error }] *)
Inductive PushResult :=
| PushDone (synced : nat)
| PushOffline
| PushError (message : string).

Definition syncPendingOrders : M W PushResult :=
  online <- onLine ;;
  if negb online then ret PushOffline
  else
    tryCatch
      (pending <- getUnsyncedOrders ;;
       if (List.length pending =? 0)%nat then ret (PushDone 0)
       else
         result <- call (apiSyncOrders pending) ;;
         syncedOrders <- syncedOrdersOf result ;;
         storeSynced syncedOrders ;;
         allOrders <- dbGetAll ;;
         pushAllDirty (filter (fun o => truthy (dirty o)) allOrders) ;;
         ret (PushDone (List.length syncedOrders)))
      (fun e => ret (PushError e)).

(** A computation that leaves a well-formed store well-formed, however
    it ends. *)
Definition keeps {A : Type} (m : M W A) : Prop :=
  forall w, wellFormed (store w) -> wellFormed (store (snd (m w))).

(** [exportAllData()]; [now] is [Date.now()]. *)
Record Export := mkExport {
  exportedOrders : list Order;
  exportedAt : Z
}.

Definition exportAllData (now : Z) : M W Export :=
  orders <- dbGetAll ;; ret (mkExport orders now).

(** [importAllData(data)], [orders] being [data.orders] ([None] when the
    property is missing). *)
Definition importAllData (orders : option (list Order)) : M W bool :=
  match orders with
  | Some (o :: rest) =>
      s <- getStore ;;
      match putAll (o :: rest) s with
      | Committed s' => setStore s' ;; ret true
      | Interrupted s' => setStore s' ;; throw "DataError"
      | Aborted => throw "ConstraintError"
      end
  | _ => ret true
  end.

End Services.

End Db.

(* ================================================================== *)
(** * The dashboard's delete handler (AdminDashboard.jsx) *)
(* ================================================================== *)

Module Dashboard.

Import Js Store Effects Db.
Local Open Scope string_scope.
Local Open Scope js_scope.

(** What the component reads from [useNetwork()]: the connectivity
    signal and the resolved server URL. *)
Record Network := mkNetwork {
  isOnline : bool;
  serverUrl : string
}.

Section Handlers.

Context {W : Type} {B : Backend W}.

(** [loadData]: the order list to show, fetched from the server directly
    when the signal is up and from [getAllOrders] otherwise, sorted
    newest first and handed to [setOrders]. The statistics it also
    computes are presentation only and are left out. *)
Definition loadData (network : Network) : M W unit :=
  tryCatch
    (allOrders <-
       (if isOnline network && negb (String.eqb (serverUrl network) "")
        then
          tryCatch
            (response <- call fetchOrdersDirect ;;
             match response with
             | Some orders => ret orders
             | None => getAllOrders
             end)
            (fun _ => getAllOrders)
        else getAllOrders) ;;
     show (SetOrders (sortNewestFirst allOrders)))
    (fun _ => ret tt).

(** [o => o._id === orderKey || String(o.id) === String(orderKey)
          || o.orderId === orderKey] *)
Definition matchesOrderKey (orderKey : value) (o : Order) : bool :=
  strictEq (_id o) orderKey
  || String.eqb (toString (id o)) (toString orderKey)
  || strictEq (orderId o) orderKey.

(** The remote half of a delete, inside its own [try]/[catch]. *)
Definition deleteRemote (local : Order) : M W unit :=
  tryCatch
    (serverId <- resolveServerId local ;;
     if truthy serverId
     then call (apiDeleteOrder serverId) ;; syncWithServer ;; ret tt
     else ret tt)
    (fun _ => ret tt).

(** [handleDeleteOrder(orderKey)]. [orders] is the component's current
    list; [confirmed] is the answer [window.confirm] gives if asked. *)
Definition handleDeleteOrder (network : Network) (orders : list Order)
           (confirmed : bool) (orderKey : value) : M W unit :=
  if negb (isOnline network)
  then show (Alert "⚠️ Cannot delete while offline")
  else if negb confirmed then ret tt
  else
    tryCatch
      (let local := find (matchesOrderKey orderKey) orders in
       deleteOrder (match local with
                    | Some l => or (id l) (or (_id l) (orderId l))
                    | None => orderKey
                    end) ;;
       (match local with
        | Some l => if isOnline network then deleteRemote l else ret tt
        | None => ret tt
        end) ;;
       loadData network)
      (fun _ => show (Alert "❌ Failed to delete order")).

(** [o => o._id === orderId || o.id === orderId || o.orderId === orderId] *)
Definition matchesStatusKey (query : value) (o : Order) : bool :=
  strictEq (_id o) query || strictEq (id o) query || strictEq (orderId o) query.

(** The server half of a status update, inside its own [try]/[catch]:
    [true] when the handler returned from there. *)
Definition updateRemote (network : Network) (local : Order) (newStatus : value)
  : M W bool :=
  tryCatch
    (serverId <- resolveServerId local ;;
     if truthy serverId
     then call (apiUpdateOrderStatus serverId newStatus) ;;
          syncWithServer ;;
          loadData network ;;
          ret true
     else ret false)
    (fun _ => ret false).

(** [handleStatusUpdate(orderId, newStatus)] *)
Definition handleStatusUpdate (network : Network) (orders : list Order)
           (query : value) (newStatus : value) : M W unit :=
  tryCatch
    (let local := find (matchesStatusKey query) orders in
     returned <-
       (match local with
        | Some l => if isOnline network then updateRemote network l newStatus
                    else ret false
        | None => ret false
        end) ;;
     if returned then ret tt
     else
       match local with
       | Some l =>
           updateOrderStatus (or (id l) (or (_id l) (orderId l))) newStatus ;;
           loadData network
       | None => ret tt
       end)
    (fun _ => show (Alert "❌ Failed to update status")).

End Handlers.

End Dashboard.

(* ================================================================== *)
(** * The admin session (services/auth) *)
(* ================================================================== *)

Module Auth.

Local Open Scope string_scope.
Local Open Scope Z_scope.

(** What [loginAdmin] writes under the key ['adminSession']. *)
Record Session := mkSession {
  isAdmin : bool;
  timestamp : Z
}.

(** The ['adminSession'] entry of [localStorage]: absent, or a session
    as [loginAdmin] serialised it. *)
Definition Storage := option Session.

Definition ADMIN_PASSWORD : string := "admin123".

(** Eight hours, in milliseconds. *)
Definition SESSION_LIFETIME : Z := 8 * 60 * 60 * 1000.

Definition logout (storage : Storage) : Storage := None.

(** [isAdminLoggedIn()]; [now] is [Date.now()]. *)
Definition isAdminLoggedIn (now : Z) (storage : Storage) : bool * Storage :=
  match storage with
  | None => (false, storage)
  | Some session =>
      if SESSION_LIFETIME <? now - timestamp session
      then (false, logout storage)
      else (true, storage)
  end.

(** [{ success: true }] or [{ success: false, error }] *)
Inductive LoginResult :=
| LoggedIn
| Refused (error : string).

Definition loginAdmin (password : string) (now : Z) (storage : Storage)
  : LoginResult * Storage :=
  if String.eqb password ADMIN_PASSWORD
  then (LoggedIn, Some (mkSession true now))
  else (Refused "Invalid password", storage).

Definition getCurrentRole (now : Z) (storage : Storage) : string * Storage :=
  let (loggedIn, storage') := isAdminLoggedIn now storage in
  (if loggedIn then "admin" else "user", storage').

End Auth.

(* ================================================================== *)
(** * A concrete backend *)
(* ================================================================== *)

Module Scenario.

Import Js Store Effects Db.
Local Open Scope string_scope.
Local Open Scope Z_scope.

(** The requests a backend has received. *)
Inductive Request :=
| GetOrders
| PostSync (orders : list Order)
| PatchStatus (serverId : value) (newStatus : value)
| GetByNumber (orderNumber : value)
| DeleteOrder (serverId : value).

(** A server that holds a list of orders, answers every request with
    success while [up], and records what it was asked. *)
Record Server := mkServer {
  up : bool;
  held : list Order;
  received : list Request
}.

Definition logRequest (r : Request) (s : Server) : Server :=
  mkServer (up s) (held s) (received s ++ [r]).

Definition answer {A} (r : Request) (a : A) (s : Server) : Res A * Server :=
  if up s then (Ok a, logRequest r s) else (Throw "Failed to fetch", logRequest r s).

#[export] Instance serverBackend : Backend Server := {|
  apiFetchOrders s := answer GetOrders (OrderArray (held s)) s;
  apiSyncOrders orders s := answer (PostSync orders) (SyncObject (Some orders)) s;
  apiUpdateOrderStatus sid st s := answer (PatchStatus sid st) tt s;
  apiFetchOrderByNumber n s :=
    answer (GetByNumber n) (find (fun o => strictEq (orderId o) n) (held s)) s;
  apiDeleteOrder sid s := answer (DeleteOrder sid) tt s;
  fetchOrdersDirect s := answer GetOrders (Some (held s)) s
|}.

(** An order as the server sends it: no local key, no flags. *)
Definition remote (serverId orderNumber : string) (st : string) (ts : Z) : Order :=
  mkOrder JUndefined (JStr serverId) (JStr orderNumber) (JStr st) [] 0 ts
          JUndefined JUndefined.

(** An order as the cache holds it. *)
Definition cached (key : Z) (serverId orderNumber : value) (st : string) (ts : Z)
           (isSynced isDirty : value) : Order :=
  mkOrder (JNum key) serverId orderNumber (JStr st) [] 0 ts isSynced isDirty.

Definition storeOf (records : list Order) (next : Z) : Store :=
  mkStore (map (fun o => (match toKey (id o) with Some k => k | None => KNum 0 end, o))
               records) next.

Definition world (s : Store) (srv : Server) (online : bool) : World Server :=
  mkWorld s srv online [].



(** A cache whose only record is synced and carries a status change that
    has not been pushed. *)
Definition oneDirty : Store :=
  storeOf [ cached 1 (JStr "s1") (JStr "A-1") "ready" 100 (JBool true) (JBool true) ] 2.

(** The same, next to a record that has never been synced. *)
Definition dirtyAndPending : Store :=
  storeOf [ cached 1 (JStr "s1") (JStr "A-1") "ready" 100 (JBool true) (JBool true);
            cached 2 JUndefined (JStr "B-7") "pending" 300 (JBool false) JUndefined ] 3.

(** Two orders on the server, none in the cache yet. *)
Definition twoRemote : Server :=
  mkServer true [remote "s1" "A-1" "pending" 100; remote "s2" "A-2" "ready" 200] [].

(** The same two orders, each carrying a local key of its own. *)
Definition twoKeyed : Server :=
  mkServer true [ cached 7 (JStr "s1") (JStr "A-1") "pending" 100 JUndefined JUndefined;
                  cached 3 (JStr "s2") (JStr "A-2") "ready" 200 JUndefined JUndefined ] [].

End Scenario.

Unset Implicit Arguments.

(* ================================================================== *)
(** * Doubles: rounding is monotone *)
(* ================================================================== *)

Module DoubleFacts.

Import Double.
Local Open Scope Z_scope.

Lemma pow2_pos k : 0 <= k -> 0 < 2 ^ k.
Proof. intros. apply Z.pow_pos_nonneg; lia. Qed.

Lemma rne_between m k : 0 <= k -> m / 2 ^ k <= rne m k <= m / 2 ^ k + 1.
Proof.
  intros Hk. unfold rne. destruct (_ ?= _); [destruct (Z.even _) | |]; lia.
Qed.

Lemma rne_mono m m' k : 0 <= k -> m <= m' -> rne m k <= rne m' k.
Proof.
  intros Hk Hle. pose proof (pow2_pos k Hk) as HP.
  assert (Hq : m / 2 ^ k <= m' / 2 ^ k) by (apply Z.div_le_mono; lia).
  destruct (Z.eq_dec (m / 2 ^ k) (m' / 2 ^ k)) as [Heq | Hne].
  - pose proof (Z.div_mod m (2 ^ k) ltac:(lia)) as Hm.
    pose proof (Z.div_mod m' (2 ^ k) ltac:(lia)) as Hm'.
    assert (Hr : m mod 2 ^ k <= m' mod 2 ^ k) by (rewrite Heq in Hm; lia).
    unfold rne. rewrite Heq.
    destruct (Z.compare_spec (2 * (m mod 2 ^ k)) (2 ^ k));
      destruct (Z.compare_spec (2 * (m' mod 2 ^ k)) (2 ^ k));
      destruct (Z.even (m' / 2 ^ k)); lia.
  - pose proof (rne_between m k Hk). pose proof (rne_between m' k Hk). lia.
Qed.

Lemma rne_zero m : rne m 0 = m.
Proof.
  unfold rne. rewrite Z.pow_0_r, Z.div_1_r, Z.mod_1_r. reflexivity.
Qed.

Lemma rne_scale m k j : 0 <= k -> 0 <= j -> rne (m * 2 ^ j) (k + j) = rne m k.
Proof.
  intros Hk Hj. pose proof (pow2_pos k Hk). pose proof (pow2_pos j Hj).
  unfold rne. rewrite Z.pow_add_r by lia.
  rewrite Z.div_mul_cancel_r by lia.
  rewrite Z.mul_mod_distr_r by lia.
  rewrite Z.mul_assoc, <- Zmult_compare_compat_r by lia. reflexivity.
Qed.

Lemma rne_exact q k : 0 <= k -> rne (q * 2 ^ k) k = q.
Proof.
  intros Hk. rewrite <- (rne_zero q) at 2.
  replace k with (0 + k) at 2 by lia. apply rne_scale; lia.
Qed.

Lemma rne_nonneg m k : 0 <= k -> 0 <= m -> 0 <= rne m k.
Proof.
  intros Hk Hm. pose proof (rne_between m k Hk).
  pose proof (Z.div_pos m (2 ^ k) Hm (pow2_pos k Hk)). lia.
Qed.

(** ** What shifting computes *)

Lemma shr_1_spec m r s :
  0 <= m ->
  shr_1 {| shr_m := m; shr_r := r; shr_s := s |}
  = {| shr_m := m / 2; shr_r := Z.odd m; shr_s := r || s |}.
Proof.
  intros Hm. destruct m as [|p|p]; [reflexivity | | lia].
  destruct p as [p|p|]; simpl shr_1.
  - rewrite Pos2Z.inj_xI. f_equal.
    + symmetry. rewrite Z.add_comm, Z.mul_comm, Z.div_add by lia. reflexivity.
  - rewrite Pos2Z.inj_xO. f_equal.
    + symmetry. rewrite Z.mul_comm, Z.div_mul by lia. reflexivity.
  - reflexivity.
Qed.

Lemma iter_pos_nat {A : Type} (f : A -> A) p : forall x,
  iter_pos f p x = Nat.iter (Pos.to_nat p) f x.
Proof.
  induction p as [p IH | p IH |]; intros x; cbn [iter_pos].
  - rewrite !IH, Pos2Nat.inj_xI. rewrite <- Nat.iter_succ_r, <- Nat.iter_add.
    f_equal. lia.
  - rewrite !IH, Pos2Nat.inj_xO. rewrite <- Nat.iter_add. f_equal. lia.
  - reflexivity.
Qed.

Lemma shr_iter m (j : nat) :
  0 <= m ->
  Nat.iter (S j) shr_1 {| shr_m := m; shr_r := false; shr_s := false |}
  = {| shr_m := m / 2 ^ Z.of_nat (S j);
       shr_r := Z.odd (m / 2 ^ Z.of_nat j);
       shr_s := negb (m mod 2 ^ Z.of_nat j =? 0) |}.
Proof.
  intros Hm. induction j as [|j IH].
  - unfold Nat.iter. cbn [nat_rect]. rewrite shr_1_spec by lia.
    change (Z.of_nat 1) with 1. change (Z.of_nat 0) with 0.
    rewrite Z.pow_1_r, Z.pow_0_r, Z.div_1_r, Z.mod_1_r. reflexivity.
  - rewrite Nat.iter_succ, IH.
    pose proof (pow2_pos (Z.of_nat j) ltac:(lia)) as HP.
    pose proof (pow2_pos (Z.of_nat (S j)) ltac:(lia)) as HP'.
    rewrite shr_1_spec by (apply Z.div_pos; lia).
    f_equal.
    + rewrite Z.div_div by lia. f_equal.
      rewrite (Nat2Z.inj_succ (S j)), Z.pow_succ_r by lia. lia.
    + (* sticky *)
      rewrite (Nat2Z.inj_succ j), Z.pow_succ_r by lia.
      set (P := 2 ^ Z.of_nat j) in *.
      pose proof (Z.div_mod m P ltac:(lia)) as Hdm.
      pose proof (Z.mod_pos_bound m P ltac:(lia)) as Hb.
      pose proof (Zdiv.Zmod_eq_full (m / P) 2 ltac:(lia)) as Hq2.
      pose proof (Z.mod_pos_bound (m / P) 2 ltac:(lia)) as Hb2.
      assert (Hmod : m mod (2 * P) = P * ((m / P) mod 2) + m mod P).
      { symmetry. apply Z.mod_unique_pos with (q := m / P / 2); [nia | nia]. }
      rewrite Hmod. rewrite Zodd_mod.
      destruct (Z.eqb_spec ((m / P) mod 2) 1) as [H1 | H1];
        destruct (Z.eqb_spec (m mod P) 0) as [H0 | H0]; simpl;
        destruct (Z.eqb_spec (P * ((m / P) mod 2) + m mod P) 0); try reflexivity; nia.
Qed.

Lemma shr_round m (p : positive) :
  0 <= m ->
  let mrs := iter_pos shr_1 p {| shr_m := m; shr_r := false; shr_s := false |} in
  shr_m mrs = m / 2 ^ Zpos p
  /\ round_nearest_even (shr_m mrs) (loc_of_shr_record mrs) = rne m (Zpos p).
Proof.
  intros Hm. cbv zeta. rewrite iter_pos_nat.
  destruct (Pos2Nat.is_succ p) as [j Hj]. rewrite Hj, shr_iter by lia.
  assert (Hp : Zpos p = Z.of_nat (S j)) by lia. rewrite Hp.
  cbn [shr_m]. split; [reflexivity |].
  rewrite (Nat2Z.inj_succ j).
  pose proof (pow2_pos (Z.of_nat j) ltac:(lia)) as HP.
  unfold rne. rewrite Z.pow_succ_r by lia.
  set (P := 2 ^ Z.of_nat j) in *.
  pose proof (Z.div_mod m P ltac:(lia)) as Hdm.
  pose proof (Z.mod_pos_bound m P ltac:(lia)) as Hb.
  pose proof (Z.mod_pos_bound (m / P) 2 ltac:(lia)) as Hb2.
  assert (Hmod : m mod (2 * P) = P * ((m / P) mod 2) + m mod P).
  { pose proof (Z.div_mod (m / P) 2 ltac:(lia)) as Hq2.
    symmetry. apply Z.mod_unique_pos with (q := m / P / 2).
    - assert (Hx : (m / P) mod 2 = 0 \/ (m / P) mod 2 = 1) by lia.
      destruct Hx as [-> | ->]; lia.
    - nia. }
  rewrite Hmod, Zodd_mod.
  destruct (Z.eqb_spec ((m / P) mod 2) 1) as [H1 | H1];
    destruct (Z.eqb_spec (m mod P) 0) as [H0 | H0]; cbn [negb loc_of_shr_record round_nearest_even];
    destruct (Z.compare_spec (2 * (P * ((m / P) mod 2) + m mod P)) (2 * P));
    try reflexivity; try nia.
Qed.

(** ** The number of binary digits *)

Lemma Zdigits2_bounds p :
  2 ^ (Zdigits2 (Zpos p) - 1) <= Zpos p < 2 ^ Zdigits2 (Zpos p).
Proof.
  unfold Zdigits2.
  induction p as [p IH | p IH |]; cbn [digits2_pos].
  - rewrite Pos2Z.inj_succ. change (Zpos p~1) with (2 * Zpos p + 1).
    replace (Z.succ (Zpos (digits2_pos p)) - 1) with (Z.succ (Zpos (digits2_pos p) - 1)) by lia.
    rewrite !Z.pow_succ_r by lia. lia.
  - rewrite Pos2Z.inj_succ. change (Zpos p~0) with (2 * Zpos p).
    replace (Z.succ (Zpos (digits2_pos p)) - 1) with (Z.succ (Zpos (digits2_pos p) - 1)) by lia.
    rewrite !Z.pow_succ_r by lia. lia.
  - simpl. lia.
Qed.

Lemma Zdigits2_unique m d :
  0 < m -> 2 ^ (d - 1) <= m < 2 ^ d -> Zdigits2 m = d.
Proof.
  intros Hm [Hlo Hhi]. destruct m as [|p|p]; try lia.
  pose proof (Zdigits2_bounds p) as [Hlo' Hhi'].
  assert (Hd : 0 < d).
  { destruct (Z.lt_ge_cases 0 d); [assumption |].
    destruct (Z.eq_dec d 0) as [-> | Hne]; [simpl in Hhi; lia |].
    rewrite Z.pow_neg_r in Hhi by lia. lia. }
  assert (Hd' : 0 < Zdigits2 (Zpos p)) by (simpl; lia).
  destruct (Z.lt_trichotomy (Zdigits2 (Zpos p)) d) as [Hlt | [Heq | Hgt]]; [| exact Heq |].
  - assert (2 ^ Zdigits2 (Zpos p) <= 2 ^ (d - 1)) by (apply Z.pow_le_mono_r; lia). lia.
  - assert (2 ^ d <= 2 ^ (Zdigits2 (Zpos p) - 1)) by (apply Z.pow_le_mono_r; lia). lia.
Qed.

Lemma Zdigits2_scale m j :
  0 < m -> 0 <= j -> Zdigits2 (m * 2 ^ j) = Zdigits2 m + j.
Proof.
  intros Hm Hj. pose proof (pow2_pos j Hj).
  destruct m as [|p|p]; try lia.
  pose proof (Zdigits2_bounds p) as [Hlo Hhi].
  assert (0 < Zdigits2 (Zpos p)) by (simpl; lia).
  apply Zdigits2_unique; [nia |].
  replace (Zdigits2 (Zpos p) + j - 1) with (Zdigits2 (Zpos p) - 1 + j) by lia.
  rewrite !Z.pow_add_r by lia. nia.
Qed.

Lemma Zdigits2_mono m m' : 0 < m -> m <= m' -> Zdigits2 m <= Zdigits2 m'.
Proof.
  intros Hm Hle. destruct m as [|p|p], m' as [|p'|p']; try lia.
  pose proof (Zdigits2_bounds p) as [Hlo Hhi].
  pose proof (Zdigits2_bounds p') as [Hlo' Hhi'].
  destruct (Z.le_gt_cases (Zdigits2 (Zpos p)) (Zdigits2 (Zpos p'))); [assumption |].
  assert (2 ^ Zdigits2 (Zpos p') <= 2 ^ (Zdigits2 (Zpos p) - 1))
    by (apply Z.pow_le_mono_r; lia).
  lia.
Qed.

(** ** What rounding to a double computes *)

Lemma fexp_eq e : fexp prec emax e = Z.max (e - 53) (-1074).
Proof. reflexivity. Qed.

Lemma shr_nothing mrs e n : n <= 0 -> shr mrs e n = (mrs, e).
Proof. intros Hn. destruct n; try reflexivity. lia. Qed.

Lemma second_step q E :
  0 <= q <= 2 ^ 53 -> -1074 <= E ->
  (let '(mrs, e) := shr_fexp prec emax q E loc_Exact in
   match shr_m mrs with
   | Z0 => S754_zero false
   | Zpos m => if e <=? emax - prec then S754_finite false m e else S754_infinity false
   | Zneg _ => S754_nan
   end) = normal q E.
Proof.
  intros Hq HE. unfold normal, shr_fexp. rewrite fexp_eq.
  destruct (Z.eqb_spec q (2 ^ 53)) as [-> | Hne].
  - replace (Z.max (Zdigits2 (2 ^ 53) + E - 53) (-1074) - E) with 1
      by (change (Zdigits2 (2 ^ 53)) with 54; lia).
    reflexivity.
  - destruct q as [|p|p]; try lia.
    + rewrite shr_nothing by (simpl Zdigits2; lia). reflexivity.
    + rewrite shr_nothing; [reflexivity |].
      pose proof (Zdigits2_bounds p) as [Hlo Hhi].
      assert (Zdigits2 (Zpos p) <= 53).
      { destruct (Z.le_gt_cases (Zdigits2 (Zpos p)) 53); [assumption |].
        assert (2 ^ 53 <= 2 ^ (Zdigits2 (Zpos p) - 1)) by (apply Z.pow_le_mono_r; lia).
        lia. }
      lia.
Qed.

Lemma rne_upper m k d :
  0 <= k -> 0 <= m < 2 ^ d -> d - 53 <= k -> rne m k <= 2 ^ 53.
Proof.
  intros Hk Hm Hd.
  assert (Hle : m <= 2 ^ (Z.max (d - k) 0) * 2 ^ k).
  { rewrite <- Z.pow_add_r by lia.
    assert (2 ^ d <= 2 ^ (Z.max (d - k) 0 + k)).
    { destruct (Z.le_gt_cases 0 d).
      - apply Z.pow_le_mono_r; lia.
      - rewrite (Z.pow_neg_r 2 d) by lia. apply Z.pow_nonneg. lia. }
    lia. }
  apply (rne_mono _ _ k Hk) in Hle. rewrite rne_exact in Hle by lia.
  assert (2 ^ Z.max (d - k) 0 <= 2 ^ 53) by (apply Z.pow_le_mono_r; lia).
  lia.
Qed.

Lemma round_spec m e :
  0 < m ->
  0 <= fexp prec emax (Zdigits2 m + e) - e ->
  binary_round_aux prec emax false m e loc_Exact
  = normal (rne m (fexp prec emax (Zdigits2 m + e) - e)) (fexp prec emax (Zdigits2 m + e)).
Proof.
  intros Hm Hk. unfold binary_round_aux.
  set (k := fexp prec emax (Zdigits2 m + e) - e) in *.
  assert (Hfirst : exists mrs,
             shr_fexp prec emax m e loc_Exact = (mrs, e + k)
             /\ round_nearest_even (shr_m mrs) (loc_of_shr_record mrs) = rne m k).
  { unfold shr_fexp. fold k. cbn [shr_record_of_loc].
    destruct k as [|p|p] eqn:Hkp; try lia.
    - eexists. split; [unfold shr; rewrite Z.add_0_r; reflexivity |].
      cbn. now rewrite rne_zero.
    - eexists. split; [reflexivity |]. apply shr_round. lia. }
  destruct Hfirst as (mrs & -> & ->).
  replace (fexp prec emax (Zdigits2 m + e)) with (e + k) by (unfold k; lia).
  apply second_step.
  - split; [apply rne_nonneg; lia |].
    destruct m as [|p|p]; try lia.
    pose proof (Zdigits2_bounds p) as [Hlo Hhi].
    apply rne_upper with (d := Zdigits2 (Zpos p)); [lia | lia |].
    unfold k. rewrite fexp_eq. lia.
  - unfold k. rewrite fexp_eq. lia.
Qed.

Lemma round_scale m e j :
  0 < m -> 0 <= j ->
  0 <= fexp prec emax (Zdigits2 m + e) - e ->
  binary_round_aux prec emax false (m * 2 ^ j) (e - j) loc_Exact
  = binary_round_aux prec emax false m e loc_Exact.
Proof.
  intros Hm Hj Hk. pose proof (pow2_pos j Hj).
  assert (Hd : Zdigits2 (m * 2 ^ j) + (e - j) = Zdigits2 m + e)
    by (rewrite Zdigits2_scale by lia; lia).
  rewrite !round_spec; rewrite ?Hd; try lia; try nia.
  replace (fexp prec emax (Zdigits2 m + e) - (e - j))
    with (fexp prec emax (Zdigits2 m + e) - e + j) by lia.
  now rewrite rne_scale by lia.
Qed.

(** ** Comparing rounded numbers *)

Lemma SFleb_finite m1 e1 m2 e2 :
  e1 < e2 \/ e1 = e2 /\ (m1 <= m2)%positive ->
  SFleb (S754_finite false m1 e1) (S754_finite false m2 e2) = true.
Proof.
  unfold SFleb, SFcompare. intros [Hlt | [-> Hle]].
  - apply Z.compare_lt_iff in Hlt. now rewrite Hlt.
  - rewrite Z.compare_refl. change (Pos.compare_cont Eq m1 m2) with (m1 ?= m2)%positive.
    destruct (m1 ?= m2)%positive eqn:Hc; try reflexivity.
    apply Pos.compare_gt_iff in Hc. lia.
Qed.

Lemma finished_le q1 E1 q2 E2 :
  0 <= q1 -> 0 < q2 ->
  E1 < E2 \/ E1 = E2 /\ q1 <= q2 ->
  SFleb (finished q1 E1) (finished q2 E2) = true.
Proof.
  intros H1 H2 Hle. destruct q1 as [|p1|p1], q2 as [|p2|p2]; try lia; unfold finished.
  - destruct (E2 <=? 971); reflexivity.
  - destruct (Z.leb_spec E1 971), (Z.leb_spec E2 971); try reflexivity; try lia.
    apply SFleb_finite. lia.
Qed.

Lemma normal_le q1 E1 q2 E2 :
  0 <= q1 <= 2 ^ 53 -> 0 <= q2 <= 2 ^ 53 ->
  E1 = E2 /\ q1 <= q2 \/ E1 < E2 /\ 2 ^ 52 <= q2 ->
  SFleb (normal q1 E1) (normal q2 E2) = true.
Proof.
  intros H1 H2 Hle. unfold normal.
  assert (H52 : 0 < 2 ^ 52) by reflexivity.
  assert (H5253 : 2 ^ 52 < 2 ^ 53) by reflexivity.
  destruct (Z.eqb_spec q1 (2 ^ 53)) as [E | N1], (Z.eqb_spec q2 (2 ^ 53)) as [E' | N2].
  - apply finished_le; lia.
  - apply finished_le; lia.
  - apply finished_le; lia.
  - destruct (Z.eq_dec q2 0) as [-> | Hpos].
    + assert (q1 = 0) by lia. subst q1. reflexivity.
    + apply finished_le; lia.
Qed.

Lemma rne_range m e :
  0 < m -> 0 <= fexp prec emax (Zdigits2 m + e) - e ->
  0 <= rne m (fexp prec emax (Zdigits2 m + e) - e) <= 2 ^ 53.
Proof.
  intros Hm Hk. split; [apply rne_nonneg; lia |].
  destruct m as [|p|p]; try lia.
  pose proof (Zdigits2_bounds p) as [Hlo Hhi].
  apply rne_upper with (d := Zdigits2 (Zpos p)); [lia | lia |].
  rewrite fexp_eq. lia.
Qed.

(** Rounding is monotone: same exponent first. *)
Lemma round_mono m1 m2 e :
  0 < m1 <= m2 ->
  0 <= fexp prec emax (Zdigits2 m1 + e) - e ->
  SFleb (binary_round_aux prec emax false m1 e loc_Exact)
        (binary_round_aux prec emax false m2 e loc_Exact) = true.
Proof.
  intros Hm Hk1.
  pose proof (Zdigits2_mono m1 m2 ltac:(lia) ltac:(lia)) as Hd.
  assert (Hk2 : 0 <= fexp prec emax (Zdigits2 m2 + e) - e)
    by (rewrite ?fexp_eq in *; lia).
  rewrite !round_spec by lia.
  apply normal_le; try (apply rne_range; lia).
  destruct (Z.eq_dec (fexp prec emax (Zdigits2 m1 + e)) (fexp prec emax (Zdigits2 m2 + e)))
    as [Heq | Hne].
  - left. split; [exact Heq |]. rewrite Heq. apply rne_mono; lia.
  - right. split; [rewrite ?fexp_eq in *; lia |].
    destruct m2 as [|p2|p2]; try lia.
    pose proof (Zdigits2_bounds p2) as [Hlo Hhi].
    assert (Hk : fexp prec emax (Zdigits2 (Zpos p2) + e) - e = Zdigits2 (Zpos p2) - 53)
      by (rewrite ?fexp_eq in *; lia).
    rewrite Hk.
    assert (H53 : 0 <= Zdigits2 (Zpos p2) - 53) by lia.
    rewrite <- (rne_exact (2 ^ 52) (Zdigits2 (Zpos p2) - 53) H53).
    apply rne_mono; [lia |].
    rewrite <- Z.pow_add_r by lia.
    replace (52 + (Zdigits2 (Zpos p2) - 53)) with (Zdigits2 (Zpos p2) - 1) by lia.
    exact Hlo.
Qed.

(** ... then any two numbers, compared at their smaller exponent. *)
Lemma round_le m1 e1 m2 e2 :
  0 < m1 -> 0 < m2 ->
  0 <= fexp prec emax (Zdigits2 m1 + e1) - e1 ->
  0 <= fexp prec emax (Zdigits2 m2 + e2) - e2 ->
  m1 * 2 ^ (e1 - Z.min e1 e2) <= m2 * 2 ^ (e2 - Z.min e1 e2) ->
  SFleb (binary_round_aux prec emax false m1 e1 loc_Exact)
        (binary_round_aux prec emax false m2 e2 loc_Exact) = true.
Proof.
  intros H1 H2 Hk1 Hk2 Hle.
  set (e := Z.min e1 e2) in *.
  pose proof (pow2_pos (e1 - e) ltac:(lia)).
  pose proof (pow2_pos (e2 - e) ltac:(lia)).
  rewrite <- (round_scale m1 e1 (e1 - e)) by lia.
  rewrite <- (round_scale m2 e2 (e2 - e)) by lia.
  replace (e1 - (e1 - e)) with e by lia. replace (e2 - (e2 - e)) with e by lia.
  apply round_mono; [nia |].
  rewrite Zdigits2_scale by lia. rewrite ?fexp_eq in *; lia.
Qed.

(** ** Valid doubles *)

Lemma bounded_facts m e :
  bounded prec emax m e = true ->
  fexp prec emax (Zdigits2 (Zpos m) + e) = e /\ e <= 971.
Proof.
  unfold bounded, canonical_mantissa. intros H. apply andb_prop in H as [Hc He].
  apply Z.eqb_eq in Hc. apply Z.leb_le in He. split; [exact Hc | exact He].
Qed.

Lemma Zdigits2_pos_pos m : 0 < Zdigits2 (Zpos m).
Proof. simpl. lia. Qed.

Lemma Zdigits2_mul mx my :
  Zdigits2 (Zpos mx) + Zdigits2 (Zpos my) - 1 <= Zdigits2 (Zpos (mx * my)).
Proof.
  pose proof (Zdigits2_bounds mx) as [Hx _].
  pose proof (Zdigits2_bounds my) as [Hy _].
  pose proof (Zdigits2_bounds (mx * my)) as [_ Hxy].
  pose proof (Zdigits2_pos_pos mx). pose proof (Zdigits2_pos_pos my).
  rewrite Pos2Z.inj_mul in Hxy at 1.
  assert (Hlow : 2 ^ (Zdigits2 (Zpos mx) - 1 + (Zdigits2 (Zpos my) - 1)) < 2 ^ Zdigits2 (Zpos (mx * my))).
  { rewrite Z.pow_add_r by lia.
    pose proof (pow2_pos (Zdigits2 (Zpos mx) - 1) ltac:(lia)).
    pose proof (pow2_pos (Zdigits2 (Zpos my) - 1) ltac:(lia)).
    nia. }
  apply Z.pow_lt_mono_r_iff in Hlow; [lia | lia |].
  pose proof (Zdigits2_pos_pos (mx * my)). lia.
Qed.

Lemma mul_shift_nonneg mx ex my ey :
  bounded prec emax mx ex = true -> bounded prec emax my ey = true ->
  0 <= fexp prec emax (Zdigits2 (Zpos (mx * my)) + (ex + ey)) - (ex + ey).
Proof.
  intros Hx Hy. apply bounded_facts in Hx as [Hx _], Hy as [Hy _].
  pose proof (Zdigits2_mul mx my).
  pose proof (Zdigits2_pos_pos mx). pose proof (Zdigits2_pos_pos my).
  rewrite ?fexp_eq in *. lia.
Qed.

(** On valid doubles the comparison is that of the values. *)
Lemma SFleb_value mx ex my ey :
  bounded prec emax mx ex = true -> bounded prec emax my ey = true ->
  SFleb (S754_finite false mx ex) (S754_finite false my ey) = true ->
  Zpos mx * 2 ^ (ex - Z.min ex ey) <= Zpos my * 2 ^ (ey - Z.min ex ey).
Proof.
  intros Hx Hy. apply bounded_facts in Hx as [Hx _], Hy as [Hy _].
  unfold SFleb, SFcompare.
  destruct (Z.compare_spec ex ey) as [-> | Hlt | Hgt].
  - rewrite Z.min_id, Z.sub_diag, Z.pow_0_r.
    change (Pos.compare_cont Eq mx my) with (mx ?= my)%positive.
    destruct (mx ?= my)%positive eqn:Hc; try discriminate; intros _.
    + apply Pos.compare_eq in Hc. subst. lia.
    + pose proof (proj1 (Pos.compare_lt_iff mx my) Hc). lia.
  - intros _. rewrite Z.min_l by lia. rewrite Z.sub_diag, Z.pow_0_r.
    pose proof (Zdigits2_bounds mx) as [_ Hhx].
    pose proof (Zdigits2_bounds my) as [Hly _].
    assert (Hdy : Zdigits2 (Zpos my) = 53) by (rewrite ?fexp_eq in *; lia).
    assert (Hdx : Zdigits2 (Zpos mx) <= 53) by (rewrite ?fexp_eq in *; lia).
    rewrite Hdy in Hly.
    assert (2 ^ Zdigits2 (Zpos mx) <= 2 ^ 53) by (apply Z.pow_le_mono_r; lia).
    assert (2 ^ 1 <= 2 ^ (ey - ex)) by (apply Z.pow_le_mono_r; lia).
    change (2 ^ (53 - 1)) with (2 ^ 52) in Hly.
    change (2 ^ 53) with (2 * 2 ^ 52) in *. change (2 ^ 1) with 2 in *. nia.
  - discriminate.
Qed.


Lemma shr_1_nonneg mrs : 0 <= shr_m mrs -> 0 <= shr_m (shr_1 mrs).
Proof.
  destruct mrs as [m r s]. simpl. destruct m as [|p|p]; simpl; try lia.
  destruct p; simpl; lia.
Qed.

Lemma iter_pos_nonneg p : forall mrs, 0 <= shr_m mrs -> 0 <= shr_m (iter_pos shr_1 p mrs).
Proof. induction p; intros mrs H; simpl; auto using shr_1_nonneg. Qed.

Lemma shr_record_of_loc_m m l : shr_m (shr_record_of_loc m l) = m.
Proof. destruct l as [|[]]; reflexivity. Qed.

Lemma shr_fexp_nonneg m e l : 0 <= m -> 0 <= shr_m (fst (shr_fexp prec emax m e l)).
Proof.
  intros H. unfold shr_fexp, shr.
  destruct (fexp prec emax (Zdigits2 m + e) - e); simpl;
    rewrite ?shr_record_of_loc_m; try assumption.
  apply iter_pos_nonneg. now rewrite shr_record_of_loc_m.
Qed.

Lemma round_nearest_even_nonneg m l : 0 <= m -> 0 <= round_nearest_even m l.
Proof.
  intros H. destruct l as [|[]]; simpl; try lia. destruct (Z.even m); lia.
Qed.

Lemma binary_round_aux_signed s m e l :
  0 <= m -> SFsigned s (binary_round_aux prec emax s m e l).
Proof.
  intros H. unfold binary_round_aux.
  pose proof (shr_fexp_nonneg m e l H) as H1.
  destruct (shr_fexp prec emax m e l) as [mrs' e']. simpl in H1.
  pose proof (shr_fexp_nonneg (round_nearest_even (shr_m mrs') (loc_of_shr_record mrs'))
                e' loc_Exact (round_nearest_even_nonneg _ _ H1)) as H2.
  destruct (shr_fexp prec emax _ e' loc_Exact) as [mrs'' e'']. simpl in H2.
  destruct (shr_m mrs''); simpl; [exact I | | lia].
  destruct (e'' <=? _); reflexivity.
Qed.

(** ** The product *)

Lemma SFleb_zero_signed s x : SFsigned false x -> SFleb (S754_zero s) x = true.
Proof.
  destruct x as [s' | s' | | s' m e]; simpl; intros H; subst; try contradiction;
    reflexivity.
Qed.

Lemma SFleb_signed x y :
  SFsigned false x -> SFleb x y = true -> SFsigned false y.
Proof.
  destruct x as [sx | sx | | sx mx ex], y as [sy | sy | | sy my ey]; simpl;
    intros Hx Hle; subst; try contradiction; try exact I; try discriminate;
    destruct sy; try reflexivity; try discriminate.
Qed.

Lemma SFleb_finite_l x y :
  SFsigned false x -> SFfinite y -> SFleb x y = true -> SFfinite x.
Proof.
  destruct x as [sx | sx | | sx mx ex], y as [sy | sy | | sy my ey]; simpl;
    intros Hx Hy Hle; subst; try contradiction; try exact I; discriminate.
Qed.

Lemma SFmul_le_compat_r x y z :
  valid_binary x = true -> valid_binary y = true -> valid_binary z = true ->
  SFsigned false x -> SFsigned false z -> SFfinite y -> SFfinite z ->
  SFleb x y = true ->
  SFleb (SF64mul x z) (SF64mul y z) = true.
Proof.
  intros Vx Vy Vz Sx Sz Fy Fz Hle.
  pose proof (SFleb_signed x y Sx Hle) as Sy.
  pose proof (SFleb_finite_l x y Sx Fy Hle) as Fx.
  destruct x as [sx | sx | | sx mx ex]; try contradiction;
    destruct y as [sy | sy | | sy my ey]; try contradiction;
    destruct z as [sz | sz | | sz mz ez]; try contradiction;
    simpl in Sx, Sy, Sz; subst; try reflexivity.
  - (* 0 * z <= y * z *)
    apply SFleb_zero_signed. apply binary_round_aux_signed. lia.
  - discriminate Hle.
  - cbn [SF64mul SFmul xorb].
    simpl in Vx, Vy, Vz.
    apply round_le; try lia; try (apply mul_shift_nonneg; assumption).
    pose proof (SFleb_value mx ex my ey Vx Vy Hle) as Hv.
    replace (Z.min (ex + ez) (ey + ez)) with (Z.min ex ey + ez) by lia.
    replace (ex + ez - (Z.min ex ey + ez)) with (ex - Z.min ex ey) by lia.
    replace (ey + ez - (Z.min ex ey + ez)) with (ey - Z.min ex ey) by lia.
    rewrite !Pos2Z.inj_mul. nia.
Qed.

Lemma SFmul_comm x y : SF64mul x y = SF64mul y x.
Proof.
  destruct x as [sx | sx | | sx mx ex], y as [sy | sy | | sy my ey]; simpl;
    try reflexivity; try (now rewrite xorb_comm).
  now rewrite xorb_comm, Pos.mul_comm, Z.add_comm.
Qed.

Lemma SFmul_one x :
  valid_binary x = true -> SFsigned false x -> SFfinite x ->
  SF64mul x (Prim2SF 1) = x.
Proof.
  change (Prim2SF 1) with (S754_finite false 4503599627370496 (-52)).
  destruct x as [s | s | | s m e]; simpl; try contradiction.
  - intros _ _ _. now destruct s.
  - intros V -> _. apply bounded_facts in V as [Hc He].
    replace (Zpos (m * 4503599627370496)) with (Zpos m * 2 ^ 52) by reflexivity.
    replace (e + -52) with (e - 52) by lia.
    rewrite round_scale by (rewrite ?Hc; lia).
    rewrite round_spec by (rewrite ?Hc; lia).
    rewrite Hc, Z.sub_diag, rne_zero. unfold normal.
    pose proof (Zdigits2_bounds m) as [_ Hhi].
    assert (Zdigits2 (Zpos m) <= 53) by (rewrite ?fexp_eq in *; lia).
    assert (2 ^ Zdigits2 (Zpos m) <= 2 ^ 53) by (apply Z.pow_le_mono_r; lia).
    destruct (Z.eqb_spec (Zpos m) (2 ^ 53)); [lia |].
    unfold finished. destruct (Z.leb_spec e 971); [reflexivity | lia].
Qed.

(** ** The same, on the primitive doubles *)

Lemma leb_zero x : (0 <=? x)%float = true <-> SFsigned false (Prim2SF x).
Proof.
  rewrite leb_spec. change (Prim2SF 0) with (S754_zero false).
  destruct (Prim2SF x) as [s | s | | s m e]; simpl; try destruct s; unfold SFleb; simpl;
    intuition discriminate.
Qed.

Lemma below_infinity x :
  (x <? infinity)%float = true -> SFsigned false (Prim2SF x) -> SFfinite (Prim2SF x).
Proof.
  rewrite ltb_spec. change (Prim2SF infinity) with (S754_infinity false).
  destruct (Prim2SF x) as [s | s | | s m e]; simpl; try exact (fun _ _ => I).
  - intros H ->. discriminate H.
  - intros _ [].
Qed.

Lemma mul_comm x y : (x * y)%float = (y * x)%float.
Proof. apply Prim2SF_inj. rewrite !mul_spec. apply SFmul_comm. Qed.

Lemma mul_le_compat_r x y z :
  (0 <=? x)%float = true -> (x <=? y)%float = true -> (y <? infinity)%float = true ->
  (0 <=? z)%float = true -> (z <? infinity)%float = true ->
  (x * z <=? y * z)%float = true.
Proof.
  rewrite !leb_zero. intros Sx Hle Fy Sz Fz.
  rewrite leb_spec in Hle. rewrite leb_spec, !mul_spec.
  pose proof (SFleb_signed _ _ Sx Hle) as Sy.
  apply SFmul_le_compat_r; auto using Prim2SF_valid, below_infinity.
Qed.

Lemma mul_le_self d r :
  (0 <=? d)%float = true -> (d <? infinity)%float = true ->
  (0 <=? r)%float = true -> (r <=? 1)%float = true ->
  (d * r <=? d)%float = true.
Proof.
  intros Sd Fd Sr Hr.
  assert (Hone : (1 * d)%float = d).
  { rewrite mul_comm. apply Prim2SF_inj. rewrite mul_spec.
    apply leb_zero in Sd. apply SFmul_one; auto using Prim2SF_valid, below_infinity. }
  rewrite <- Hone at 2. rewrite (mul_comm d r).
  apply mul_le_compat_r; auto.
Qed.

Lemma leb_zero_r x : (x <=? 0)%float = true <-> SFsigned true (Prim2SF x).
Proof.
  rewrite leb_spec. change (Prim2SF 0) with (S754_zero false).
  destruct (Prim2SF x) as [s | s | | s m e]; simpl; try destruct s; unfold SFleb; simpl;
    intuition discriminate.
Qed.

Lemma ltb_zero_r x : (x <? 0)%float = true -> SFsigned true (Prim2SF x).
Proof.
  rewrite ltb_spec. change (Prim2SF 0) with (S754_zero false).
  destruct (Prim2SF x) as [s | s | | s m e]; simpl; try destruct s; unfold SFltb; simpl;
    intuition discriminate.
Qed.

Lemma above_neg_infinity x :
  (neg_infinity <? x)%float = true -> SFsigned true (Prim2SF x) -> SFfinite (Prim2SF x).
Proof.
  rewrite ltb_spec. change (Prim2SF neg_infinity) with (S754_infinity true).
  destruct (Prim2SF x) as [s | s | | s m e]; simpl; try exact (fun _ _ => I).
  - intros H ->. discriminate H.
  - intros _ [].
Qed.

Lemma below_one x :
  (x <? 1)%float = true -> SFsigned false (Prim2SF x) -> SFfinite (Prim2SF x).
Proof.
  rewrite ltb_spec. change (Prim2SF 1) with (S754_finite false 4503599627370496 (-52)).
  destruct (Prim2SF x) as [s | s | | s m e]; simpl; try exact (fun _ _ => I).
  - intros H ->. discriminate H.
  - intros _ [].
Qed.

(** The sign rule of the product, away from [0 * Infinity]. *)
Lemma SFmul_signed sx sy x y :
  SFsigned sx x -> SFsigned sy y ->
  SFfinite x \/ SFsigned sy y /\ (forall s, y <> S754_zero s) ->
  SFfinite y \/ SFsigned sx x /\ (forall s, x <> S754_zero s) ->
  SFsigned (xorb sx sy) (SF64mul x y).
Proof.
  intros Hx Hy Fx Fy.
  destruct x as [s1 | s1 | | s1 mx ex], y as [s2 | s2 | | s2 my ey];
    simpl in *; subst; try exact I; try reflexivity; try contradiction.
  - destruct Fy as [[] | [_ H]]. now destruct (H s1).
  - destruct Fx as [[] | [_ H]]. now destruct (H s2).
  - apply binary_round_aux_signed. lia.
Qed.

(** A product of two finite numbers with sign [sx] and [sy]. *)
Lemma mul_signed sx sy x y :
  SFsigned sx (Prim2SF x) -> SFfinite (Prim2SF x) ->
  SFsigned sy (Prim2SF y) -> SFfinite (Prim2SF y) ->
  SFsigned (xorb sx sy) (Prim2SF (x * y)%float).
Proof.
  intros Hx Fx Hy Fy. rewrite mul_spec. apply SFmul_signed; auto.
Qed.

(** Multiplying by the literal [0.1] keeps the sign, and [NaN] out. *)
Lemma mul_tenth_signed s x :
  SFsigned s (Prim2SF x) -> SFsigned s (Prim2SF (x * tenth)%float).
Proof.
  intros Hx. rewrite mul_spec.
  replace s with (xorb s false) at 1 by now destruct s.
  apply SFmul_signed; auto.
  - vm_compute. reflexivity.
  - right. split; [vm_compute; reflexivity |]. intros s'. vm_compute. discriminate.
  - left. vm_compute. exact I.
Qed.

(** The jitter [d * r * 0.1] for a draw [r] of [Math.random()] has the
    sign of [d] whenever [d] is finite. *)
Lemma jitter_signed s d r :
  SFsigned s (Prim2SF d) -> SFfinite (Prim2SF d) ->
  (0 <=? r)%float = true -> (r <? 1)%float = true ->
  SFsigned s (Prim2SF (d * r * tenth)%float).
Proof.
  intros Hd Fd H0 H1. apply leb_zero in H0.
  apply mul_tenth_signed.
  replace s with (xorb s false) by now destruct s.
  apply mul_signed; auto using below_one.
Qed.

Lemma ltb_leb x y : (x <? y)%float = true -> (x <=? y)%float = true.
Proof.
  rewrite ltb_spec, leb_spec. unfold SFltb, SFleb.
  destruct (SFcompare (Prim2SF x) (Prim2SF y)) as [[]|]; try discriminate; reflexivity.
Qed.

(** For a delay [d] that is a non-negative finite number, the jitter
    [d * r * 0.1] is at most [d * 0.1]: both products in doubles. *)
Lemma jitter_capped d r :
  (0 <=? d)%float = true -> (d <? infinity)%float = true ->
  (0 <=? r)%float = true -> (r <? 1)%float = true ->
  (d * r * tenth <=? d * tenth)%float = true.
Proof.
  intros Sd Fd Sr Hr.
  apply mul_le_compat_r; try reflexivity; try assumption.
  - apply leb_zero. change false with (xorb false false).
    apply leb_zero in Sd, Sr. apply mul_signed; auto using below_infinity, below_one.
  - apply mul_le_self; auto using ltb_leb.
Qed.

(** ** The sum *)

Lemma iter_xO m d : Zpos (Pos.iter xO m d) = Zpos m * 2 ^ Zpos d.
Proof.
  induction d as [|d IH] using Pos.peano_ind.
  - simpl. lia.
  - rewrite Pos.iter_succ, Pos2Z.inj_succ, Z.pow_succ_r by lia.
    change (Zpos (Pos.iter xO m d)~0) with (2 * Zpos (Pos.iter xO m d)). rewrite IH. lia.
Qed.

Lemma shl_align_spec m e e' :
  let '(m', e'') := shl_align m e e' in
  e'' = Z.min e e' /\ Zpos m' = Zpos m * 2 ^ (e - e'').
Proof.
  unfold shl_align. destruct (e' - e) as [|d|d] eqn:Hd.
  - split; [lia |]. rewrite Z.sub_diag. lia.
  - split; [lia |]. rewrite Z.sub_diag. lia.
  - split; [lia |]. rewrite iter_xO. f_equal. f_equal. lia.
Qed.

(** Rounding a positive integer mantissa, as [binary_round] does it. *)
Lemma binary_round_spec m e :
  exists m' e',
    binary_round prec emax false m e = binary_round_aux prec emax false (Zpos m') e' loc_Exact
    /\ e' <= e
    /\ Zpos m' = Zpos m * 2 ^ (e - e')
    /\ 0 <= fexp prec emax (Zdigits2 (Zpos m') + e') - e'
    /\ (-1074 <= e -> -1074 <= e').
Proof.
  unfold binary_round.
  pose proof (shl_align_spec m e (fexp prec emax (Zpos (digits2_pos m) + e))) as H.
  destruct (shl_align m e _) as [m' e'] eqn:Hal. destruct H as [He' Hm'].
  exists m', e'. split; [reflexivity |]. split; [lia |]. split; [exact Hm' |].
  change (Zpos (digits2_pos m)) with (Zdigits2 (Zpos m)) in He'.
  assert (Hd : Zdigits2 (Zpos m') + e' = Zdigits2 (Zpos m) + e).
  { rewrite Hm', Zdigits2_scale by lia. lia. }
  rewrite Hd. split; [lia |]. rewrite ?fexp_eq in *. lia.
Qed.

Lemma round_le_ulps m1 e1 m2 e2 :
  0 < m1 -> 0 < m2 -> -1074 <= e1 -> -1074 <= e2 ->
  0 <= fexp prec emax (Zdigits2 m1 + e1) - e1 ->
  0 <= fexp prec emax (Zdigits2 m2 + e2) - e2 ->
  ulps m1 e1 <= ulps m2 e2 ->
  SFleb (binary_round_aux prec emax false m1 e1 loc_Exact)
        (binary_round_aux prec emax false m2 e2 loc_Exact) = true.
Proof.
  intros H1 H2 He1 He2 Hk1 Hk2 Hle. apply round_le; try assumption.
  unfold ulps in Hle.
  assert (Hp : forall x, Z.min e1 e2 <= x ->
             2 ^ (x + 1074) = 2 ^ (x - Z.min e1 e2) * 2 ^ (Z.min e1 e2 + 1074)).
  { intros x Hx. rewrite <- Z.pow_add_r by lia. f_equal. lia. }
  rewrite (Hp e1), (Hp e2), !Z.mul_assoc in Hle by lia.
  pose proof (pow2_pos (Z.min e1 e2 + 1074) ltac:(lia)).
  now apply Z.mul_le_mono_pos_r in Hle.
Qed.

Lemma bounded_emin m e : bounded prec emax m e = true -> -1074 <= e.
Proof. intros H. apply bounded_facts in H as [H _]. rewrite ?fexp_eq in *. lia. Qed.

Lemma ulps_pos m e : -1074 <= e -> 0 < ulps (Zpos m) e.
Proof.
  intros He. unfold ulps. pose proof (pow2_pos (e + 1074) ltac:(lia)). nia.
Qed.

Lemma SFleb_ulps x y :
  valid_binary x = true -> valid_binary y = true ->
  SFsigned false x -> SFfinite x -> SFsigned false y -> SFfinite y ->
  SFleb x y = true -> SFulps x <= SFulps y.
Proof.
  intros Vx Vy Sx Fx Sy Fy Hle.
  destruct x as [sx | sx | | sx mx ex]; try contradiction;
    destruct y as [sy | sy | | sy my ey]; try contradiction;
    simpl in Sx, Sy; subst; cbn [SFulps]; try lia.
  - simpl in Vy. pose proof (ulps_pos my ey (bounded_emin _ _ Vy)). lia.
  - discriminate Hle.
  - simpl in Vx, Vy.
    pose proof (SFleb_value mx ex my ey Vx Vy Hle) as Hv.
    pose proof (bounded_emin _ _ Vx). pose proof (bounded_emin _ _ Vy).
    unfold ulps.
    assert (Hp : forall x, Z.min ex ey <= x ->
               2 ^ (x + 1074) = 2 ^ (x - Z.min ex ey) * 2 ^ (Z.min ex ey + 1074)).
    { intros x Hx. rewrite <- Z.pow_add_r by lia. f_equal. lia. }
    rewrite (Hp ex), (Hp ey), !Z.mul_assoc by lia.
    pose proof (pow2_pos (Z.min ex ey + 1074) ltac:(lia)).
    now apply Z.mul_le_mono_pos_r.
Qed.

(** Rounding a double gives it back. *)
Lemma round_exact m e :
  bounded prec emax m e = true ->
  binary_round_aux prec emax false (Zpos m) e loc_Exact = S754_finite false m e.
Proof.
  intros V. apply bounded_facts in V as [Hc He].
  rewrite round_spec by (rewrite ?Hc; lia).
  rewrite Hc, Z.sub_diag, rne_zero. unfold normal.
  pose proof (Zdigits2_bounds m) as [_ Hhi].
  assert (Zdigits2 (Zpos m) <= 53) by (rewrite ?fexp_eq in *; lia).
  assert (2 ^ Zdigits2 (Zpos m) <= 2 ^ 53) by (apply Z.pow_le_mono_r; lia).
  destruct (Z.eqb_spec (Zpos m) (2 ^ 53)); [lia |].
  unfold finished. destruct (Z.leb_spec e 971); [reflexivity | lia].
Qed.

(** A non-negative finite double is a zero or the rounding of its own
    value. *)
Lemma SFrounded x :
  valid_binary x = true -> SFsigned false x -> SFfinite x ->
  (SFulps x = 0 /\ exists s, x = S754_zero s)
  \/ exists m e,
       x = binary_round_aux prec emax false (Zpos m) e loc_Exact
       /\ -1074 <= e
       /\ 0 <= fexp prec emax (Zdigits2 (Zpos m) + e) - e
       /\ ulps (Zpos m) e = SFulps x.
Proof.
  intros V S F. destruct x as [s | s | | s m e]; try contradiction.
  - left. split; [reflexivity | eauto].
  - right. simpl in S, V. subst s. exists m, e.
    pose proof (bounded_emin _ _ V). pose proof (bounded_facts _ _ V) as [Hc _].
    split; [symmetry; now apply round_exact |]. split; [assumption |].
    split; [rewrite Hc; lia | reflexivity].
Qed.

(** The sum of two non-negative finite doubles is a zero or the rounding
    of the sum of their values. *)
Lemma SFadd_spec x y :
  valid_binary x = true -> valid_binary y = true ->
  SFsigned false x -> SFfinite x -> SFsigned false y -> SFfinite y ->
  (SFulps x + SFulps y = 0 /\ exists s, SF64add x y = S754_zero s)
  \/ exists m e,
       SF64add x y = binary_round_aux prec emax false (Zpos m) e loc_Exact
       /\ -1074 <= e
       /\ 0 <= fexp prec emax (Zdigits2 (Zpos m) + e) - e
       /\ ulps (Zpos m) e = SFulps x + SFulps y.
Proof.
  intros Vx Vy Sx Fx Sy Fy.
  destruct x as [sx | sx | | sx mx ex]; try contradiction;
    destruct y as [sy | sy | | sy my ey]; try contradiction.
  - left. split; [reflexivity |]. simpl. destruct sx, sy; eauto.
  - destruct (SFrounded _ Vy Sy Fy) as [(_ & s & [=]) | (m & e & H)].
    right. exists m, e. exact H.
  - destruct (SFrounded _ Vx Sx Fx) as [(_ & s & [=]) | (m & e & H1 & H2 & H3 & H4)].
    right. exists m, e. cbn [SF64add SFadd]. repeat split; try assumption.
    rewrite H4. simpl. lia.
  - simpl in Sx, Sy, Vx, Vy. subst. right.
    pose proof (bounded_emin _ _ Vx). pose proof (bounded_emin _ _ Vy).
    cbn [SF64add SFadd cond_Zopp]. set (ez := Z.min ex ey).
    pose proof (shl_align_spec mx ex ez) as Hx.
    pose proof (shl_align_spec my ey ez) as Hy.
    destruct (shl_align mx ex ez) as [ax ex']. destruct (shl_align my ey ez) as [ay ey'].
    destruct Hx as [Hex Hax], Hy as [Hey Hay]. cbn [fst].
    change (Zpos ax + Zpos ay) with (Zpos (ax + ay)). cbn [binary_normalize].
    destruct (binary_round_spec (ax + ay) ez) as (m & e & Hr & Hle & Hm & Hk & Hmin).
    exists m, e. split; [exact Hr |]. split; [apply Hmin; lia |]. split; [exact Hk |].
    unfold SFulps, ulps. rewrite Hm, Pos2Z.inj_add, Hax, Hay.
    replace ex' with ez in * by lia. replace ey' with ez in * by lia.
    assert (He : -1074 <= e) by (apply Hmin; lia).
    assert (Hp : forall x, ez <= x ->
               2 ^ (x + 1074) = 2 ^ (x - ez) * (2 ^ (ez - e) * 2 ^ (e + 1074))).
    { intros x Hx. rewrite <- !Z.pow_add_r by lia. f_equal. lia. }
    rewrite (Hp ex), (Hp ey) by lia. ring.
Qed.


(** Two numbers given as zeros or roundings compare as their values do. *)
Lemma rounded_le x y ux uy :
  (ux = 0 /\ (exists s, x = S754_zero s)
   \/ exists m e,
        x = binary_round_aux prec emax false (Zpos m) e loc_Exact
        /\ -1074 <= e
        /\ 0 <= fexp prec emax (Zdigits2 (Zpos m) + e) - e
        /\ ulps (Zpos m) e = ux) ->
  (uy = 0 /\ (exists s, y = S754_zero s)
   \/ exists m e,
        y = binary_round_aux prec emax false (Zpos m) e loc_Exact
        /\ -1074 <= e
        /\ 0 <= fexp prec emax (Zdigits2 (Zpos m) + e) - e
        /\ ulps (Zpos m) e = uy) ->
  ux <= uy -> SFleb x y = true.
Proof.
  intros [(Hux & sx & ->) | (mx & ex & -> & Hex & Hkx & Hvx)]
         [(Huy & sy & ->) | (my & ey & -> & Hey & Hky & Hvy)] Hle.
  - reflexivity.
  - apply SFleb_zero_signed, binary_round_aux_signed. lia.
  - pose proof (ulps_pos mx ex Hex). lia.
  - apply round_le_ulps; try lia.
Qed.

Lemma SFadd_le_compat x x' y y' :
  valid_binary x = true -> valid_binary x' = true ->
  valid_binary y = true -> valid_binary y' = true ->
  SFsigned false x -> SFsigned false y -> SFfinite x' -> SFfinite y' ->
  SFleb x x' = true -> SFleb y y' = true ->
  SFleb (SF64add x y) (SF64add x' y') = true.
Proof.
  intros Vx Vx' Vy Vy' Sx Sy Fx' Fy' Hx Hy.
  pose proof (SFleb_signed _ _ Sx Hx) as Sx'.
  pose proof (SFleb_signed _ _ Sy Hy) as Sy'.
  pose proof (SFleb_finite_l _ _ Sx Fx' Hx) as Fx.
  pose proof (SFleb_finite_l _ _ Sy Fy' Hy) as Fy.
  pose proof (SFleb_ulps _ _ Vx Vx' Sx Fx Sx' Fx' Hx).
  pose proof (SFleb_ulps _ _ Vy Vy' Sy Fy Sy' Fy' Hy).
  eapply rounded_le; [apply SFadd_spec | apply SFadd_spec |]; auto. lia.
Qed.

Lemma SFleb_add_l x y :
  valid_binary x = true -> valid_binary y = true ->
  SFsigned false x -> SFfinite x -> SFsigned false y -> SFfinite y ->
  SFleb x (SF64add x y) = true.
Proof.
  intros Vx Vy Sx Fx Sy Fy.
  eapply rounded_le; [apply SFrounded | apply SFadd_spec |]; auto.
  assert (0 <= SFulps y).
  { destruct y as [s | s | | [] m e]; cbn [SFulps]; try lia.
    simpl in Vy. pose proof (ulps_pos m e (bounded_emin _ _ Vy)). lia. }
  lia.
Qed.

Lemma SFleb_trans x y z :
  valid_binary x = true -> valid_binary y = true -> valid_binary z = true ->
  SFsigned false x -> SFfinite z ->
  SFleb x y = true -> SFleb y z = true -> SFleb x z = true.
Proof.
  intros Vx Vy Vz Sx Fz Hxy Hyz.
  pose proof (SFleb_signed _ _ Sx Hxy) as Sy.
  pose proof (SFleb_signed _ _ Sy Hyz) as Sz.
  pose proof (SFleb_finite_l _ _ Sy Fz Hyz) as Fy.
  pose proof (SFleb_finite_l _ _ Sx Fy Hxy) as Fx.
  pose proof (SFleb_ulps _ _ Vx Vy Sx Fx Sy Fy Hxy).
  pose proof (SFleb_ulps _ _ Vy Vz Sy Fy Sz Fz Hyz).
  eapply rounded_le; [apply SFrounded | apply SFrounded |]; auto. lia.
Qed.

(** On the primitive doubles. *)
Lemma add_le_compat x x' y y' :
  (0 <=? x)%float = true -> (0 <=? y)%float = true ->
  (x <=? x')%float = true -> (y <=? y')%float = true ->
  (x' <? infinity)%float = true -> (y' <? infinity)%float = true ->
  (x + y <=? x' + y')%float = true.
Proof.
  rewrite !leb_zero. intros Sx Sy Hx Hy Fx' Fy'.
  rewrite leb_spec in Hx, Hy. rewrite leb_spec, !add_spec.
  pose proof (SFleb_signed _ _ Sx Hx). pose proof (SFleb_signed _ _ Sy Hy).
  apply SFadd_le_compat; auto using Prim2SF_valid, below_infinity.
Qed.

Lemma le_add_l x y :
  (0 <=? x)%float = true -> (x <? infinity)%float = true ->
  (0 <=? y)%float = true -> (y <? infinity)%float = true ->
  (x <=? x + y)%float = true.
Proof.
  rewrite !leb_zero. intros Sx Fx Sy Fy. rewrite leb_spec, add_spec.
  apply SFleb_add_l; auto using Prim2SF_valid, below_infinity.
Qed.

Lemma leb_trans x y z :
  (0 <=? x)%float = true -> (x <=? y)%float = true -> (y <=? z)%float = true ->
  (z <? infinity)%float = true -> (x <=? z)%float = true.
Proof.
  rewrite !leb_zero. intros Sx Hxy Hyz Fz. rewrite leb_spec in *.
  pose proof (SFleb_signed _ _ Sx Hxy) as Sy. pose proof (SFleb_signed _ _ Sy Hyz) as Sz.
  eapply SFleb_trans; eauto using Prim2SF_valid, below_infinity.
Qed.

(** [Math.min]: a result that is a number is at most the second argument. *)
Lemma SFcompare_swap x y :
  SFcompare y x = match SFcompare x y with Some c => Some (CompOpp c) | None => None end.
Proof.
  destruct x as [sx | sx | | sx mx ex], y as [sy | sy | | sy my ey]; simpl;
    try reflexivity; try (destruct sx; reflexivity); try (destruct sy; reflexivity);
    try (destruct sx, sy; reflexivity).
  destruct sx, sy; try reflexivity; rewrite (Z.compare_antisym ex ey);
    destruct (ex ?= ey); simpl; try reflexivity;
    change (Pos.compare_cont Eq my mx) with (my ?= mx)%positive;
    change (Pos.compare_cont Eq mx my) with (mx ?= my)%positive;
    rewrite (Pos.compare_antisym mx my); destruct (mx ?= my)%positive; reflexivity.
Qed.

Lemma Math_min_le_r a b :
  (0 <=? Math_min a b)%float = true -> (Math_min a b <=? b)%float = true.
Proof.
  unfold Math_min.
  destruct (is_nan a || is_nan b) eqn:Hnan; [discriminate |].
  apply orb_false_elim in Hnan as [Ha Hb]. unfold is_nan in Ha, Hb.
  apply negb_false_iff in Ha, Hb. rewrite FloatAxioms.eqb_spec in Ha, Hb. intros _.
  destruct (a <? b)%float eqn:Hab; [now apply ltb_leb |].
  assert (Hbb : (b <=? b)%float = true).
  { rewrite leb_spec. unfold SFeqb, SFleb in *.
    destruct (SFcompare (Prim2SF b) (Prim2SF b)) as [[]|]; try discriminate; reflexivity. }
  destruct (b <? a)%float eqn:Hba; [exact Hbb |].
  assert (Hle : (a <=? b)%float = true).
  { rewrite ltb_spec in Hab, Hba. rewrite leb_spec.
    unfold SFltb, SFleb, SFeqb in *. rewrite (SFcompare_swap (Prim2SF a) (Prim2SF b)) in Hba.
    destruct (SFcompare (Prim2SF a) (Prim2SF b)) as [[]|] eqn:Hc; try discriminate;
      try reflexivity.
    (* incomparable: one of them is NaN *)
    destruct (Prim2SF a) as [sa | sa | | sa ma ea], (Prim2SF b) as [sb | sb | | sb mb eb];
      simpl in *; try discriminate; try (destruct sa; discriminate);
      try (destruct sb; discriminate); try (destruct sa, sb; discriminate). }
  destruct (get_sign a); assumption.
Qed.

Lemma leb_finite x y :
  (0 <=? x)%float = true -> (x <=? y)%float = true -> (y <? infinity)%float = true ->
  (x <? infinity)%float = true.
Proof.
  rewrite leb_zero. intros Sx Hle Fy. rewrite leb_spec in Hle.
  pose proof (SFleb_signed _ _ Sx Hle) as Sy.
  pose proof (SFleb_finite_l _ _ Sx (below_infinity _ Fy Sy) Hle) as Fx.
  rewrite ltb_spec. change (Prim2SF infinity) with (S754_infinity false).
  destruct (Prim2SF x) as [s | s | | s m e]; simpl in *; try contradiction; subst;
    reflexivity.
Qed.

Lemma leb_refl x : (0 <=? x)%float = true -> (x <=? x)%float = true.
Proof.
  rewrite leb_zero, leb_spec.
  destruct (Prim2SF x) as [s | s | | s m e]; simpl; intros H; subst;
    try contradiction; try reflexivity.
  unfold SFleb, SFcompare. rewrite Z.compare_refl.
  change (Pos.compare_cont Eq m m) with (m ?= m)%positive. now rewrite Pos.compare_refl.
Qed.

(** A wait [d + d * r * 0.1], for a capped delay [d] that is a
    non-negative number and a cap [M] that is finite: between [d] and
    [M + M * 0.1], all in doubles. *)
Lemma wait_bounds d r M :
  (0 <=? d)%float = true -> (d <=? M)%float = true -> (M <? infinity)%float = true ->
  (0 <=? r)%float = true -> (r <? 1)%float = true ->
  (d <=? d + d * r * tenth)%float = true
  /\ (d + d * r * tenth <=? M + M * tenth)%float = true.
Proof.
  intros Sd Hcap FM Sr Hr.
  assert (Fd : (d <? infinity)%float = true) by (apply (leb_finite d M); assumption).
  assert (SM : (0 <=? M)%float = true).
  { apply leb_zero. apply leb_zero in Sd. rewrite leb_spec in Hcap.
    exact (SFleb_signed _ _ Sd Hcap). }
  assert (Hten : forall x, (0 <=? x)%float = true -> (x <? infinity)%float = true ->
                           (0 <=? x * tenth)%float = true
                           /\ (x * tenth <? infinity)%float = true).
  { intros x Sx Fx.
    assert (S' : (0 <=? x * tenth)%float = true).
    { apply leb_zero. apply leb_zero in Sx. now apply mul_tenth_signed. }
    split; [exact S' |]. apply (leb_finite _ x); [exact S' | | exact Fx].
    apply mul_le_self; auto; reflexivity. }
  destruct (Hten d Sd Fd) as [Sdt Fdt]. destruct (Hten M SM FM) as [SMt FMt].
  assert (Sj : (0 <=? d * r * tenth)%float = true).
  { apply leb_zero. apply leb_zero in Sd.
    apply jitter_signed; auto using below_infinity. }
  assert (Hj : (d * r * tenth <=? d * tenth)%float = true) by now apply jitter_capped.
  assert (Fj : (d * r * tenth <? infinity)%float = true)
    by (apply (leb_finite _ (d * tenth)%float); assumption).
  split.
  - apply le_add_l; assumption.
  - apply add_le_compat; try assumption.
    apply (leb_trans _ (d * tenth)%float); try assumption.
    apply mul_le_compat_r; try assumption; reflexivity.
Qed.

End DoubleFacts.

(* ================================================================== *)
(** * Properties of the retry helper *)
(* ================================================================== *)

Module RetryFacts.

Import Double Retry DoubleFacts.
Local Open Scope Z_scope.

Section Backoff.

Variables A E : Type.
Variable fn : nat -> Outcome A E.
Variable pow : float -> Z -> float.
Variable random : nat -> float.
Variable o : Options E.

(** The loop is entered with enough fuel for every remaining attempt. *)
Lemma backoffLoop_total fuel attempt lastError ncalls slept :
  maxAttempts o < attempt + Z.of_nat fuel ->
  exists run, backoffLoop fn pow random o fuel attempt lastError ncalls slept = Some run.
Proof.
  revert attempt lastError ncalls slept.
  induction fuel as [|fuel IH]; intros attempt lastError ncalls slept Hfuel; simpl.
  - destruct (Z.leb_spec attempt (maxAttempts o)); [lia | eauto].
  - destruct (Z.leb_spec attempt (maxAttempts o)); [| eauto].
    destruct (fn (S ncalls)); [eauto |].
    destruct (_ || _); [eauto |].
    apply IH. lia.
Qed.

Lemma exponentialBackoff_total :
  exists run, exponentialBackoff fn pow random o = Some run.
Proof. apply backoffLoop_total. lia. Qed.

(** Every wait is the one computed from the attempt that just failed:
    the [k]-th wait, counting from 0, follows attempt [k + 1]. *)
Lemma backoffLoop_sleeps fuel attempt lastError ncalls slept run :
  backoffLoop fn pow random o fuel attempt lastError ncalls slept = Some run ->
  attempt = Z.of_nat ncalls + 1 ->
  List.length slept = ncalls ->
  (forall k, (k < ncalls)%nat ->
     nth_error slept k = Some (actualDelay pow o (Z.of_nat k + 1) (random k))) ->
  forall k, (S k < calls run)%nat ->
    nth_error (sleeps run) k = Some (actualDelay pow o (Z.of_nat k + 1) (random k)).
Proof.
  revert attempt lastError ncalls slept.
  induction fuel as [|fuel IH]; intros attempt lastError ncalls slept Hrun Hatt Hlen Hpre;
    simpl in Hrun.
  - destruct (attempt <=? maxAttempts o); [discriminate |].
    injection Hrun as <-. simpl. intros k Hk. apply Hpre. lia.
  - destruct (attempt <=? maxAttempts o).
    2:{ injection Hrun as <-. simpl. intros k Hk. apply Hpre. lia. }
    destruct (fn (S ncalls)).
    { injection Hrun as <-. simpl. intros k Hk. apply Hpre. lia. }
    destruct (_ || _).
    { injection Hrun as <-. simpl. intros k Hk. apply Hpre. lia. }
    eapply IH; [exact Hrun | lia | rewrite length_app; simpl; lia |].
    intros k Hk. destruct (Nat.eq_dec k ncalls) as [-> | Hne].
    + rewrite nth_error_app2 by lia. rewrite Hlen, Nat.sub_diag. simpl.
      now rewrite Hatt.
    + rewrite nth_error_app1 by lia. apply Hpre. lia.
Qed.



(** C8 (as the code has it). While attempts remain
    ([1 <= n < maxAttempts]), the wait slept between attempt [n] and
    attempt [n + 1] is, in double arithmetic, the capped delay
    [d = Math.min(baseDelay * Math.pow(multiplier, n - 1), maxDelay)]
    plus the jitter [d * Math.random() * 0.1]. When [d] is a non-negative
    finite number the jitter lies between 0 and [d * 0.1], the tenth of
    the delay as doubles compute it, and the wait between [d] and
    [d + d * 0.1]: jitter is added. When [d] is negative the jitter is
    at most 0: it is subtracted. [Math.random()] draws from [0, 1). *)
Theorem backoff_delay_before_next_attempt (n : Z) :
  (forall k, (0 <=? random k)%float = true /\ (random k <? 1)%float = true) ->
  1 <= n < maxAttempts o ->
  exists run,
    exponentialBackoff fn pow random o = Some run /\
    ((Z.to_nat n < calls run)%nat ->
     exists d jit : float,
       d = Math_min (baseDelay o * Math_pow pow (backoffMultiplier o) (n - 1))%float
                    (maxDelay o)
       /\ jit = (d * random (Z.to_nat (n - 1)) * 0.1)%float
       /\ nth_error (sleeps run) (Z.to_nat (n - 1)) = Some (d + jit)%float
       /\ ((0 <=? d)%float = true -> (d <? infinity)%float = true ->
           (0 <=? jit)%float = true /\ (jit <=? d * 0.1)%float = true
           /\ (d <=? d + jit)%float = true
           /\ (d + jit <=? d + d * 0.1)%float = true)
       /\ ((d <? 0)%float = true -> (neg_infinity <? d)%float = true ->
           (jit <=? 0)%float = true)).
Proof.
  intros Hr Hn.
  destruct exponentialBackoff_total as [run Hrun].
  exists run. split; [exact Hrun |]. intros Hcalls.
  exists (delay pow o n), (jitter pow o n (random (Z.to_nat (n - 1)))).
  split; [reflexivity |]. split; [reflexivity |].
  pose proof (@backoffLoop_sleeps _ 1 None 0%nat [] run Hrun eq_refl eq_refl) as Hs.
  specialize (Hs ltac:(intros k Hk; lia) (Z.to_nat (n - 1))).
  rewrite Hs by lia.
  replace (Z.of_nat (Z.to_nat (n - 1)) + 1) with n by lia.
  split; [reflexivity |].
  destruct (Hr (Z.to_nat (n - 1))) as [H0 H1]. unfold jitter. split.
  - intros Hd Hfin. split; [| split; [now apply jitter_capped |]].
    + apply leb_zero in Hd. apply leb_zero.
      apply jitter_signed; auto using below_infinity.
    + apply wait_bounds; auto using leb_refl.
  - intros Hd Hfin. apply ltb_zero_r in Hd. apply leb_zero_r.
    apply jitter_signed; auto using above_neg_infinity.
Qed.


End Backoff.

Section Simple.

Variables A E : Type.
Variable fn : nat -> Outcome A E.

(** C10. With [attempts <= 0] the loop body never runs: the operation is
    not invoked, nothing is slept, and what is thrown is the initial
    [null] of [lastError]. *)
Theorem simpleRetry_nonpositive_throws_null (attempts : Z) (delayMs : float) :
  attempts <= 0 ->
  simpleRetry fn attempts delayMs = Some (mkRun (Threw None) 0 []).
Proof.
  intros H. unfold simpleRetry.
  destruct (Z.to_nat attempts); simpl;
    destruct (Z.ltb_spec 0 attempts); (lia || reflexivity).
Qed.

Lemma simpleRetry_total (attempts : Z) (delayMs : float) fuel i lastError ncalls slept :
  attempts < i + Z.of_nat fuel + 1 ->
  exists run, simpleLoop fn attempts delayMs fuel i lastError ncalls slept = Some run.
Proof.
  revert i lastError ncalls slept.
  induction fuel as [|fuel IH]; intros i lastError ncalls slept Hfuel; simpl.
  - destruct (Z.ltb_spec i attempts); [lia | eauto].
  - destruct (Z.ltb_spec i attempts); [| eauto].
    destruct (fn (S ncalls)); [eauto |]. apply IH. lia.
Qed.

End Simple.

(** The scenario run: two 503s, then success on the third call, after
    waits of 100 and 200 ms each lengthened by 5%. *)
Example scenario_run :
  exponentialBackoff (flaky 2) exactPow half scenario
  = Some (mkRun (Returned tt) 3 [105%float; 210%float]).
Proof. reflexivity. Qed.

(** A rejection the predicate refuses ends the run at once: one call, no
    wait, that error rethrown. *)
Example refused_error_is_not_retried :
  exponentialBackoff (fun _ => Rejected 404) exactPow half onlyServerErrors
  = Some (mkRun (A := unit) (Threw (Some 404)) 1 []).
Proof. reflexivity. Qed.

Example simpleRetry_three_failures :
  simpleRetry alwaysFails 3 1000%float
  = Some (mkRun (Threw (Some 503)) 3 [1000%float; 1000%float]).
Proof. reflexivity. Qed.

(** With a negative [baseDelay] the capped delay before the second
    attempt is -1000 and the jitter -50: the helper waits -1050, jitter
    subtracted. And with a delay of 1 and a draw just below 1, the wait
    comes out as the double 1.1, which is more than 1 plus one tenth:
    the sum is rounded upwards. *)
Lemma jitter_subtracted_or_rounded_up :
  (exists run,
      exponentialBackoff (flaky 1) exactPow half negativeBase = Some run
      /\ calls run = 2%nat
      /\ delay exactPow negativeBase 1 = (-1000)%float
      /\ jitter exactPow negativeBase 1 (half 0) = (-50)%float
      /\ sleeps run = [(-1050)%float])
  /\ (exists run,
         exponentialBackoff (flaky 1) exactPow almostOne oneMillisecond = Some run
         /\ calls run = 2%nat
         /\ delay exactPow oneMillisecond 1 = 1%float
         /\ sleeps run = [0x1.199999999999ap+0%float]
         /\ Prim2SF 0x1.199999999999ap+0%float = S754_finite false 4953959590107546 (-52)
         /\ 10 * 4953959590107546 > 11 * 2 ^ 52).
Proof.
  split; eexists; repeat split.
Qed.

Lemma backoff_delay_before_next_attempt_witness :
  exists run d jit,
    exponentialBackoff (flaky 2) exactPow half scenario = Some run
    /\ calls run = 3%nat
    /\ d = 200%float
    /\ jit = 10%float
    /\ nth_error (sleeps run) (Z.to_nat (2 - 1)) = Some (d + jit)%float
    /\ (0 <=? jit)%float = true
    /\ (jit <=? d * 0.1)%float = true
    /\ (d <=? d + jit)%float = true
    /\ (d + jit <=? d + d * 0.1)%float = true.
Proof.
  destruct (@backoff_delay_before_next_attempt unit Z (flaky 2) exactPow half scenario 2)
    as (run & Hrun & Hsleep).
  - intros k. split; reflexivity.
  - simpl. lia.
  - assert (Hcalls : calls run = 3%nat).
    { vm_compute in Hrun. injection Hrun as <-. reflexivity. }
    destruct Hsleep as (d & jit & Hd & Hjit & Hnth & Hadd & _).
    + rewrite Hcalls. simpl. lia.
    + exists run, d, jit.
      assert (Hd' : d = 200%float) by (rewrite Hd; reflexivity).
      split; [exact Hrun |]. split; [exact Hcalls |]. split; [exact Hd' |].
      split; [rewrite Hjit, Hd'; reflexivity |]. split; [exact Hnth |].
      apply Hadd; rewrite Hd'; reflexivity.
Defined.


Lemma simpleRetry_nonpositive_throws_null_witness :
  simpleRetry alwaysFails 0 1000%float = Some (mkRun (Threw None) 0 []).
Proof.
  apply (@simpleRetry_nonpositive_throws_null unit Z alwaysFails 0 1000%float). lia.
Defined.

End RetryFacts.

(* ================================================================== *)
(** * Properties of the server locator *)
(* ================================================================== *)

Module LocatorFacts.

Import Locator.
Local Open Scope string_scope.
Local Open Scope Z_scope.

Section Probing.

Variable W : Type.
Variable probe : string -> Z -> W -> Health * W.

Lemma detectLoop_probes_extend urls made w :
  exists more, probes (fst (detectLoop probe urls made w)) = (made ++ more)%list.
Proof.
  revert made w. induction urls as [|u rest IH]; intros made w; simpl.
  - exists []. now rewrite app_nil_r.
  - destruct (probe u 2000 w) as [h w']. destruct (answers h); simpl.
    + now exists [(u, h)].
    + destruct (IH (made ++ [(u, h)])%list w') as [more Hmore].
      exists ((u, h) :: more). rewrite Hmore, <- app_assoc. reflexivity.
Qed.

Lemma detectLoop_all_fail urls made w :
  Forall failed (probes (fst (detectLoop probe urls made w))) ->
  resolution (fst (detectLoop probe urls made w))
    = mkResolution "http://localhost:3001" "disconnected".
Proof.
  revert made w. induction urls as [|u rest IH]; intros made w; simpl.
  - reflexivity.
  - destruct (probe u 2000 w) as [h w'] eqn:Hp.
    destruct (answers h) eqn:Hans; simpl.
    + intros Hall. apply Forall_app in Hall as [_ Hlast].
      inversion Hlast as [|? ? Hu _]; subst. unfold failed in Hu. simpl in Hu.
      congruence.
    + apply IH.
Qed.

Lemma detectBest_all_fail now onLine st w :
  Forall failed (probes (fst (fst (detectBest probe now onLine st w)))) ->
  fst (detectBest probe now onLine st w)
    = (mkProbed (mkResolution (localhostUrl (SERVER_URLS st)) "localhost")
                (probes (fst (fst (detectBest probe now onLine st w)))),
       mkState (SERVER_URLS st) (Some localhost) now).
Proof.
  unfold detectBest, isServerAvailable, remember.
  destruct (probe (localhostUrl (SERVER_URLS st)) 2000 w) as [h1 w1].
  destruct (answers h1) eqn:H1; simpl.
  { intros Hall. inversion Hall as [|? ? Hu _]; subst. unfold failed in Hu.
    simpl in Hu. congruence. }
  destruct (negb (localUrl (SERVER_URLS st) =? localhostUrl (SERVER_URLS st))%string).
  - destruct (probe (localUrl (SERVER_URLS st)) 2000 w1) as [h2 w2].
    destruct (answers h2) eqn:H2; simpl.
    { intros Hall. inversion Hall as [|? ? _ Hrest]; subst.
      inversion Hrest as [|? ? Hu _]; subst. unfold failed in Hu. simpl in Hu.
      congruence. }
    destruct (onLine && negb (cloudUrl (SERVER_URLS st) =? localhostUrl (SERVER_URLS st))%string).
    + destruct (probe (cloudUrl (SERVER_URLS st)) 3000 w2) as [h3 w3].
      destruct (answers h3) eqn:H3; simpl; [| reflexivity].
      intros Hall. inversion Hall as [|? ? _ Hrest]; subst.
      inversion Hrest as [|? ? _ Hrest']; subst.
      inversion Hrest' as [|? ? Hu _]; subst. unfold failed in Hu. simpl in Hu.
      congruence.
    + reflexivity.
  - destruct (onLine && negb (cloudUrl (SERVER_URLS st) =? localhostUrl (SERVER_URLS st))%string).
    + destruct (probe (cloudUrl (SERVER_URLS st)) 3000 w1) as [h3 w3].
      destruct (answers h3) eqn:H3; simpl; [| reflexivity].
      intros Hall. inversion Hall as [|? ? _ Hrest]; subst.
      inversion Hrest as [|? ? Hu _]; subst. unfold failed in Hu. simpl in Hu.
      congruence.
    + reflexivity.
Qed.

(** C1 (as the code has it). When every health probe of a run fails:
    [detectServerUrl] resolves to the localhost URL with mode
    ['disconnected']; [getServerUrl], on a cache miss, resolves to its
    configured localhost URL with mode ['localhost'] and caches that
    choice. *)
Theorem all_probes_fail_fallback
        (VITE_BACKEND_URL : option string) (now : Z) (onLine : bool)
        (st : State) (w : W) :
  (Forall failed (probes (fst (detectServerUrl probe VITE_BACKEND_URL w))) ->
   resolution (fst (detectServerUrl probe VITE_BACKEND_URL w))
     = mkResolution "http://localhost:3001" "disconnected")
  /\
  (cachedMode st = None \/ CACHE_DURATION <= now - lastCheck st ->
   Forall failed (probes (fst (fst (getServerUrl probe now onLine st w)))) ->
   resolution (fst (fst (getServerUrl probe now onLine st w)))
     = mkResolution (localhostUrl (SERVER_URLS st)) "localhost"
   /\ snd (fst (getServerUrl probe now onLine st w))
     = mkState (SERVER_URLS st) (Some localhost) now).
Proof.
  split.
  - apply detectLoop_all_fail.
  - intros Hmiss.
    assert (Hget : getServerUrl probe now onLine st w = detectBest probe now onLine st w).
    { unfold getServerUrl. destruct (cachedMode st) as [m|]; [| reflexivity].
      destruct Hmiss as [Hm | Hold]; [discriminate |].
      destruct (Z.ltb_spec (now - lastCheck st) CACHE_DURATION); [lia | reflexivity]. }
    rewrite Hget. intros Hall.
    rewrite (detectBest_all_fail _ _ _ _ Hall). simpl. split; reflexivity.
Qed.

End Probing.

(** With nothing reachable, [getServerUrl] reports mode ['localhost'],
    not ['disconnected']. *)
Lemma getServerUrl_all_fail_not_disconnected :
  let r := fst (fst (getServerUrl deadNetwork 1000000 true
                                   (mkState deployedUrls None 0) tt)) in
  probes r = [ ("http://localhost:3001", Unreachable);
               ("http://192.168.1.50:3001", Unreachable);
               ("https://pos.example-cloud.com", Unreachable) ]
  /\ Forall failed (probes r)
  /\ resolution r = mkResolution "http://localhost:3001" "localhost"
  /\ resolution r <> mkResolution "http://localhost:3001" "disconnected".
Proof.
  cbv zeta. split; [reflexivity |]. split; [| split].
  - repeat constructor.
  - reflexivity.
  - discriminate.
Qed.

Lemma all_probes_fail_fallback_witness :
  resolution (fst (detectServerUrl deadNetwork None tt))
    = mkResolution "http://localhost:3001" "disconnected"
  /\ resolution (fst (fst (getServerUrl deadNetwork 1000000 true
                                       (mkState deployedUrls None 0) tt)))
    = mkResolution (localhostUrl deployedUrls) "localhost".
Proof.
  pose proof (@all_probes_fail_fallback unit deadNetwork None 1000000 true
                (mkState deployedUrls None 0) tt) as [Hdetect Hget].
  split.
  - apply Hdetect. vm_compute. repeat constructor.
  - apply Hget.
    + left. reflexivity.
    + vm_compute. repeat constructor.
Defined.

(** A resolution that succeeds: the LAN server answers, localhost does not. *)
Example getServerUrl_lan :
  fst (getServerUrl (onlyServer "http://192.168.1.50:3001") 1000000 true
                    (mkState deployedUrls None 0) tt)
  = (mkProbed (mkResolution "http://192.168.1.50:3001" "local")
              [ ("http://localhost:3001", Unreachable);
                ("http://192.168.1.50:3001", Healthy) ],
     mkState deployedUrls (Some local) 1000000).
Proof. reflexivity. Qed.

Example modeOfUrl_examples :
  modeOfUrl "http://10.0.0.1:3001" = "local"
  /\ modeOfUrl "https://pos-backend.herokuapp.com" = "online"
  /\ modeOfUrl "http://127.0.0.1:5000" = "localhost".
Proof. repeat split. Qed.

Example detectServerUrl_lan :
  resolution (fst (detectServerUrl (onlyServer "http://192.168.0.1:3001") None tt))
  = mkResolution "http://192.168.0.1:3001" "local".
Proof. reflexivity. Qed.

End LocatorFacts.

(* ================================================================== *)
(** * Properties of the order cache *)
(* ================================================================== *)

Module StoreFacts.

Import Js Store.
Local Open Scope Z_scope.

Example toString_examples :
  toString (JNum 42) = "42"%string /\ toString (JNum (-7)) = "-7"%string
  /\ toString JUndefined = "undefined"%string
  /\ strictEq (JNum 2) (JStr "2") = false
  /\ String.eqb (toString (JNum 2)) (toString (JStr "2")) = true.
Proof. repeat split. Qed.

(** Beyond [2^53] the digits are the shortest that identify the double,
    and beyond 21 digits the exponent is written out. *)
Example toString_large :
  toString (JNum (2 ^ 53)) = "9007199254740992"%string
  /\ toString (JNum (2 ^ 60)) = "1152921504606847000"%string
  /\ toString (JNum (10 ^ 20)) = "100000000000000000000"%string
  /\ toString (JNum (10 ^ 21)) = "1e+21"%string
  /\ toString (JNum (- (2 ^ 70))) = "-1.1805916207174113e+21"%string
  /\ toString (JNum 99999999999999991611392) = "1e+23"%string.
Proof. repeat split; vm_compute; reflexivity. Qed.

(** [===] on these values is equality. *)
Lemma strictEq_eq a b : strictEq a b = true <-> a = b.
Proof.
  destruct a, b; simpl; split; try discriminate; try reflexivity; intros H.
  - now apply Bool.eqb_prop in H as ->.
  - injection H as ->. apply Bool.eqb_reflx.
  - now apply Z.eqb_eq in H as ->.
  - injection H as ->. apply Z.eqb_refl.
  - now apply String.eqb_eq in H as ->.
  - injection H as ->. apply String.eqb_refl.
Qed.

Lemma strictEq_neq a b : strictEq a b = false <-> a <> b.
Proof.
  rewrite <- strictEq_eq. destruct (strictEq a b); intuition congruence.
Qed.

(** ** Sorting newest first *)

Lemma insertNewestFirst_perm x l :
  Permutation (insertNewestFirst x l) (x :: l).
Proof.
  induction l as [|y rest IH]; simpl.
  - reflexivity.
  - destruct (timestamp x <? timestamp y).
    + rewrite IH. apply perm_swap.
    + reflexivity.
Qed.

Lemma sortNewestFirst_perm l : Permutation (sortNewestFirst l) l.
Proof.
  induction l as [|x rest IH]; simpl.
  - reflexivity.
  - rewrite insertNewestFirst_perm. now constructor.
Qed.

Lemma insertNewestFirst_sorted x l :
  StronglySorted notOlder l -> StronglySorted notOlder (insertNewestFirst x l).
Proof.
  induction 1 as [|y rest Hsorted IH Hall]; simpl.
  - repeat constructor.
  - destruct (Z.ltb_spec (timestamp x) (timestamp y)) as [Hlt | Hge].
    + constructor; [exact IH |].
      apply (Permutation_Forall (Permutation_sym (insertNewestFirst_perm x rest))).
      constructor; [unfold notOlder; lia | exact Hall].
    + constructor; [now constructor |].
      constructor; [exact Hge |].
      eapply Forall_impl; [| exact Hall].
      unfold notOlder. intros z Hz. lia.
Qed.

Lemma sortNewestFirst_sorted l : StronglySorted notOlder (sortNewestFirst l).
Proof.
  induction l as [|x rest IH]; simpl.
  - constructor.
  - now apply insertNewestFirst_sorted.
Qed.

Lemma sortNewestFirst_length l : List.length (sortNewestFirst l) = List.length l.
Proof. apply Permutation_length, sortNewestFirst_perm. Qed.

(** ** Writing records *)

Lemma upsert_fresh k o l :
  lookup k l = None -> Permutation (upsert k o l) ((k, o) :: l).
Proof.
  induction l as [|[k' o'] rest IH]; simpl; intros Hfresh.
  - reflexivity.
  - unfold keyEqb in Hfresh. destruct (keyCompare k k').
    + discriminate.
    + reflexivity.
    + rewrite (IH Hfresh). apply perm_swap.
Qed.

Lemma keyCompare_refl k : keyCompare k k = Eq.
Proof.
  destruct k as [n | t]; simpl.
  - apply Z.compare_refl.
  - pose proof (String.compare_antisym t t) as Hanti.
    destruct (String.compare t t); simpl in Hanti; congruence.
Qed.

(** What was just written under a key is what a read of that key finds. *)
Lemma lookup_upsert k o l : lookup k (upsert k o l) = Some o.
Proof.
  induction l as [|[k' o'] rest IH]; simpl.
  - unfold keyEqb. now rewrite keyCompare_refl.
  - destruct (keyCompare k k') eqn:Hcmp; simpl; unfold keyEqb.
    + now rewrite keyCompare_refl.
    + now rewrite keyCompare_refl.
    + now rewrite Hcmp.
Qed.

(** [put] of a record that carries a valid key always goes through. *)
Lemma put_keyed o k s :
  toKey (id o) = Some k ->
  write false o s = Stored (mkStore (upsert k o (entries s)) (bump k (keyGenerator s))).
Proof.
  unfold write. destruct (id o); simpl; try discriminate; now intros [= <-].
Qed.

(** A successful [add] puts exactly one more record into the store: the
    order itself, up to the key it may have been given. *)
Lemma add_stored o s s' :
  write true o s = Stored s' ->
  storable o = true /\
  Permutation (map withoutKey (getAll s')) (withoutKey o :: map withoutKey (getAll s)).
Proof.
  unfold write, storable, getAll. destruct (id o) eqn:Hid; simpl.
  - destruct (generatorLimit <? keyGenerator s); [discriminate |].
    destruct (lookup (KNum (keyGenerator s)) (entries s)) eqn:Hfresh; [discriminate |].
    intros [= <-]. simpl. split; [reflexivity |].
    rewrite (upsert_fresh _ _ _ Hfresh). reflexivity.
  - discriminate.
  - discriminate.
  - destruct (lookup (KNum n) (entries s)) eqn:Hfresh; [discriminate |].
    intros [= <-]. simpl. split; [reflexivity |].
    rewrite (upsert_fresh _ _ _ Hfresh). reflexivity.
  - destruct (lookup (KStr s0) (entries s)) eqn:Hfresh; [discriminate |].
    intros [= <-]. simpl. split; [reflexivity |].
    rewrite (upsert_fresh _ _ _ Hfresh). reflexivity.
Qed.

Lemma add_DataError o s : write true o s = DataError -> storable o = false.
Proof.
  unfold write, storable. destruct (id o); simpl; try reflexivity.
  - destruct (generatorLimit <? keyGenerator s); [discriminate |].
    destruct (lookup _ _); discriminate.
  - destruct (lookup _ _); discriminate.
  - destruct (lookup _ _); discriminate.
Qed.

(** Whatever a transaction of [add]s leaves behind when it is not undone
    is the old content plus the storable prefix of the orders. *)
Lemma addAll_content orders : forall s s',
  addAll orders s = Committed s' \/ addAll orders s = Interrupted s' ->
  Permutation (map withoutKey (getAll s'))
              (map withoutKey (storablePrefix orders) ++ map withoutKey (getAll s)).
Proof.
  induction orders as [|o rest IH]; simpl; intros s s' Hrun.
  - destruct Hrun as [[= <-] | [=]]. reflexivity.
  - destruct (write true o s) as [s1 | |] eqn:Hadd.
    + destruct (add_stored _ _ _ Hadd) as [Hok Hperm]. rewrite Hok. simpl.
      rewrite (IH _ _ Hrun), Hperm. simpl. apply Permutation_sym, Permutation_middle.
    + rewrite (add_DataError _ _ Hadd). destruct Hrun as [[=] | [= <-]]. reflexivity.
    + destruct Hrun; discriminate.
Qed.

(** ** The key generator under explicit keys *)

Lemma bump_raise k : exists floor, forall g, bump k g = raise floor g.
Proof.
  destruct k as [n | t].
  - exists (Some (Z.min n generatorLimit + 1)). intros g. simpl.
    destruct (Z.leb_spec g (Z.min n generatorLimit)); lia.
  - exists None. reflexivity.
Qed.

Lemma raise_raise a b : exists c, forall g, raise a (raise b g) = raise c g.
Proof.
  destruct a as [x|], b as [y|]; simpl.
  - exists (Some (Z.max x y)). intros g. simpl. lia.
  - exists (Some x). reflexivity.
  - exists (Some y). reflexivity.
  - exists None. reflexivity.
Qed.

Lemma raise_idempotent a g : raise a (raise a g) = raise a g.
Proof. destruct a; simpl; lia. Qed.

(** An [add] of a keyed order succeeds, fails or aborts according to the
    records present alone; the generator only ever moves up to a floor
    fixed by the key. *)
Lemma add_keyed o E :
  keyed o ->
  (exists k floor, toKey (id o) = Some k /\ lookup k E = None /\
      forall g, write true o (mkStore E g)
                = Stored (mkStore (upsert k o E) (raise floor g)))
  \/ (forall g, write true o (mkStore E g) = DataError)
  \/ (forall g, write true o (mkStore E g) = ConstraintError).
Proof.
  unfold keyed, write. intros Hkeyed.
  destruct (id o) as [| | b | n | t] eqn:Hid; simpl.
  - congruence.
  - right; left; reflexivity.
  - right; left; reflexivity.
  - destruct (lookup (KNum n) E) eqn:Hfresh.
    + right; right; reflexivity.
    + left. destruct (bump_raise (KNum n)) as [floor Hfloor].
      exists (KNum n), floor. repeat split; try assumption.
      intros g. now rewrite <- Hfloor.
  - destruct (lookup (KStr t) E) eqn:Hfresh.
    + right; right; reflexivity.
    + left. exists (KStr t), None. repeat split; assumption.
Qed.

Lemma addAll_keyed orders :
  Forall keyed orders ->
  forall E,
    (exists E' floor, forall g,
        addAll orders (mkStore E g) = Committed (mkStore E' (raise floor g)))
    \/ (exists E' floor, forall g,
        addAll orders (mkStore E g) = Interrupted (mkStore E' (raise floor g)))
    \/ (forall g, addAll orders (mkStore E g) = Aborted).
Proof.
  induction 1 as [|o rest Hkeyed _ IH]; intros E; simpl.
  - left. exists E, None. reflexivity.
  - destruct (add_keyed o E Hkeyed)
      as [(k & floor & _ & _ & Hadd) | [Hadd | Hadd]].
    + destruct (IH (upsert k o E))
        as [(E' & floor' & Hrest) | [(E' & floor' & Hrest) | Hrest]].
      * left. destruct (raise_raise floor' floor) as [c Hc].
        exists E', c. intros g. now rewrite Hadd, Hrest, Hc.
      * right; left. destruct (raise_raise floor' floor) as [c Hc].
        exists E', c. intros g. now rewrite Hadd, Hrest, Hc.
      * right; right. intros g. now rewrite Hadd, Hrest.
    + right; left. exists E, None. intros g. now rewrite Hadd.
    + right; right. intros g. now rewrite Hadd.
Qed.

(** ** Pulling twice *)

Lemma pulled_content orders s :
  pulled orders s = s
  \/ Permutation (map withoutKey (getAll (pulled orders s)))
                 (map withoutKey (storablePrefix orders)).
Proof.
  unfold pulled. destruct (addAll orders (clear s)) as [s' | s' |] eqn:Hrun.
  - right. rewrite (addAll_content orders (clear s) s' (or_introl Hrun)).
    simpl. now rewrite app_nil_r.
  - right. rewrite (addAll_content orders (clear s) s' (or_intror Hrun)).
    simpl. now rewrite app_nil_r.
  - left. reflexivity.
Qed.

Lemma pulled_twice_content orders s :
  Permutation (map withoutKey (getAll (pulled orders (pulled orders s))))
              (map withoutKey (getAll (pulled orders s))).
Proof.
  destruct (pulled_content orders (pulled orders s)) as [Hsame | Hsecond].
  - now rewrite Hsame.
  - destruct (pulled_content orders s) as [Hsame | Hfirst].
    + now rewrite !Hsame.
    + now rewrite Hsecond, Hfirst.
Qed.

Lemma pulled_twice_keyed orders s :
  Forall keyed orders -> pulled orders (pulled orders s) = pulled orders s.
Proof.
  intros Hkeyed. unfold pulled, clear.
  destruct (addAll_keyed orders Hkeyed [])
    as [(E' & floor & Hrun) | [(E' & floor & Hrun) | Hrun]].
  - rewrite !Hrun. simpl. now rewrite raise_idempotent.
  - rewrite !Hrun. simpl. now rewrite raise_idempotent.
  - rewrite !Hrun. reflexivity.
Qed.

End StoreFacts.

(* ================================================================== *)
(** * The shape of the store is an invariant *)
(* ================================================================== *)

Module StoreShape.

Import Js Store StoreFacts.
Local Open Scope Z_scope.

(** ** Keys are totally ordered *)

Lemma keyCompare_eq a b : keyCompare a b = Eq -> a = b.
Proof.
  destruct a as [x | x], b as [y | y]; simpl; try discriminate.
  - intros H. apply Z.compare_eq in H. now subst.
  - intros H. apply String.compare_eq_iff in H. now subst.
Qed.

Lemma keyEqb_eq a b : keyEqb a b = true <-> a = b.
Proof.
  unfold keyEqb. split.
  - destruct (keyCompare a b) eqn:H; try discriminate. intros _. now apply keyCompare_eq.
  - intros ->. now rewrite keyCompare_refl.
Qed.

Lemma keyEqb_neq a b : a <> b -> keyEqb a b = false.
Proof.
  intros Hne. destruct (keyEqb a b) eqn:H; [| reflexivity].
  apply keyEqb_eq in H. contradiction.
Qed.

Lemma keyCompare_antisym a b : keyCompare a b = CompOpp (keyCompare b a).
Proof.
  destruct a as [x | x], b as [y | y]; simpl; try reflexivity.
  - apply Z.compare_antisym.
  - apply String.compare_antisym.
Qed.

Lemma keyCompare_Gt a b : keyCompare a b = Gt -> keyLt b a.
Proof.
  unfold keyLt. intros H. rewrite keyCompare_antisym, H. reflexivity.
Qed.

Lemma keyLt_trans a b c : keyLt a b -> keyLt b c -> keyLt a c.
Proof.
  unfold keyLt. destruct a as [x | x], b as [y | y], c as [z | z]; simpl;
    try discriminate; try reflexivity.
  - rewrite !Z.compare_lt_iff. lia.
  - intros Hxy Hyz. apply String_as_OT.cmp_lt in Hxy, Hyz. apply String_as_OT.cmp_lt.
    eapply String_as_OT.lt_trans; eassumption.
Qed.

Lemma keyLt_neq a b : keyLt a b -> a <> b.
Proof.
  unfold keyLt. intros H ->. rewrite keyCompare_refl in H. discriminate.
Qed.

(** ** [upsert] *)

Lemma upsert_Forall (P : Key * Order -> Prop) k o l :
  P (k, o) -> Forall P l -> Forall P (upsert k o l).
Proof.
  intros Hnew. induction 1 as [|[k' o'] rest Hhead Hrest IH]; simpl.
  - now repeat constructor.
  - destruct (keyCompare k k'); repeat constructor; assumption.
Qed.

Lemma upsert_ascending k o l : ascending l -> ascending (upsert k o l).
Proof.
  unfold ascending. induction 1 as [|[k' o'] rest Hsorted IH Hall]; simpl.
  - repeat constructor.
  - destruct (keyCompare k k') eqn:Hcmp.
    + apply keyCompare_eq in Hcmp. subst k'. now constructor.
    + constructor; [now constructor |]. constructor; [exact Hcmp |].
      eapply Forall_impl; [| exact Hall]. intros e He. simpl in *.
      eapply keyLt_trans; eassumption.
    + constructor; [exact IH |].
      apply upsert_Forall; [| exact Hall]. simpl. now apply keyCompare_Gt.
Qed.

Lemma lookup_upsert_other k k' o l :
  k' <> k -> lookup k' (upsert k o l) = lookup k' l.
Proof.
  intros Hne. induction l as [|[k0 o0] rest IH]; simpl.
  - now rewrite keyEqb_neq.
  - destruct (keyCompare k k0) eqn:Hcmp; simpl.
    + apply keyCompare_eq in Hcmp. subst k0. now rewrite (keyEqb_neq k' k Hne).
    + now rewrite (keyEqb_neq k' k Hne).
    + now rewrite IH.
Qed.

(** A write under a key already present replaces in place. *)
Lemma upsert_length_present k o l :
  ascending l -> lookup k l <> None -> List.length (upsert k o l) = List.length l.
Proof.
  unfold ascending. induction 1 as [|[k' o'] rest Hsorted IH Hall]; simpl; intros Hin.
  - contradiction.
  - unfold keyEqb in Hin. destruct (keyCompare k k') eqn:Hcmp; simpl.
    + reflexivity.
    + exfalso. apply Hin. clear - Hcmp Hall.
      induction Hall as [|[k0 o0] rest Hk Hrest IH]; simpl; [reflexivity |].
      simpl in Hk. rewrite keyEqb_neq; [exact IH |].
      apply keyLt_neq. eapply keyLt_trans; eassumption.
    + now rewrite IH.
Qed.

(** ** [remove] *)

Lemma remove_Forall (P : Key * Order -> Prop) k l :
  Forall P l -> Forall P (remove k l).
Proof.
  induction 1 as [|[k' o'] rest Hhead Hrest IH]; simpl.
  - constructor.
  - destruct (keyEqb k k'); [exact Hrest | now constructor].
Qed.

Lemma remove_ascending k l : ascending l -> ascending (remove k l).
Proof.
  unfold ascending. induction 1 as [|[k' o'] rest Hsorted IH Hall]; simpl.
  - constructor.
  - destruct (keyEqb k k'); [exact Hsorted |].
    constructor; [exact IH | now apply remove_Forall].
Qed.

Lemma lookup_above k l :
  Forall (fun e => keyLt k (fst e)) l -> lookup k l = None.
Proof.
  induction 1 as [|[k' o'] rest Hk Hrest IH]; simpl; [reflexivity |].
  simpl in Hk. rewrite keyEqb_neq; [exact IH | now apply keyLt_neq].
Qed.

Lemma lookup_remove k l : ascending l -> lookup k (remove k l) = None.
Proof.
  unfold ascending. induction 1 as [|[k' o'] rest Hsorted IH Hall]; simpl.
  - reflexivity.
  - destruct (keyEqb k k') eqn:Heq.
    + apply keyEqb_eq in Heq. subst k'. now apply lookup_above.
    + simpl. now rewrite Heq.
Qed.

Lemma lookup_remove_other k k' l :
  k' <> k -> lookup k' (remove k l) = lookup k' l.
Proof.
  intros Hne. induction l as [|[k0 o0] rest IH]; simpl; [reflexivity |].
  destruct (keyEqb k k0) eqn:Heq; simpl.
  - apply keyEqb_eq in Heq. subst k0. now rewrite keyEqb_neq.
  - now rewrite IH.
Qed.

Lemma remove_length k l :
  lookup k l <> None -> S (List.length (remove k l)) = List.length l.
Proof.
  induction l as [|[k0 o0] rest IH]; simpl; intros Hin; [contradiction |].
  destruct (keyEqb k k0); simpl; [reflexivity |]. now rewrite IH.
Qed.

Lemma remove_absent k l : lookup k l = None -> remove k l = l.
Proof.
  induction l as [|[k0 o0] rest IH]; simpl; intros Hout; [reflexivity |].
  destruct (keyEqb k k0); [discriminate |]. now rewrite IH.
Qed.

Lemma lookup_In k o l : lookup k l = Some o -> In (k, o) l.
Proof.
  induction l as [|[k0 o0] rest IH]; simpl; [discriminate |].
  destruct (keyEqb k k0) eqn:Heq.
  - apply keyEqb_eq in Heq. subst k0. intros [= ->]. now left.
  - intros H. right. now apply IH.
Qed.

Lemma In_lookup k o l : ascending l -> In (k, o) l -> lookup k l = Some o.
Proof.
  unfold ascending. induction 1 as [|[k0 o0] rest Hsorted IH Hall]; simpl; [contradiction |].
  intros [[= -> ->] | Hin].
  - unfold keyEqb. now rewrite keyCompare_refl.
  - rewrite keyEqb_neq; [now apply IH |].
    rewrite Forall_forall in Hall. specialize (Hall _ Hin). simpl in Hall.
    intros ->. now apply keyLt_neq in Hall.
Qed.

Lemma In_getAll o s : In o (getAll s) -> exists k, In (k, o) (entries s).
Proof.
  unfold getAll. intros Hin. apply in_map_iff in Hin as ([k o'] & Heq & Hin).
  simpl in Heq. subst o'. now exists k.
Qed.

(** In a well-formed store a record is found under the key its [id]
    spells, and nowhere else. *)
Lemma wellFormed_In k o s :
  wellFormed s -> In (k, o) (entries s) ->
  toKey (id o) = Some k
  /\ lookup k (entries s) = Some o
  /\ bump k (keyGenerator s) = keyGenerator s.
Proof.
  intros (Hasc & Hin & Hgen) Hmem. rewrite Forall_forall in Hin, Hgen.
  repeat split.
  - exact (Hin _ Hmem).
  - now apply In_lookup.
  - exact (Hgen _ Hmem).
Qed.

(** Writing back what is already there changes nothing. *)
Lemma upsert_same k o l : ascending l -> In (k, o) l -> upsert k o l = l.
Proof.
  unfold ascending. induction 1 as [|[k0 o0] rest Hsorted IH Hall]; simpl; [contradiction |].
  intros [[= -> ->] | Hin].
  - now rewrite keyCompare_refl.
  - rewrite Forall_forall in Hall. pose proof (Hall _ Hin) as Hlt. simpl in Hlt.
    rewrite keyCompare_antisym. unfold keyLt in Hlt. rewrite Hlt. simpl.
    now rewrite IH.
Qed.

(** Writing under a key above all others appends. *)
Lemma upsert_last k o l :
  Forall (fun e => keyLt (fst e) k) l -> upsert k o l = (l ++ [(k, o)])%list.
Proof.
  induction 1 as [|[k0 o0] rest Hlt Hrest IH]; simpl; [reflexivity |].
  simpl in Hlt. rewrite keyCompare_antisym. unfold keyLt in Hlt. rewrite Hlt. simpl.
  now rewrite IH.
Qed.

Lemma ascending_app_head (p : list (Key * Order)) e rest :
  ascending (p ++ e :: rest) -> Forall (fun x => keyLt (fst x) (fst e)) p.
Proof.
  unfold ascending. induction p as [|x p IH]; simpl; intros Hsorted; [constructor |].
  inversion Hsorted as [|? ? Htail Hall]; subst. constructor.
  - rewrite Forall_forall in Hall. apply Hall. apply in_or_app. right. now left.
  - now apply IH.
Qed.

(** ** The key generator *)

Lemma passed_mono g g' e : g <= g' -> passed g e -> passed g' e.
Proof.
  unfold passed. destruct e as [[n | t] o]; simpl; [| reflexivity].
  intros Hle. destruct (Z.leb_spec g (Z.min n generatorLimit));
    destruct (Z.leb_spec g' (Z.min n generatorLimit)); lia.
Qed.

Lemma bump_ge k g : g <= bump k g.
Proof.
  destruct k as [n | t]; simpl; [| lia].
  destruct (Z.leb_spec g (Z.min n generatorLimit)); lia.
Qed.

Lemma bump_passed k o g : passed (bump k g) (k, o).
Proof.
  unfold passed. destruct k as [n | t]; simpl; [| reflexivity].
  destruct (Z.leb_spec g (Z.min n generatorLimit)) as [Hle | Hgt].
  - destruct (Z.leb_spec (Z.min n generatorLimit + 1) (Z.min n generatorLimit)); lia.
  - destruct (Z.leb_spec g (Z.min n generatorLimit)); lia.
Qed.

(** A generated key is not in use. *)
Lemma generated_fresh s :
  Forall (passed (keyGenerator s)) (entries s) ->
  keyGenerator s <= generatorLimit ->
  lookup (KNum (keyGenerator s)) (entries s) = None.
Proof.
  intros Hpassed Hlimit. induction Hpassed as [|[k o] rest Hk Hrest IH]; simpl.
  - reflexivity.
  - rewrite keyEqb_neq; [exact IH |].
    intros <-. unfold passed in Hk. simpl in Hk.
    destruct (Z.leb_spec (keyGenerator s) (Z.min (keyGenerator s) generatorLimit)); lia.
Qed.

(** ** Every write keeps the shape *)

Lemma write_wellFormed noOverwrite o s s' :
  wellFormed s -> write noOverwrite o s = Stored s' -> wellFormed s'.
Proof.
  intros (Hasc & Hin & Hgen). unfold write.
  assert (Hkeyed : forall k, toKey (id o) = Some k ->
            wellFormed (mkStore (upsert k o (entries s)) (bump k (keyGenerator s)))).
  { intros k Hk. repeat split; simpl.
    - now apply upsert_ascending.
    - now apply upsert_Forall.
    - apply upsert_Forall; [apply bump_passed |].
      eapply Forall_impl; [| exact Hgen]. intros e. apply passed_mono, bump_ge. }
  destruct (id o) eqn:Hid; simpl.
  - destruct (generatorLimit <? keyGenerator s); [discriminate |].
    assert (Hgenerated :
              wellFormed (mkStore (upsert (KNum (keyGenerator s))
                                          (withId (JNum (keyGenerator s)) o) (entries s))
                                  (keyGenerator s + 1))).
    { repeat split; simpl.
      - now apply upsert_ascending.
      - now apply upsert_Forall.
      - apply upsert_Forall.
        + unfold passed. simpl.
          destruct (Z.leb_spec (keyGenerator s + 1) (Z.min (keyGenerator s) generatorLimit));
            lia.
        + eapply Forall_impl; [| exact Hgen]. intros e. apply passed_mono. lia. }
    destruct noOverwrite; [destruct (lookup _ _); [discriminate |] |];
      now intros [= <-].
  - discriminate.
  - discriminate.
  - destruct noOverwrite; [destruct (lookup _ _); [discriminate |] |];
      intros [= <-]; now apply Hkeyed.
  - destruct noOverwrite; [destruct (lookup _ _); [discriminate |] |];
      intros [= <-]; now apply Hkeyed.
Qed.

Lemma clear_wellFormed s : wellFormed (clear s).
Proof. repeat split; constructor. Qed.

Lemma remove_wellFormed k s :
  wellFormed s -> wellFormed (mkStore (remove k (entries s)) (keyGenerator s)).
Proof.
  intros (Hasc & Hin & Hgen). repeat split; simpl.
  - now apply remove_ascending.
  - now apply remove_Forall.
  - now apply remove_Forall.
Qed.

Lemma addAll_wellFormed orders : forall s s',
  wellFormed s ->
  addAll orders s = Committed s' \/ addAll orders s = Interrupted s' ->
  wellFormed s'.
Proof.
  induction orders as [|o rest IH]; simpl; intros s s' Hwf Hrun.
  - destruct Hrun as [[= <-] | [=]]. exact Hwf.
  - destruct (write true o s) as [s1 | |] eqn:Hadd.
    + apply (IH s1 s'); [| exact Hrun]. eapply write_wellFormed; eassumption.
    + destruct Hrun as [[=] | [= <-]]. exact Hwf.
    + destruct Hrun; discriminate.
Qed.

Lemma pulled_wellFormed orders s : wellFormed s -> wellFormed (pulled orders s).
Proof.
  intros Hwf. unfold pulled.
  destruct (addAll orders (clear s)) as [s' | s' |] eqn:Hrun.
  - eapply addAll_wellFormed; [apply clear_wellFormed | left; exact Hrun].
  - eapply addAll_wellFormed; [apply clear_wellFormed | right; exact Hrun].
  - exact Hwf.
Qed.

End StoreShape.

(* ================================================================== *)
(** * Properties of the services *)
(* ================================================================== *)

Module DbFacts.

Import Js Store Effects Db Dashboard StoreFacts StoreShape.
Local Open Scope string_scope.
Local Open Scope Z_scope.

(** Run the monadic plumbing as far as it goes. *)
Ltac step :=
  cbv beta iota zeta delta
    [bind ret throw tryCatch call getStore setStore onLine show
     dbGetAll dbGet dbPut dbDelete dbClear replaceAll fetched fst snd];
  cbn [store backend navigatorOnLine ui].

Section Services.

Context {W : Type} {B : Backend W}.

(** Reading the cache: the fallback branch of [getAllOrders]. *)
Lemma getAllOrders_offline (w : World W) :
  navigatorOnLine w = false ->
  getAllOrders w = (Ok (sortNewestFirst (getAll (store w))), w).
Proof.
  intros Hoff. unfold getAllOrders, bind, onLine. rewrite Hoff. reflexivity.
Qed.

(** C6. When the fetch of the pull path fails, [getAllOrders] resolves
    to the records of the cache, newest first, and the cache is exactly
    what it was. *)
Theorem getAllOrders_fetch_failure (w : World W) (message : string) (b' : W) :
  navigatorOnLine w = true ->
  apiFetchOrders (backend w) = (Throw message, b') ->
  exists cachedOrders,
    fst (getAllOrders w) = Ok cachedOrders
    /\ cachedOrders = sortNewestFirst (getAll (store w))
    /\ Permutation cachedOrders (getAll (store w))
    /\ StronglySorted notOlder cachedOrders
    /\ store (snd (getAllOrders w)) = store w.
Proof.
  intros Hon Hfetch. exists (sortNewestFirst (getAll (store w))).
  unfold getAllOrders, bind, onLine, tryCatch, call. rewrite Hon, Hfetch. simpl.
  split; [reflexivity |]. split; [reflexivity |].
  split; [apply sortNewestFirst_perm |].
  split; [apply sortNewestFirst_sorted | reflexivity].
Qed.

(** C7. With the connectivity signal down, [handleDeleteOrder] touches
    neither the cache nor the server: all it does is tell the user that
    the delete was not carried out. *)
Theorem delete_refused_offline (network : Network) (orders : list Order)
        (confirmed : bool) (orderKey : value) (w : World W) :
  isOnline network = false ->
  handleDeleteOrder network orders confirmed orderKey w
  = (Ok tt, mkWorld (store w) (backend w) (navigatorOnLine w)
                    (ui w ++ [Alert "⚠️ Cannot delete while offline"])).
Proof.
  intros Hoff. unfold handleDeleteOrder. rewrite Hoff. reflexivity.
Qed.

(** The pull path when the fetch succeeds. *)
Lemma getAllOrders_pulls (w : World W) (remote : list Order) (b1 : W) :
  navigatorOnLine w = true ->
  apiFetchOrders (backend w) = (Ok (OrderArray remote), b1) ->
  snd (getAllOrders w)
  = mkWorld (pulled remote (store w)) b1 (navigatorOnLine w) (ui w).
Proof.
  intros Hon Hfetch. unfold getAllOrders, pulled. step.
  rewrite Hon. step. rewrite Hfetch. step.
  destruct (addAll remote (clear (store w))); step; now rewrite ?Hon.
Qed.

(** C4 (as the code has it). Pulling the same remote list twice leaves,
    after the second pull, the same number of records with the same
    fields as after the first, up to the local keys; and when every
    remote order carries a local key of its own, the cache is identical,
    keys included. *)
Theorem pull_twice (remote : list Order) (w : World W) (b1 b2 : W) :
  navigatorOnLine w = true ->
  apiFetchOrders (backend w) = (Ok (OrderArray remote), b1) ->
  apiFetchOrders b1 = (Ok (OrderArray remote), b2) ->
  let first := snd (getAllOrders w) in
  let second := snd (getAllOrders first) in
  Permutation (map withoutKey (getAll (store second)))
              (map withoutKey (getAll (store first)))
  /\ List.length (getAll (store second)) = List.length (getAll (store first))
  /\ (Forall keyed remote -> store second = store first).
Proof.
  intros Hon Hfetch1 Hfetch2. cbv zeta.
  rewrite (getAllOrders_pulls w remote b1 Hon Hfetch1).
  rewrite (getAllOrders_pulls
             (mkWorld (pulled remote (store w)) b1 (navigatorOnLine w) (ui w))
             remote b2 Hon Hfetch2).
  simpl.
  pose proof (pulled_twice_content remote (store w)) as Hperm.
  split; [exact Hperm |]. split.
  - apply Permutation_length in Hperm. now rewrite !length_map in Hperm.
  - apply pulled_twice_keyed.
Qed.

(** ** Looking an order up by an ambiguous identifier *)

(** The two [find] callbacks, test by test. *)
Lemma matchesAnyId_spec (query : value) (o : Order) :
  matchesAnyId query o = true
  <-> (_id o = query \/ orderId o = query \/ toString (id o) = toString query).
Proof.
  unfold matchesAnyId. rewrite !orb_true_iff, !strictEq_eq, String.eqb_eq. tauto.
Qed.



Lemma find_nothing (p : Order -> bool) (l : list Order) :
  Forall (fun a => p a <> true) l -> find p l = None.
Proof.
  induction 1 as [|a rest Ha _ IH]; simpl; [reflexivity |].
  destruct (p a); [congruence | exact IH].
Qed.



(** ** The dirty flag *)

Lemma findOrder_keeps_world (query : value) (w : World W) :
  snd (findOrder query w) = w.
Proof.
  unfold findOrder. step. destruct (toKey query); step; [| reflexivity].
  destruct (lookup _ _); reflexivity.
Qed.

Lemma resolveServerId_keeps_store (d : Order) (w : World W) :
  store (snd (resolveServerId d w)) = store w.
Proof.
  unfold resolveServerId. destruct (_ && _); step; [| reflexivity].
  destruct (apiFetchOrderByNumber (orderId d) (backend w)) as [[so | e] b1];
    reflexivity.
Qed.

(** The dirty pass on one record, case by case. *)
Lemma pushDirty_unfold (d : Order) (w : World W) :
  pushDirty d w
  = match resolveServerId d w with
    | (Throw _, w1) => (Ok tt, w1)
    | (Ok serverId, w1) =>
        if truthy serverId then
          match apiUpdateOrderStatus serverId (status d) (backend w1) with
          | (Throw _, b2) =>
              (Ok tt, mkWorld (store w1) b2 (navigatorOnLine w1) (ui w1))
          | (Ok _, b2) =>
              match write false (withDirty (JBool false) d) (store w1) with
              | Stored s' => (Ok tt, mkWorld s' b2 (navigatorOnLine w1) (ui w1))
              | _ => (Ok tt, mkWorld (store w1) b2 (navigatorOnLine w1) (ui w1))
              end
          end
        else (Ok tt, w1)
    end.
Proof.
  unfold pushDirty, tryCatch, bind at 1.
  destruct (resolveServerId d w) as [[serverId | e] w1]; [| reflexivity].
  destruct (truthy serverId); [| reflexivity]. step.
  destruct (apiUpdateOrderStatus serverId (status d) (backend w1))
    as [[u | e] b2]; step; [| reflexivity].
  destruct (write false (withDirty (JBool false) d) (store w1)); reflexivity.
Qed.

Lemma storablePrefix_incl (orders : list Order) (o : Order) :
  In o (storablePrefix orders) -> In o orders.
Proof.
  induction orders as [|x rest IH]; simpl; [exact (fun H => H) |].
  destruct (storable x); simpl; [| contradiction].
  intros [-> | Hin]; [now left | right; now apply IH].
Qed.

(** C5 (as the code has it). What writes the dirty flag. (a) A status
    update that goes through writes the record it found with the new
    status and [dirty = true]; and it does go through whenever the record
    is found and carries a valid key, after which the cache holds the
    record in that form. (b) The dirty pass either leaves the cache as it
    was, or it has had [apiUpdateOrderStatus] resolve for the record's
    server identifier and status and then writes that record with
    [dirty = false]. (c) Marking a record as synced writes it with the
    dirty flag it had. (d) [saveOrder] stores the record it is given as
    it is, dirty flag included, without a request to the server. (e) A
    pull whose fetch succeeds makes that one request and, unless its
    transaction is undone, leaves in the cache only copies of the records
    the server sent, which differ from them in the local key at most:
    the dirty flag of a cached record is then the one its server copy
    carries. *)
Theorem dirty_flag_writes :
  (forall query newStatus (w w' : World W) o',
      updateOrderStatus query newStatus w = (Ok o', w') ->
      status o' = newStatus /\ dirty o' = JBool true
      /\ exists o, findOrder query w = (Ok (Some o), w)
                   /\ o' = withDirty (JBool true) (withStatus newStatus o)
                   /\ write false o' (store w) = Stored (store w'))
  /\ (forall query newStatus (w : World W) o k,
         findOrder query w = (Ok (Some o), w) ->
         toKey (id o) = Some k ->
         exists w',
           updateOrderStatus query newStatus w
           = (Ok (withDirty (JBool true) (withStatus newStatus o)), w')
           /\ lookup k (entries (store w'))
              = Some (withDirty (JBool true) (withStatus newStatus o)))
  /\ (forall d (w : World W),
         store (snd (pushDirty d w)) = store w
         \/ exists serverId,
             fst (resolveServerId d w) = Ok serverId
             /\ truthy serverId = true
             /\ apiUpdateOrderStatus serverId (status d)
                                     (backend (snd (resolveServerId d w)))
                = (Ok tt, backend (snd (pushDirty d w)))
             /\ write false (withDirty (JBool false) d) (store w)
                = Stored (store (snd (pushDirty d w))))
  /\ (forall query (w w' : World W) o',
         markOrderAsSynced query w = (Ok (Some o'), w') ->
         exists o, In o (getAll (store w))
                   /\ o' = withSynced (JBool true) o /\ dirty o' = dirty o)
  /\ (forall o k (w : World W),
         toKey (id o) = Some k ->
         exists w',
           saveOrder o w = (Ok o, w')
           /\ lookup k (entries (store w')) = Some o
           /\ backend w' = backend w)
  /\ (forall (w : World W) remote b1,
         navigatorOnLine w = true ->
         apiFetchOrders (backend w) = (Ok (OrderArray remote), b1) ->
         backend (snd (getAllOrders w)) = b1
         /\ (store (snd (getAllOrders w)) = store w
             \/ Forall (fun o' => exists o, In o remote /\ withoutKey o' = withoutKey o)
                       (getAll (store (snd (getAllOrders w)))))).
Proof.
  split; [| split; [| split; [| split; [| split]]]].
  - intros query newStatus w w' o'. unfold updateOrderStatus.
    pose proof (findOrder_keeps_world query w) as Hsame.
    unfold bind at 1. destruct (findOrder query w) as [[[o|] | e] w1];
      simpl in Hsame; subst w1; [| discriminate | discriminate].
    step. destruct (write false _ (store w)) as [s' | |] eqn:Hwrite;
      try discriminate.
    intros [= <- <-]. simpl. repeat split. exists o. repeat split. exact Hwrite.
  - intros query newStatus w o k Hfound Hkey. unfold updateOrderStatus.
    unfold bind at 1. rewrite Hfound. step.
    rewrite (put_keyed (withDirty (JBool true) (withStatus newStatus o)) k (store w) Hkey).
    eexists. split; [reflexivity |]. step. simpl. apply lookup_upsert.
  - intros d w. rewrite !pushDirty_unfold.
    pose proof (resolveServerId_keeps_store d w) as Hstore.
    destruct (resolveServerId d w) as [[serverId | e] w1]; simpl in Hstore |- *;
      [| now left].
    destruct (truthy serverId) eqn:Htruthy; [| now left].
    destruct (apiUpdateOrderStatus serverId (status d) (backend w1))
      as [[[] | e] b2] eqn:Hpush; [| now left].
    rewrite Hstore.
    destruct (write false (withDirty (JBool false) d) (store w)) as [s' | |];
      [| now left | now left].
    right. exists serverId. simpl. repeat split; assumption.
  - intros query w w' o'. unfold markOrderAsSynced. step.
    destruct (find (matchesForSync query) (getAll (store w))) as [o|] eqn:Hfind;
      [| discriminate].
    destruct (write false _ (store w)); try discriminate.
    intros [= <- _]. exists o. repeat split.
    now apply find_some in Hfind.
  - intros o k w Hkey. unfold saveOrder. step.
    rewrite (put_keyed o k (store w) Hkey). step.
    eexists. split; [reflexivity |]. simpl. split; [apply lookup_upsert | reflexivity].
  - intros w remote b1 Hon Hfetch.
    rewrite (getAllOrders_pulls w remote b1 Hon Hfetch). simpl.
    split; [reflexivity |].
    destruct (pulled_content remote (store w)) as [Hsame | Hperm]; [now left |].
    right. apply Forall_forall. intros o' Hin.
    assert (Hcopy : In (withoutKey o') (map withoutKey (storablePrefix remote))).
    { apply (Permutation_in _ Hperm). now apply in_map. }
    apply in_map_iff in Hcopy as (o & Heq & Ho).
    exists o. split; [now apply storablePrefix_incl | now symmetry].
Qed.

(** With nothing unsynced the push path returns before it has looked at
    the dirty records. *)
Lemma syncPendingOrders_nothing_pending (w : World W) :
  navigatorOnLine w = true ->
  Forall (fun o => truthy (synced o) = true) (getAll (store w)) ->
  syncPendingOrders w = (Ok (PushDone 0), w).
Proof.
  intros Hon Hsynced. unfold syncPendingOrders, getUnsyncedOrders. step.
  rewrite Hon. cbn [negb]. step.
  assert (Hnone : filter (fun o => negb (truthy (synced o))) (getAll (store w)) = []).
  { induction Hsynced as [|o rest Ho _ IH]; simpl; [reflexivity |].
    now rewrite Ho. }
  rewrite Hnone. reflexivity.
Qed.

End Services.

Import Scenario.



(** A pull takes the dirty flag down with no status pushed: the cache
    holds a record whose status was changed to ["ready"] locally and not
    yet pushed; after [getAllOrders] the record is the server's copy, its
    status ["pending"] again and no dirty flag on it, and all the server
    has seen is the fetch. And [saveOrder] of a copy that carries
    [dirty: false] takes the flag down with no request at all. *)
Lemma dirty_flag_lost_without_push :
  (let w' := snd (getAllOrders (world oneDirty twoRemote true)) in
   map (fun o => (_id o, status o, dirty o)) (getAll oneDirty)
     = [(JStr "s1", JStr "ready", JBool true)]
   /\ map (fun o => (_id o, status o, dirty o)) (getAll (store w'))
      = [(JStr "s1", JStr "pending", JUndefined); (JStr "s2", JStr "ready", JUndefined)]
   /\ received (backend w') = [GetOrders])
  /\ (let copy := cached 1 (JStr "s1") (JStr "A-1") "ready" 100 (JBool true) (JBool false) in
      let w' := snd (saveOrder copy (world oneDirty twoRemote true)) in
      map dirty (getAll (store w')) = [JBool false]
      /\ received (backend w') = []).
Proof. cbv zeta. repeat split. Qed.

Lemma dirty_flag_writes_witness :
  (let o' := cached 1 (JStr "s1") (JStr "A-1") "completed" 100 (JBool true) (JBool true) in
   updateOrderStatus (JStr "s1") (JStr "completed") (world oneDirty twoRemote false)
   = (Ok o', world (storeOf [o'] 2) twoRemote false)
   /\ status o' = JStr "completed" /\ dirty o' = JBool true)
  /\ (let w := world oneDirty twoRemote true in
      backend (snd (getAllOrders w)) = logRequest GetOrders twoRemote
      /\ (store (snd (getAllOrders w)) = store w
          \/ Forall (fun o' => exists o, In o (held twoRemote)
                                         /\ withoutKey o' = withoutKey o)
                    (getAll (store (snd (getAllOrders w)))))).
Proof.
  cbv zeta. split.
  - assert (Hrun :
              updateOrderStatus (JStr "s1") (JStr "completed")
                                (world oneDirty twoRemote false)
              = (Ok (cached 1 (JStr "s1") (JStr "A-1") "completed" 100
                            (JBool true) (JBool true)),
                 world (storeOf [cached 1 (JStr "s1") (JStr "A-1") "completed" 100
                                        (JBool true) (JBool true)] 2)
                       twoRemote false)) by reflexivity.
    split; [exact Hrun |].
    destruct (proj1 dirty_flag_writes _ _ _ _ _ Hrun) as (Hs & Hd & _).
    split; [exact Hs | exact Hd].
  - destruct dirty_flag_writes as (_ & _ & _ & _ & _ & Hpull).
    apply (Hpull (world oneDirty twoRemote true) (held twoRemote)
                 (logRequest GetOrders twoRemote)); reflexivity.
Defined.

Lemma getAllOrders_fetch_failure_witness :
  exists cachedOrders,
    fst (getAllOrders (world dirtyAndPending (mkServer false [] []) true))
      = Ok cachedOrders
    /\ map timestamp cachedOrders = [300; 100]
    /\ store (snd (getAllOrders (world dirtyAndPending (mkServer false [] []) true)))
       = dirtyAndPending.
Proof.
  assert (Hon : navigatorOnLine (world dirtyAndPending (mkServer false [] []) true)
                = true) by reflexivity.
  assert (Hfetch : apiFetchOrders
                     (backend (world dirtyAndPending (mkServer false [] []) true))
                   = (Throw "Failed to fetch", mkServer false [] [GetOrders]))
    by reflexivity.
  destruct (getAllOrders_fetch_failure _ _ _ Hon Hfetch)
    as (cachedOrders & Hres & Heq & _ & _ & Hstore).
  exists cachedOrders. split; [exact Hres |]. split; [| exact Hstore].
  rewrite Heq. reflexivity.
Defined.

Lemma delete_refused_offline_witness :
  handleDeleteOrder (mkNetwork false "http://localhost:3001") (getAll oneDirty)
                    true (JNum 1) (world oneDirty twoRemote false)
  = (Ok tt, mkWorld oneDirty twoRemote false
                    [Alert "⚠️ Cannot delete while offline"]).
Proof.
  apply (delete_refused_offline (mkNetwork false "http://localhost:3001")
           (getAll oneDirty) true (JNum 1) (world oneDirty twoRemote false)).
  reflexivity.
Defined.

(** The same delete with the signal up goes through: the record leaves the
    cache, the server is asked to delete it, and the list is reloaded. *)
Example delete_online :
  let w' := snd (handleDeleteOrder (mkNetwork true "http://localhost:3001")
                                   (getAll oneDirty) true (JNum 1)
                                   (world oneDirty (mkServer true [] []) true)) in
  getAll (store w') = []
  /\ received (backend w') = [DeleteOrder (JStr "s1"); GetOrders; GetOrders]
  /\ ui w' = [SetOrders []].
Proof. cbv zeta. repeat split. Qed.

(** C2. A record that is dirty and synced, alone in the cache, while
    online and with the server answering: [syncPendingOrders] reports
    success with nothing synced, the server has received no request, and
    the record is as dirty as before. *)
Theorem syncPendingOrders_leaves_dirty_behind :
  getAll oneDirty
    = [cached 1 (JStr "s1") (JStr "A-1") "ready" 100 (JBool true) (JBool true)]
  /\ syncPendingOrders (world oneDirty twoRemote true)
     = (Ok (PushDone 0), world oneDirty twoRemote true)
  /\ received (backend (snd (syncPendingOrders (world oneDirty twoRemote true)))) = [].
Proof. repeat split. Qed.

(** The same dirty record is pushed once an unsynced record keeps the
    function from returning early. *)
Example syncPendingOrders_pushes_dirty_next_to_pending :
  let w' := snd (syncPendingOrders (world dirtyAndPending twoRemote true)) in
  In (PatchStatus (JStr "s1") (JStr "ready")) (received (backend w'))
  /\ map dirty (getAll (store w')) = [JBool false; JUndefined].
Proof. cbv zeta. split; [right; left |]; reflexivity. Qed.

(** Orders that arrive without a local key are given fresh keys by every
    pull: the keys after the second pull are not those after the first. *)
Lemma pull_twice_changes_keys :
  let first := snd (getAllOrders (world Store.empty twoRemote true)) in
  let second := snd (getAllOrders first) in
  held (backend first) = held twoRemote
  /\ map id (getAll (store first)) = [JNum 1; JNum 2]
  /\ map id (getAll (store second)) = [JNum 3; JNum 4]
  /\ getAll (store second) <> getAll (store first).
Proof.
  cbv zeta. repeat split; try reflexivity. discriminate.
Qed.

Lemma pull_twice_witness :
  let first := snd (getAllOrders (world Store.empty twoKeyed true)) in
  let second := snd (getAllOrders first) in
  map id (getAll (store first)) = [JNum 3; JNum 7]
  /\ store second = store first.
Proof.
  cbv zeta. split; [reflexivity |].
  apply (pull_twice (held twoKeyed) (world Store.empty twoKeyed true)
           (logRequest GetOrders twoKeyed)
           (logRequest GetOrders (logRequest GetOrders twoKeyed))).
  - reflexivity.
  - reflexivity.
  - reflexivity.
  - repeat constructor; discriminate.
Defined.

End DbFacts.

(* ================================================================== *)
(** * Further properties of the retry helper *)
(* ================================================================== *)

Module RetryRuns.

Import Double Retry DoubleFacts RetryFacts.
Local Open Scope Z_scope.

Section Backoff.

Variables A E : Type.
Variable fn : nat -> Outcome A E.
Variable pow : float -> Z -> float.
Variable random : nat -> float.
Variable o : Options E.





Lemma backoffLoop_bounds fuel attempt lastError ncalls slept run :
  backoffLoop fn pow random o fuel attempt lastError ncalls slept = Some run ->
  attempt = Z.of_nat ncalls + 1 ->
  List.length slept = ncalls ->
  (attempt <= maxAttempts o \/ ncalls = 0%nat) ->
  (ncalls = 0%nat /\ calls run = 0%nat /\ result run = Threw lastError
   /\ sleeps run = slept)
  \/ ((ncalls < calls run)%nat /\ Z.of_nat (calls run) <= maxAttempts o
      /\ List.length (sleeps run) = pred (calls run)).
Proof.
  revert attempt lastError ncalls slept.
  induction fuel as [|fuel IH]; intros attempt lastError ncalls slept Hrun Hatt Hlen Hin;
    simpl in Hrun.
  - destruct (Z.leb_spec attempt (maxAttempts o)); [discriminate |].
    injection Hrun as <-. simpl. left. assert (ncalls = 0%nat) by lia. now subst.
  - destruct (Z.leb_spec attempt (maxAttempts o)) as [Hle | Hgt].
    2:{ injection Hrun as <-. simpl. left. assert (ncalls = 0%nat) by lia. now subst. }
    destruct (fn (S ncalls)).
    { injection Hrun as <-. simpl. right. repeat split; lia. }
    destruct (Z.eqb_spec attempt (maxAttempts o)) as [Heq | Hne]; simpl in Hrun.
    { injection Hrun as <-. simpl. right. repeat split; lia. }
    destruct (negb _).
    { injection Hrun as <-. simpl. right. repeat split; lia. }
    destruct (IH _ _ _ _ Hrun) as [(Hzero & _) | (Hlt & Hmax & Hsl)].
    + lia.
    + rewrite length_app. simpl. lia.
    + left. lia.
    + discriminate.
    + right. repeat split; [lia | exact Hmax | exact Hsl].
Qed.

(** X2. Whatever the operation does, the helper invokes it at most
    [maxAttempts] times and sleeps exactly once between two consecutive
    invocations; and if it never invoked the operation, what it threw is
    [null]. *)
Theorem backoff_call_budget :
  exists run,
    exponentialBackoff fn pow random o = Some run
    /\ Z.of_nat (calls run) <= Z.max 0 (maxAttempts o)
    /\ List.length (sleeps run) = pred (calls run)
    /\ (calls run = 0%nat -> result run = Threw None).
Proof.
  destruct (exponentialBackoff_total A E fn pow random o) as [run Hrun].
  exists run. split; [exact Hrun |].
  destruct (backoffLoop_bounds _ _ _ _ _ _ Hrun eq_refl eq_refl (or_intror eq_refl))
    as [(_ & Hzero & Hres & Hsl) | (Hlt & Hmax & Hsl)].
  - rewrite Hzero, Hsl. repeat split; [lia | exact (fun _ => Hres)].
  - repeat split; [lia | exact Hsl | lia].
Qed.

Lemma backoffLoop_waits_all (P : float -> Prop) :
  (forall attempt k, P (actualDelay pow o attempt (random k))) ->
  forall fuel attempt lastError ncalls slept run,
    backoffLoop fn pow random o fuel attempt lastError ncalls slept = Some run ->
    Forall P slept -> Forall P (sleeps run).
Proof.
  intros Hall. induction fuel as [|fuel IH];
    intros attempt lastError ncalls slept run Hrun Hslept; simpl in Hrun.
  - destruct (attempt <=? maxAttempts o); [discriminate |]. now injection Hrun as <-.
  - destruct (attempt <=? maxAttempts o); [| now injection Hrun as <-].
    destruct (fn (S ncalls)); [now injection Hrun as <- |].
    destruct (_ || _); [now injection Hrun as <- |].
    apply (IH _ _ _ _ _ Hrun). apply Forall_app. split; [exact Hslept |].
    constructor; [apply Hall | constructor].
Qed.

(** X3. The wait after attempt [i + 1] is that attempt's capped delay
    plus its jitter; and when the capped delay is a non-negative number
    and [maxDelay] is finite, the wait is not shorter than the capped
    delay and not longer than [maxDelay + maxDelay * 0.1], all in double
    arithmetic. *)
Theorem backoff_waits_capped :
  (forall k, (0 <=? random k)%float = true /\ (random k <? 1)%float = true) ->
  (maxDelay o <? infinity)%float = true ->
  exists run,
    exponentialBackoff fn pow random o = Some run
    /\ forall (i : nat) (w : float),
         nth_error (sleeps run) i = Some w ->
         let d := Math_min (baseDelay o * Math_pow pow (backoffMultiplier o) (Z.of_nat i))%float
                           (maxDelay o) in
         w = (d + d * random i * 0.1)%float
         /\ ((0 <=? d)%float = true ->
             (d <=? w)%float = true
             /\ (w <=? maxDelay o + maxDelay o * 0.1)%float = true).
Proof.
  intros Hr Hmax.
  destruct (exponentialBackoff_total A E fn pow random o) as [run Hrun].
  exists run. split; [exact Hrun |]. intros i w Hnth. cbv zeta.
  assert (Hin : (i < List.length (sleeps run))%nat).
  { apply nth_error_Some. now rewrite Hnth. }
  assert (Hcalls : (S i < calls run)%nat).
  { destruct (backoffLoop_bounds _ _ _ _ _ _ Hrun eq_refl eq_refl (or_intror eq_refl))
      as [(_ & _ & _ & Hsl) | (_ & _ & Hsl)].
    - rewrite Hsl in Hin. simpl in Hin. lia.
    - lia. }
  pose proof (@backoffLoop_sleeps A E fn pow random o _ 1 None 0%nat [] run Hrun
                eq_refl eq_refl ltac:(intros k Hk; lia) i Hcalls) as Hs.
  rewrite Hs in Hnth. injection Hnth as <-.
  unfold actualDelay, jitter, delay.
  replace (Z.of_nat i + 1 - 1) with (Z.of_nat i) by lia.
  split; [reflexivity |].
  intros Hd. destruct (Hr i) as [H0 H1].
  apply wait_bounds; try assumption. now apply Math_min_le_r.
Qed.

(** X4. With [maxAttempts <= 0] the loop body never runs: the operation
    is not invoked, nothing is slept, and the helper throws [null]. *)
Theorem backoff_no_attempts_throws_null :
  maxAttempts o <= 0 ->
  exponentialBackoff fn pow random o = Some (mkRun (Threw None) 0 []).
Proof.
  intros Hmax. unfold exponentialBackoff.
  destruct (Z.to_nat (maxAttempts o)); simpl;
    destruct (Z.leb_spec 1 (maxAttempts o)); (lia || reflexivity).
Qed.

End Backoff.

Section Simple.

Variables A E : Type.
Variable fn : nat -> Outcome A E.
Variable attempts : Z.
Variable delayMs : float.

Lemma repeat_snoc (n : nat) :
  (repeat delayMs n ++ [delayMs])%list = repeat delayMs (S n).
Proof. now rewrite <- repeat_cons. Qed.

Lemma simpleLoop_succeeds (k : nat) (a : A) :
  Z.of_nat k <= attempts ->
  fn k = Resolved a ->
  (forall j, (1 <= j < k)%nat -> exists e, fn j = Rejected e) ->
  forall fuel ncalls lastError,
    (ncalls < k)%nat ->
    (k - ncalls <= fuel)%nat ->
    simpleLoop fn attempts delayMs fuel (Z.of_nat ncalls) lastError ncalls
               (repeat delayMs ncalls)
    = Some (mkRun (Returned a) k (repeat delayMs (k - 1))).
Proof.
  intros Hmax Hok Hbefore.
  induction fuel as [|fuel IH]; intros ncalls lastError Hlt Hfuel; [lia |].
  simpl. destruct (Z.ltb_spec (Z.of_nat ncalls) attempts); [| lia].
  destruct (Nat.eq_dec (S ncalls) k) as [Heq | Hne].
  - rewrite Heq, Hok. subst k. now rewrite Nat.sub_1_r.
  - destruct (Hbefore (S ncalls)) as (e & He); [lia |]. rewrite He.
    destruct (Z.ltb_spec (Z.of_nat ncalls) (attempts - 1)); [| lia].
    rewrite repeat_snoc.
    replace (Z.of_nat ncalls + 1) with (Z.of_nat (S ncalls)) by lia.
    apply IH; lia.
Qed.

(** X5. If the [k]-th invocation is the first to resolve and [k] is
    within [attempts], the fixed-delay helper returns that value after
    exactly [k] invocations and [k - 1] waits of [delayMs] each. *)
Theorem simpleRetry_returns_first_success (k : nat) (a : A) :
  (1 <= k)%nat ->
  Z.of_nat k <= attempts ->
  fn k = Resolved a ->
  (forall j, (1 <= j < k)%nat -> exists e, fn j = Rejected e) ->
  simpleRetry fn attempts delayMs
  = Some (mkRun (Returned a) k (repeat delayMs (k - 1))).
Proof.
  intros Hk Hmax Hok Hbefore.
  apply (simpleLoop_succeeds k a Hmax Hok Hbefore (Z.to_nat attempts) 0%nat None); lia.
Qed.

Lemma simpleLoop_all_fail (errs : nat -> E) :
  (forall j, fn j = Rejected (errs j)) ->
  forall fuel ncalls lastError,
    Z.of_nat ncalls < attempts ->
    attempts - Z.of_nat ncalls <= Z.of_nat fuel ->
    simpleLoop fn attempts delayMs fuel (Z.of_nat ncalls) lastError ncalls
               (repeat delayMs ncalls)
    = Some (mkRun (Threw (Some (errs (Z.to_nat attempts)))) (Z.to_nat attempts)
                  (repeat delayMs (Z.to_nat attempts - 1))).
Proof.
  intros Hfail.
  induction fuel as [|fuel IH]; intros ncalls lastError Hlt Hfuel; [lia |].
  simpl. destruct (Z.ltb_spec (Z.of_nat ncalls) attempts); [| lia].
  rewrite Hfail.
  destruct (Z.ltb_spec (Z.of_nat ncalls) (attempts - 1)) as [Hmore | Hlast].
  - rewrite repeat_snoc.
    replace (Z.of_nat ncalls + 1) with (Z.of_nat (S ncalls)) by lia.
    apply IH; lia.
  - assert (Hn : Z.to_nat attempts = S ncalls) by lia.
    rewrite Hn. simpl. rewrite Nat.sub_0_r.
    destruct fuel; simpl;
      destruct (Z.ltb_spec (Z.of_nat ncalls + 1) attempts); (lia || reflexivity).
Qed.

(** X6. An operation that rejects every time makes the fixed-delay helper
    invoke it exactly [attempts] times, wait [delayMs] between two
    consecutive invocations but not after the last, and throw the error
    of the last invocation. *)
Theorem simpleRetry_rethrows_last_error (errs : nat -> E) :
  (forall j, fn j = Rejected (errs j)) ->
  1 <= attempts ->
  simpleRetry fn attempts delayMs
  = Some (mkRun (Threw (Some (errs (Z.to_nat attempts)))) (Z.to_nat attempts)
                (repeat delayMs (Z.to_nat attempts - 1))).
Proof.
  intros Hfail Hpos.
  apply (simpleLoop_all_fail errs Hfail (Z.to_nat attempts) 0%nat None); lia.
Qed.

End Simple.


Lemma backoff_waits_capped_witness :
  exists run,
    exponentialBackoff alwaysFails exactPow almostOne scenario = Some run
    /\ sleeps run = [110; 220; 440; 880]%float
    /\ (110 <=? 30000 + 30000 * 0.1)%float = true
    /\ (100 <=? 110)%float = true.
Proof.
  destruct (backoff_waits_capped unit Z alwaysFails exactPow almostOne scenario)
    as (run & Hrun & Hall).
  - intros k. split; reflexivity.
  - reflexivity.
  - exists run. split; [exact Hrun |].
    assert (Hsl : sleeps run = [110; 220; 440; 880]%float).
    { vm_compute in Hrun. injection Hrun as <-. reflexivity. }
    split; [exact Hsl |].
    destruct (Hall 0%nat 110%float) as (_ & Hbounds).
    + rewrite Hsl. reflexivity.
    + destruct Hbounds as [Hlo Hhi]; [reflexivity |]. split; [exact Hhi | exact Hlo].
Defined.

Lemma backoff_no_attempts_throws_null_witness :
  exponentialBackoff alwaysFails exactPow half
    (mkOptions 0 100%float 30000%float 2%float (None : option (Z -> Z -> bool)))
  = Some (mkRun (Threw None) 0 []).
Proof.
  apply (backoff_no_attempts_throws_null unit Z alwaysFails exactPow half). simpl. lia.
Defined.

Lemma simpleRetry_returns_first_success_witness :
  simpleRetry (flaky 2) 3 1000%float
  = Some (mkRun (Returned tt) 3 (repeat 1000%float (3 - 1))).
Proof.
  apply (simpleRetry_returns_first_success unit Z (flaky 2) 3 1000%float 3 tt).
  - lia.
  - lia.
  - reflexivity.
  - intros j Hj. exists 503. destruct j as [|[|[|j]]]; try lia; reflexivity.
Defined.

Lemma simpleRetry_rethrows_last_error_witness :
  simpleRetry alwaysFails 3 1000%float
  = Some (mkRun (Threw (Some 503)) (Z.to_nat 3) (repeat 1000%float (Z.to_nat 3 - 1))).
Proof.
  apply (simpleRetry_rethrows_last_error unit Z alwaysFails 3 1000%float (fun _ => 503)).
  - intros j. reflexivity.
  - lia.
Defined.

End RetryRuns.

(* ================================================================== *)
(** * Further properties of the server locator *)
(* ================================================================== *)

Module LocatorRuns.

Import Locator LocatorFacts.
Local Open Scope string_scope.
Local Open Scope Z_scope.

(** Walk through every branch of [detectBest]. *)
Ltac detectBest_cases probe st w onLine :=
  unfold detectBest, isServerAvailable, remember;
  let h1 := fresh "h1" in let w1 := fresh "w1" in
  let h2 := fresh "h2" in let w2 := fresh "w2" in
  let h3 := fresh "h3" in let w3 := fresh "w3" in
  destruct (probe (localhostUrl (SERVER_URLS st)) 2000 w) as [h1 w1];
  destruct (answers h1) eqn:?; simpl;
  [| destruct (negb (localUrl (SERVER_URLS st) =? localhostUrl (SERVER_URLS st))%string)
       eqn:?;
     [ destruct (probe (localUrl (SERVER_URLS st)) 2000 w1) as [h2 w2];
       destruct (answers h2) eqn:?; simpl;
       [| destruct onLine; simpl;
          [ destruct (negb (cloudUrl (SERVER_URLS st) =? localhostUrl (SERVER_URLS st))%string)
              eqn:?;
            [ destruct (probe (cloudUrl (SERVER_URLS st)) 3000 w2) as [h3 w3];
              destruct (answers h3) eqn:?; simpl | ]
          | ] ]
     | destruct onLine; simpl;
       [ destruct (negb (cloudUrl (SERVER_URLS st) =? localhostUrl (SERVER_URLS st))%string)
           eqn:?;
         [ destruct (probe (cloudUrl (SERVER_URLS st)) 3000 w1) as [h3 w3];
           destruct (answers h3) eqn:?; simpl | ]
       | ] ] ].

Section Probing.

Variable W : Type.
Variable probe : string -> Z -> W -> Health * W.

Lemma getServerUrl_miss now onLine st w :
  cachedMode st = None \/ CACHE_DURATION <= now - lastCheck st ->
  getServerUrl probe now onLine st w = detectBest probe now onLine st w.
Proof.
  intros Hmiss. unfold getServerUrl. destruct (cachedMode st) as [m|]; [| reflexivity].
  destruct Hmiss as [Hm | Hold]; [discriminate |].
  destruct (Z.ltb_spec (now - lastCheck st) CACHE_DURATION); [lia | reflexivity].
Qed.

(** Every resolution of [detectBest] is remembered under the key it was
    given out for. *)
Lemma detectBest_remembers now onLine st w :
  exists m,
    resolution (fst (fst (detectBest probe now onLine st w)))
      = mkResolution (urlOf (SERVER_URLS st) m) (modeOfCached m)
    /\ snd (fst (detectBest probe now onLine st w))
       = mkState (SERVER_URLS st) (Some m) now.
Proof.
  detectBest_cases probe st w onLine;
    first [ now exists localhost | now exists local | now exists cloud ].
Qed.

(** X7. A resolution found by probing is answered again from the cache,
    without a single probe and without touching the state, by every call
    made less than [CACHE_DURATION] (5 s) after it. *)
Theorem getServerUrl_reuses_cache now onLine now' onLine' st w :
  cachedMode st = None \/ CACHE_DURATION <= now - lastCheck st ->
  now' - now < CACHE_DURATION ->
  getServerUrl probe now' onLine'
               (snd (fst (getServerUrl probe now onLine st w)))
               (snd (getServerUrl probe now onLine st w))
  = (mkProbed (resolution (fst (fst (getServerUrl probe now onLine st w)))) [],
     snd (fst (getServerUrl probe now onLine st w)),
     snd (getServerUrl probe now onLine st w)).
Proof.
  intros Hmiss Hsoon. rewrite (getServerUrl_miss now onLine st w Hmiss).
  destruct (detectBest_remembers now onLine st w) as (m & Hres & Hst).
  rewrite Hres, Hst. unfold getServerUrl. simpl.
  destruct (Z.ltb_spec (now' - now) CACHE_DURATION); [reflexivity | lia].
Qed.

(** X8. Whatever the cache and the network, [getServerUrl] hands out one
    of the three configured servers under its own mode name; it never
    reports ['disconnected']. *)
Theorem getServerUrl_range now onLine st w :
  let r := resolution (fst (fst (getServerUrl probe now onLine st w))) in
  (r = mkResolution (localhostUrl (SERVER_URLS st)) "localhost"
   \/ r = mkResolution (localUrl (SERVER_URLS st)) "local"
   \/ r = mkResolution (cloudUrl (SERVER_URLS st)) "online")
  /\ mode r <> "disconnected".
Proof.
  cbv zeta.
  assert (Hm : exists m,
             resolution (fst (fst (getServerUrl probe now onLine st w)))
             = mkResolution (urlOf (SERVER_URLS st) m) (modeOfCached m)).
  { unfold getServerUrl. destruct (cachedMode st) as [m|].
    - destruct (now - lastCheck st <? CACHE_DURATION).
      + now exists m.
      + destruct (detectBest_remembers now onLine st w) as (m' & Hres & _). now exists m'.
    - destruct (detectBest_remembers now onLine st w) as (m' & Hres & _). now exists m'. }
  destruct Hm as (m & ->). destruct m; simpl; split; auto; discriminate.
Qed.

(** X9. On a cache miss the probes follow a fixed plan: the localhost
    entry, then the local entry unless it is the same URL as the
    localhost entry, then the cloud entry unless the browser is offline
    or it is the same URL as the localhost entry. The probes made are an
    initial part of that plan, each step taken once, and the rest of the
    plan is left out only behind a probe that answered. *)
Theorem getServerUrl_probe_plan now onLine st w :
  cachedMode st = None \/ CACHE_DURATION <= now - lastCheck st ->
  let urls := SERVER_URLS st in
  let made := probes (fst (fst (getServerUrl probe now onLine st w))) in
  exists skipped,
    ([localhostUrl urls]
     ++ (if negb (localUrl urls =? localhostUrl urls)%string then [localUrl urls] else [])
     ++ (if onLine && negb (cloudUrl urls =? localhostUrl urls)%string
         then [cloudUrl urls] else []))%list
    = (map fst made ++ skipped)%list
    /\ (skipped <> [] ->
        exists ahead p, made = (ahead ++ [p])%list /\ answers (snd p) = true).
Proof.
  intros Hmiss. cbv zeta. rewrite (getServerUrl_miss now onLine st w Hmiss).
  detectBest_cases probe st w onLine;
    first
      [ exists []; split; [reflexivity | intros Hrest; now destruct Hrest]
      | eexists; split; [reflexivity |]; intros _;
        first
          [ exists []; eexists; split; [reflexivity | assumption]
          | eexists [_]; eexists; split; [reflexivity | assumption]
          | eexists [_; _]; eexists; split; [reflexivity | assumption] ] ].
Qed.

(** X10. On a cache miss the first candidate that answers wins: either
    no probe answered, or the probes stop at the first answer and the
    resolution is the URL that gave it. *)
Theorem getServerUrl_first_answer_wins now onLine st w :
  cachedMode st = None \/ CACHE_DURATION <= now - lastCheck st ->
  let r := fst (fst (getServerUrl probe now onLine st w)) in
  Forall failed (probes r)
  \/ exists ahead u h,
       probes r = (ahead ++ [(u, h)])%list
       /\ Forall failed ahead
       /\ answers h = true
       /\ url (resolution r) = u.
Proof.
  intros Hmiss. cbv zeta. rewrite (getServerUrl_miss now onLine st w Hmiss).
  detectBest_cases probe st w onLine;
    first
      [ left; repeat constructor; assumption
      | right;
        first
          [ exists []; do 2 eexists; split; [reflexivity |];
            split; [constructor |]; split; [eassumption | reflexivity]
          | eexists [_]; do 2 eexists; split; [reflexivity |];
            split; [repeat constructor; assumption |];
            split; [eassumption | reflexivity]
          | eexists [_; _]; do 2 eexists; split; [reflexivity |];
            split; [repeat constructor; assumption |];
            split; [eassumption | reflexivity] ] ].
Qed.


(** Where the candidates of [detectServerUrl] are probed in list order. *)
Lemma detectLoop_first_answer_wins urls : forall made w,
  let r := fst (detectLoop probe urls made w) in
  ((exists tried,
       probes r = (made ++ tried)%list
       /\ map fst tried = urls
       /\ Forall failed tried
       /\ resolution r = mkResolution "http://localhost:3001" "disconnected")
   \/ exists ahead u h behind,
       probes r = (made ++ ahead ++ [(u, h)])%list
       /\ urls = (map fst ahead ++ u :: behind)%list
       /\ Forall failed ahead
       /\ answers h = true
       /\ resolution r = mkResolution u (modeOfUrl u)).
Proof.
  induction urls as [|u rest IH]; intros made w; cbv zeta.
  - left. exists []. simpl. rewrite app_nil_r. repeat split. constructor.
  - simpl. destruct (probe u 2000 w) as [h w'] eqn:Hp.
    destruct (answers h) eqn:Hans; simpl.
    + right. exists [], u, h, rest. repeat split; [constructor | exact Hans].
    + destruct (IH (made ++ [(u, h)])%list w') as [Hall | Hsome].
      * left. destruct Hall as (tried & Hpr & Hurls & Hfail & Hres).
        exists ((u, h) :: tried). rewrite Hpr, <- app_assoc. simpl.
        repeat split; [now rewrite Hurls | | exact Hres].
        constructor; [exact Hans | exact Hfail].
      * right. destruct Hsome as (ahead & u' & h' & behind & Hpr & Hurls & Hfail & Ha & Hres).
        exists ((u, h) :: ahead), u', h', behind. rewrite Hpr, <- app_assoc. simpl.
        repeat split; [now rewrite Hurls | | exact Ha | exact Hres].
        constructor; [exact Hans | exact Hfail].
Qed.

(** X12. [detectServerUrl] probes its candidates in list order and stops
    at the first that answers, handing out that URL with the mode read off
    the URL; if none answers it has probed every candidate once. *)
Theorem detectServerUrl_first_answer_wins (VITE_BACKEND_URL : option string) (w : W) :
  let r := fst (detectServerUrl probe VITE_BACKEND_URL w) in
  (Forall failed (probes r)
   /\ map fst (probes r) = urlsToCheck VITE_BACKEND_URL
   /\ resolution r = mkResolution "http://localhost:3001" "disconnected")
  \/ exists ahead u h behind,
       probes r = (ahead ++ [(u, h)])%list
       /\ urlsToCheck VITE_BACKEND_URL = (map fst ahead ++ u :: behind)%list
       /\ Forall failed ahead
       /\ answers h = true
       /\ resolution r = mkResolution u (modeOfUrl u).
Proof.
  cbv zeta. unfold detectServerUrl.
  destruct (detectLoop_first_answer_wins (urlsToCheck VITE_BACKEND_URL) [] w)
    as [(tried & Hpr & Hurls & Hfail & Hres) | (ahead & u & h & behind & Hpr & Hrest)].
  - left. simpl in Hpr. rewrite Hpr. auto.
  - right. exists ahead, u, h, behind. simpl in Hpr. now rewrite Hpr.
Qed.

End Probing.

Lemma getServerUrl_reuses_cache_witness :
  let lan := onlyServer "http://192.168.1.50:3001" in
  let first := getServerUrl lan 1000000 true (mkState deployedUrls None 0) tt in
  resolution (fst (fst first)) = mkResolution "http://192.168.1.50:3001" "local"
  /\ getServerUrl lan 1004999 true (snd (fst first)) (snd first)
     = (mkProbed (resolution (fst (fst first))) [], snd (fst first), snd first).
Proof.
  cbv zeta. split; [reflexivity |].
  apply (getServerUrl_reuses_cache unit (onlyServer "http://192.168.1.50:3001")
           1000000 true 1004999 true (mkState deployedUrls None 0) tt).
  - left. reflexivity.
  - unfold CACHE_DURATION. lia.
Defined.

Lemma getServerUrl_probe_plan_witness :
  let made := probes (fst (fst (getServerUrl deadNetwork 1000000 false
                                             (mkState deployedUrls None 0) tt))) in
  map fst made = ["http://localhost:3001"; "http://192.168.1.50:3001"]
  /\ exists skipped,
       ["http://localhost:3001"; "http://192.168.1.50:3001"] = (map fst made ++ skipped)%list
       /\ (skipped <> [] ->
           exists ahead p, made = (ahead ++ [p])%list /\ answers (snd p) = true).
Proof.
  cbv zeta. split; [reflexivity |].
  apply (getServerUrl_probe_plan unit deadNetwork 1000000 false
           (mkState deployedUrls None 0) tt).
  left. reflexivity.
Defined.

Lemma getServerUrl_first_answer_wins_witness :
  let r := fst (fst (getServerUrl (onlyServer "https://pos.example-cloud.com")
                                  1000000 true (mkState deployedUrls None 0) tt)) in
  url (resolution r) = "https://pos.example-cloud.com"
  /\ (Forall failed (probes r)
      \/ exists ahead u h,
           probes r = (ahead ++ [(u, h)])%list
           /\ Forall failed ahead /\ answers h = true /\ url (resolution r) = u).
Proof.
  cbv zeta. split; [reflexivity |].
  apply (getServerUrl_first_answer_wins unit (onlyServer "https://pos.example-cloud.com")
           1000000 true (mkState deployedUrls None 0) tt).
  left. reflexivity.
Defined.

End LocatorRuns.

(* ================================================================== *)
(** * Every service keeps the store in shape *)
(* ================================================================== *)

Module DbShape.

Import Js Store Effects Db Dashboard StoreFacts StoreShape DbFacts.
Local Open Scope string_scope.
Local Open Scope Z_scope.

Section Services.

Context {W : Type} {B : Backend W}.

(** ** The monadic plumbing *)

Lemma keeps_ret {A} (a : A) : keeps (W := W) (ret a).
Proof. intros w Hwf. exact Hwf. Qed.

Lemma keeps_throw {A} (e : string) : keeps (W := W) (throw (A := A) e).
Proof. intros w Hwf. exact Hwf. Qed.

Lemma keeps_bind {A C} (m : M W A) (k : A -> M W C) :
  keeps m -> (forall a, keeps (k a)) -> keeps (bind m k).
Proof.
  intros Hm Hk w Hwf. unfold bind. specialize (Hm w Hwf).
  destruct (m w) as [[a | e] w1]; simpl in *; [now apply Hk | exact Hm].
Qed.

Lemma keeps_tryCatch {A} (m : M W A) (h : string -> M W A) :
  keeps m -> (forall e, keeps (h e)) -> keeps (tryCatch m h).
Proof.
  intros Hm Hh w Hwf. unfold tryCatch. specialize (Hm w Hwf).
  destruct (m w) as [[a | e] w1]; simpl in *; [exact Hm | now apply Hh].
Qed.

Lemma keeps_call {A} (f : W -> Res A * W) : keeps (call f).
Proof.
  intros w Hwf. unfold call. destruct (f (backend w)). exact Hwf.
Qed.

Lemma keeps_onLine : keeps (W := W) onLine.
Proof. intros w Hwf. exact Hwf. Qed.

Lemma keeps_show (e : UiEvent) : keeps (W := W) (show e).
Proof. intros w Hwf. exact Hwf. Qed.

(** ** The [idb] calls *)

Lemma keeps_dbGetAll : keeps (W := W) dbGetAll.
Proof. intros w Hwf. exact Hwf. Qed.

Lemma keeps_dbGet (query : value) : keeps (W := W) (dbGet query).
Proof. intros w Hwf. unfold dbGet. destruct (toKey query); exact Hwf. Qed.

Lemma keeps_dbPut (o : Order) : keeps (W := W) (dbPut o).
Proof.
  intros w Hwf. unfold dbPut. step.
  destruct (write false o (store w)) eqn:Hwrite; step; try exact Hwf.
  eapply write_wellFormed; eassumption.
Qed.

Lemma keeps_dbDelete (query : value) : keeps (W := W) (dbDelete query).
Proof.
  intros w Hwf. unfold dbDelete. destruct (toKey query); step; [| exact Hwf].
  now apply remove_wellFormed.
Qed.

Lemma keeps_dbClear : keeps (W := W) dbClear.
Proof. intros w Hwf. unfold dbClear. step. apply clear_wellFormed. Qed.

Lemma keeps_replaceAll (json : OrdersJson) : keeps (W := W) (replaceAll json).
Proof.
  intros w Hwf. unfold replaceAll. step. destruct json as [orders |]; step.
  - destruct (addAll orders (clear (store w))) eqn:Hrun; step; try exact Hwf.
    + eapply addAll_wellFormed; [apply clear_wellFormed | left; exact Hrun].
    + eapply addAll_wellFormed; [apply clear_wellFormed | right; exact Hrun].
  - apply clear_wellFormed.
Qed.

Lemma putAll_wellFormed orders : forall s s',
  wellFormed s ->
  putAll orders s = Committed s' \/ putAll orders s = Interrupted s' ->
  wellFormed s'.
Proof.
  induction orders as [|o rest IH]; simpl; intros s s' Hwf Hrun.
  - destruct Hrun as [[= <-] | [=]]. exact Hwf.
  - destruct (write false o s) as [s1 | |] eqn:Hput.
    + apply (IH s1 s'); [| exact Hrun]. eapply write_wellFormed; eassumption.
    + destruct Hrun as [[=] | [= <-]]. exact Hwf.
    + destruct Hrun; discriminate.
Qed.

(** ** The exported functions *)

Create HintDb keeps.

#[local] Hint Resolve keeps_ret keeps_throw keeps_call keeps_onLine keeps_show
  keeps_dbGetAll keeps_dbGet keeps_dbPut keeps_dbDelete keeps_dbClear
  keeps_replaceAll : keeps.

(** Take a computation apart along its binds, catches and branches. *)
Ltac keeps_steps :=
  repeat first
    [ solve [auto with keeps]
    | apply keeps_bind; [| intros ?]
    | apply keeps_tryCatch; [| intros ?]
    | match goal with
      | |- keeps (if ?b then _ else _) => destruct b
      | |- keeps (match ?x with _ => _ end) => destruct x
      end ].

Lemma keeps_getAllOrders : keeps (W := W) getAllOrders.
Proof. unfold getAllOrders. keeps_steps. Qed.

Lemma keeps_findOrder query : keeps (W := W) (findOrder query).
Proof. unfold findOrder. keeps_steps. Qed.

Lemma keeps_updateOrderStatus query newStatus :
  keeps (W := W) (updateOrderStatus query newStatus).
Proof. unfold updateOrderStatus. pose proof keeps_findOrder. keeps_steps. Qed.

Lemma keeps_saveOrder o : keeps (W := W) (saveOrder o).
Proof. unfold saveOrder. keeps_steps. Qed.

Lemma keeps_deleteOrder query : keeps (W := W) (deleteOrder query).
Proof. unfold deleteOrder. pose proof keeps_findOrder. keeps_steps. Qed.

Lemma keeps_syncWithServer : keeps (W := W) syncWithServer.
Proof. unfold syncWithServer. pose proof keeps_getAllOrders. keeps_steps. Qed.

Lemma keeps_markOrderAsSynced query : keeps (W := W) (markOrderAsSynced query).
Proof. unfold markOrderAsSynced. keeps_steps. Qed.

Lemma keeps_storeSynced orders : keeps (W := W) (storeSynced orders).
Proof.
  induction orders as [|o rest IH]; simpl.
  - apply keeps_ret.
  - pose proof keeps_markOrderAsSynced. pose proof keeps_saveOrder. keeps_steps.
Qed.

Lemma keeps_resolveServerId d : keeps (W := W) (resolveServerId d).
Proof. unfold resolveServerId. keeps_steps. Qed.

Lemma keeps_pushDirty d : keeps (W := W) (pushDirty d).
Proof. unfold pushDirty. pose proof keeps_resolveServerId. keeps_steps. Qed.

Lemma keeps_pushAllDirty ds : keeps (W := W) (pushAllDirty ds).
Proof.
  induction ds as [|d rest IH]; simpl.
  - apply keeps_ret.
  - pose proof keeps_pushDirty. keeps_steps.
Qed.

Lemma keeps_syncPendingOrders : keeps (W := W) syncPendingOrders.
Proof.
  unfold syncPendingOrders, getUnsyncedOrders, syncedOrdersOf.
  pose proof keeps_storeSynced. pose proof keeps_pushAllDirty. keeps_steps.
Qed.

Lemma keeps_importAllData orders : keeps (W := W) (importAllData orders).
Proof.
  intros w Hwf. unfold importAllData. destruct orders as [[|o rest] |]; try exact Hwf.
  step. destruct (putAll (o :: rest) (store w)) eqn:Hrun; step; try exact Hwf.
  - eapply putAll_wellFormed; [exact Hwf | left; exact Hrun].
  - eapply putAll_wellFormed; [exact Hwf | right; exact Hrun].
Qed.

Lemma keeps_loadData network : keeps (W := W) (loadData network).
Proof. unfold loadData. pose proof keeps_getAllOrders. keeps_steps. Qed.

Lemma keeps_handleDeleteOrder network orders confirmed orderKey :
  keeps (W := W) (handleDeleteOrder network orders confirmed orderKey).
Proof.
  unfold handleDeleteOrder, deleteRemote.
  pose proof keeps_deleteOrder. pose proof keeps_syncWithServer.
  pose proof keeps_resolveServerId. pose proof keeps_loadData. keeps_steps.
Qed.

Lemma keeps_handleStatusUpdate network orders query newStatus :
  keeps (W := W) (handleStatusUpdate network orders query newStatus).
Proof.
  unfold handleStatusUpdate, updateRemote.
  pose proof keeps_updateOrderStatus. pose proof keeps_syncWithServer.
  pose proof keeps_resolveServerId. pose proof keeps_loadData. keeps_steps.
Qed.

(** X13. Strictly ascending keys, every record carrying its key in [id],
    and a key generator past every numeric key: this shape of the cache
    is kept by every function the module exports and by the dashboard
    handlers that call them, whatever the backend answers and however the
    call ends. *)
Theorem store_shape_is_invariant (w : World W) :
  wellFormed (store w) ->
  wellFormed (store (snd (getAllOrders w)))
  /\ (forall query newStatus,
         wellFormed (store (snd (updateOrderStatus query newStatus w))))
  /\ (forall order, wellFormed (store (snd (saveOrder order w))))
  /\ wellFormed (store (snd (clearOrders w)))
  /\ (forall query, wellFormed (store (snd (deleteOrder query w))))
  /\ wellFormed (store (snd (syncWithServer w)))
  /\ (forall query, wellFormed (store (snd (markOrderAsSynced query w))))
  /\ wellFormed (store (snd (syncPendingOrders w)))
  /\ (forall orders, wellFormed (store (snd (importAllData orders w))))
  /\ (forall network orders confirmed orderKey,
         wellFormed (store (snd (handleDeleteOrder network orders confirmed orderKey w))))
  /\ (forall network orders query newStatus,
         wellFormed (store (snd (handleStatusUpdate network orders query newStatus w)))).
Proof.
  intros Hwf. repeat match goal with |- _ /\ _ => split end; intros.
  - now apply keeps_getAllOrders.
  - now apply keeps_updateOrderStatus.
  - now apply keeps_saveOrder.
  - now apply keeps_dbClear.
  - now apply keeps_deleteOrder.
  - now apply keeps_syncWithServer.
  - now apply keeps_markOrderAsSynced.
  - now apply keeps_syncPendingOrders.
  - now apply keeps_importAllData.
  - now apply keeps_handleDeleteOrder.
  - now apply keeps_handleStatusUpdate.
Qed.

End Services.

End DbShape.

(* ================================================================== *)
(** * Further properties of the services *)
(* ================================================================== *)

Module DbRuns.

Import Js Store Effects Db Dashboard StoreFacts StoreShape DbFacts.
Local Open Scope string_scope.
Local Open Scope Z_scope.

Section Services.

Context {W : Type} {B : Backend W}.

(** X14. Saving an order that carries a valid key and reading that key
    back yields the order as saved; the records under all other keys, and
    the backend, are as they were. *)
Theorem saveOrder_then_get (o : Order) (k : Key) (w : World W) :
  toKey (id o) = Some k ->
  exists w',
    saveOrder o w = (Ok o, w')
    /\ getOrderById (id o) w' = (Ok (Some o), w')
    /\ (forall k', k' <> k ->
           lookup k' (entries (store w')) = lookup k' (entries (store w)))
    /\ backend w' = backend w.
Proof.
  intros Hkey. unfold saveOrder, getOrderById. step.
  rewrite (put_keyed o k (store w) Hkey). step.
  eexists. split; [reflexivity |]. rewrite Hkey. step. simpl.
  rewrite lookup_upsert. repeat split.
  intros k' Hne. now apply lookup_upsert_other.
Qed.

(** X15. Deleting by a local key that is in a well-formed cache returns
    the record, after which that key reads as absent, the cache is one
    record shorter, and every other key reads as before. *)
Theorem deleteOrder_by_key (query : value) (k : Key) (o : Order) (w : World W) :
  wellFormed (store w) ->
  toKey query = Some k ->
  lookup k (entries (store w)) = Some o ->
  exists w',
    deleteOrder query w = (Ok (Some o), w')
    /\ getOrderById query w' = (Ok None, w')
    /\ S (List.length (getAll (store w'))) = List.length (getAll (store w))
    /\ (forall k', k' <> k ->
           lookup k' (entries (store w')) = lookup k' (entries (store w)))
    /\ backend w' = backend w.
Proof.
  intros Hwf Hkey Hfound.
  destruct (wellFormed_In k o (store w) Hwf (lookup_In _ _ _ Hfound)) as (Hid & _ & _).
  unfold deleteOrder, findOrder, getOrderById. step. rewrite Hkey. step.
  rewrite Hfound. step. rewrite Hid. step.
  eexists. split; [reflexivity |]. step. simpl.
  rewrite (lookup_remove k _ (proj1 Hwf)). repeat split.
  - unfold getAll. simpl. rewrite !length_map. apply remove_length. now rewrite Hfound.
  - intros k' Hne. now apply lookup_remove_other.
Qed.

(** X16. An identifier that is not a valid key ([undefined], [null], a
    boolean) makes both [updateOrderStatus] and [deleteOrder] fail with a
    [DataError]; a valid one under which nothing is stored, which is no
    record's server identifier or order number (by [===]) and which prints
    like no record's local key (by [String]), makes [updateOrderStatus]
    throw ['Order not found'] and [deleteOrder] return [null]. In all
    four cases nothing is changed. *)
Theorem unknown_identifier (query newStatus : value) (w : World W) :
  (toKey query = None ->
   updateOrderStatus query newStatus w = (Throw "DataError", w)
   /\ deleteOrder query w = (Throw "DataError", w))
  /\ (forall k,
         toKey query = Some k ->
         lookup k (entries (store w)) = None ->
         Forall (fun o => _id o <> query /\ orderId o <> query
                          /\ toString (id o) <> toString query) (getAll (store w)) ->
         updateOrderStatus query newStatus w = (Throw "Order not found", w)
         /\ deleteOrder query w = (Ok None, w)).
Proof.
  split.
  - intros Hkey. unfold updateOrderStatus, deleteOrder, findOrder. step.
    rewrite Hkey. split; reflexivity.
  - intros k Hkey Hmissing Hnone.
    assert (Hfind : find (matchesAnyId query) (getAll (store w)) = None).
    { apply find_nothing. eapply Forall_impl; [| exact Hnone].
      intros o (H1 & H2 & H3) Hm. apply matchesAnyId_spec in Hm. tauto. }
    unfold updateOrderStatus, deleteOrder, findOrder. step. rewrite Hkey. step.
    rewrite Hmissing. step. rewrite Hfind. split; reflexivity.
Qed.

(** What [findOrder] finds is in the cache. *)
Lemma findOrder_In (query : value) (w : World W) (o : Order) :
  findOrder query w = (Ok (Some o), w) -> exists k, In (k, o) (entries (store w)).
Proof.
  unfold findOrder. step. destruct (toKey query) as [k|]; step; [| discriminate].
  destruct (lookup k (entries (store w))) as [o1|] eqn:Hlook; step.
  - intros [= ->]. exists k. now apply lookup_In.
  - destruct (find _ _) as [o1|] eqn:Hfind; intros [= ->].
    apply find_some in Hfind as [Hin _]. now apply In_getAll.
Qed.

Lemma updateOrderStatus_run (query newStatus : value) (w w' : World W) (o' : Order) :
  updateOrderStatus query newStatus w = (Ok o', w') ->
  exists o,
    findOrder query w = (Ok (Some o), w)
    /\ o' = withDirty (JBool true) (withStatus newStatus o)
    /\ write false o' (store w) = Stored (store w')
    /\ backend w' = backend w.
Proof.
  unfold updateOrderStatus. pose proof (findOrder_keeps_world query w) as Hsame.
  unfold bind at 1. destruct (findOrder query w) as [[[o|] | e] w1];
    simpl in Hsame; subst w1; [| discriminate | discriminate].
  step. destruct (write false _ (store w)) as [s' | |] eqn:Hwrite; try discriminate.
  intros [= <- <-]. exists o. repeat split. exact Hwrite.
Qed.

(** X17. A status update on a well-formed cache rewrites one record in
    place: the record it returns is one of the cache with nothing but its
    status, now the new one, and its dirty flag, now [true], changed; it
    is afterwards found under its own key in that form, every other key
    reads as before, and neither the number of records, the key generator
    nor the backend has changed. *)
Theorem updateOrderStatus_in_place (query newStatus : value) (w w' : World W) (o' : Order) :
  wellFormed (store w) ->
  updateOrderStatus query newStatus w = (Ok o', w') ->
  exists k o,
    lookup k (entries (store w)) = Some o
    /\ o' = withDirty (JBool true) (withStatus newStatus o)
    /\ status o' = newStatus
    /\ dirty o' = JBool true
    /\ toKey (id o') = Some k
    /\ lookup k (entries (store w')) = Some o'
    /\ (forall k', k' <> k ->
           lookup k' (entries (store w')) = lookup k' (entries (store w)))
    /\ List.length (getAll (store w')) = List.length (getAll (store w))
    /\ keyGenerator (store w') = keyGenerator (store w)
    /\ backend w' = backend w.
Proof.
  intros Hwf Hrun.
  destruct (updateOrderStatus_run query newStatus w w' o' Hrun)
    as (o & Hfound & -> & Hwrite & Hback).
  destruct (findOrder_In query w o Hfound) as [k Hmem].
  destruct (wellFormed_In k o (store w) Hwf Hmem) as (Hid & Hlook & Hgen).
  exists k, o.
  rewrite (put_keyed (withDirty (JBool true) (withStatus newStatus o)) k (store w) Hid)
    in Hwrite.
  injection Hwrite as Hstore.
  rewrite <- Hstore. simpl.
  split; [exact Hlook |]. split; [reflexivity |]. split; [reflexivity |].
  split; [reflexivity |]. split; [exact Hid |]. split; [apply lookup_upsert |].
  split; [intros k' Hne; now apply lookup_upsert_other |]. split.
  - unfold getAll. simpl. rewrite !length_map.
    apply upsert_length_present; [exact (proj1 Hwf) | now rewrite Hlook].
  - split; [exact Hgen | exact Hback].
Qed.

(** ** Pulling *)

Lemma addAll_committed orders : forall s s',
  addAll orders s = Committed s' -> storablePrefix orders = orders.
Proof.
  induction orders as [|o rest IH]; simpl; intros s s' Hrun; [reflexivity |].
  destruct (write true o s) as [s1 | |] eqn:Hadd; try discriminate.
  destruct (add_stored o s s1 Hadd) as [Hok _]. rewrite Hok.
  now rewrite (IH s1 s' Hrun).
Qed.

Lemma getAllOrders_returns (w : World W) :
  exists orders w', getAllOrders w = (Ok orders, w').
Proof.
  unfold getAllOrders. step. destruct (navigatorOnLine w); step; [| now do 2 eexists].
  destruct (apiFetchOrders (backend w)) as [[[remote |] | e] b1]; step;
    try now do 2 eexists.
  destruct (addAll remote (clear (store w))); step; now do 2 eexists.
Qed.

(** X18. [getAllOrders] never throws, whatever the server and the store
    do; what it returns is sorted newest first and is, up to the local
    keys, exactly what the cache holds once it has returned. *)
Theorem getAllOrders_agrees_with_cache (w : World W) :
  exists orders w',
    getAllOrders w = (Ok orders, w')
    /\ StronglySorted notOlder orders
    /\ Permutation (map withoutKey orders) (map withoutKey (getAll (store w'))).
Proof.
  assert (Hcache : forall w' : World W,
             StronglySorted notOlder (sortNewestFirst (getAll (store w')))
             /\ Permutation (map withoutKey (sortNewestFirst (getAll (store w'))))
                            (map withoutKey (getAll (store w')))).
  { intros w'. split; [apply sortNewestFirst_sorted |].
    apply Permutation_map, sortNewestFirst_perm. }
  unfold getAllOrders. step. destruct (navigatorOnLine w); step.
  2:{ do 2 eexists. split; [reflexivity | apply Hcache]. }
  destruct (apiFetchOrders (backend w)) as [[[remote |] | e] b1]; step.
  - destruct (addAll remote (clear (store w))) as [s' | s' |] eqn:Hrun; step.
    + do 2 eexists. split; [reflexivity |]. split; [apply sortNewestFirst_sorted |].
      simpl. rewrite (Permutation_map withoutKey (sortNewestFirst_perm remote)).
      rewrite (addAll_content remote (clear (store w)) s' (or_introl Hrun)).
      rewrite (addAll_committed remote _ _ Hrun). simpl. now rewrite app_nil_r.
    + do 2 eexists. split; [reflexivity |]. apply (Hcache (mkWorld s' b1 _ _)).
    + do 2 eexists. split; [reflexivity |]. apply (Hcache (mkWorld (store w) b1 _ _)).
  - do 2 eexists. split; [reflexivity |]. apply (Hcache (mkWorld (clear (store w)) b1 _ _)).
  - do 2 eexists. split; [reflexivity |]. apply (Hcache (mkWorld (store w) b1 _ _)).
Qed.

(** X19. [syncWithServer] skips the pull while offline and changes
    nothing; while online it reports success whatever happened, and in
    particular when the fetch failed and the cache was left as it was. *)
Theorem syncWithServer_reports (w : World W) :
  (navigatorOnLine w = false -> syncWithServer w = (Ok PullOffline, w))
  /\ (navigatorOnLine w = true -> fst (syncWithServer w) = Ok PullDone)
  /\ (forall message b1,
         navigatorOnLine w = true ->
         apiFetchOrders (backend w) = (Throw message, b1) ->
         syncWithServer w
         = (Ok PullDone, mkWorld (store w) b1 (navigatorOnLine w) (ui w))).
Proof.
  split; [| split].
  - intros Hoff. unfold syncWithServer. step. now rewrite Hoff.
  - intros Hon. unfold syncWithServer. step. rewrite Hon. cbn [negb]. step.
    destruct (getAllOrders_returns w) as (orders & w' & Hrun).
    now rewrite Hrun.
  - intros message b1 Hon Hfetch. unfold syncWithServer, getAllOrders. step.
    rewrite Hon. cbn [negb]. step. rewrite Hon. step. rewrite Hfetch. step.
    now rewrite ?Hon.
Qed.

Lemma upsert_above g o l :
  allBelow g l ->
  lookup (KNum g) l = None /\ upsert (KNum g) o l = (l ++ [(KNum g, o)])%list.
Proof.
  induction 1 as [|[k o'] rest (n & Hk & Hn) Hrest [IHl IHu]]; simpl.
  - split; reflexivity.
  - simpl in Hk. subst k. unfold keyEqb. simpl.
    destruct (Z.compare_spec g n); try lia. split; [exact IHl | now rewrite IHu].
Qed.

Lemma addAll_unkeyed orders : forall g l,
  Forall (fun o => id o = JUndefined) orders ->
  allBelow g l ->
  g + Z.of_nat (List.length orders) <= generatorLimit + 1 ->
  addAll orders (mkStore l g)
  = Committed (mkStore (l ++ keyedFrom g orders) (g + Z.of_nat (List.length orders))).
Proof.
  induction orders as [|o rest IH]; intros g l Hun Hbelow Hlimit.
  - simpl. now rewrite app_nil_r, Z.add_0_r.
  - inversion Hun as [|? ? Ho Hrest]; subst.
    cbn [addAll]. unfold write. rewrite Ho. cbn [keyGenerator entries].
    cbn [List.length] in Hlimit.
    destruct (Z.ltb_spec generatorLimit g); [lia |].
    destruct (upsert_above g (withId (JNum g) o) l Hbelow) as [Hfresh Hup].
    rewrite Hfresh, Hup. rewrite IH.
    + cbn [keyedFrom List.length]. rewrite <- app_assoc. simpl.
      do 2 f_equal. lia.
    + exact Hrest.
    + apply Forall_app. split.
      * eapply Forall_impl; [| exact Hbelow]. intros e (n & Hk & Hn). exists n. split; [exact Hk | lia].
      * repeat constructor. exists g. split; [reflexivity | lia].
    + lia.
Qed.

(** X20. A pull of orders that arrive without a local key, as the server
    sends them, replaces the cache by exactly those orders, stored in the
    order of arrival under consecutive keys starting at the key
    generator's number, which moves on by their count; the list returned
    is the fetched one, newest first. *)
Theorem pull_assigns_consecutive_keys (remote : list Order) (w : World W) (b1 : W) :
  navigatorOnLine w = true ->
  apiFetchOrders (backend w) = (Ok (OrderArray remote), b1) ->
  Forall (fun o => id o = JUndefined) remote ->
  keyGenerator (store w) + Z.of_nat (List.length remote) <= generatorLimit + 1 ->
  getAllOrders w
  = (Ok (sortNewestFirst remote),
     mkWorld (mkStore (keyedFrom (keyGenerator (store w)) remote)
                      (keyGenerator (store w) + Z.of_nat (List.length remote)))
             b1 (navigatorOnLine w) (ui w)).
Proof.
  intros Hon Hfetch Hun Hlimit. unfold getAllOrders. step.
  rewrite Hon. step. rewrite Hfetch. step. unfold clear.
  rewrite (addAll_unkeyed remote (keyGenerator (store w)) [] Hun (Forall_nil _) Hlimit).
  step. now rewrite Hon.
Qed.

(** ** Marking as synced *)

(** X21. [markOrderAsSynced] returns [null] and changes nothing when no
    record matches. When it does return a record from a well-formed
    cache, that record is stored under its own key with [synced = true],
    is no longer listed by [getUnsyncedOrders], and nothing else in the
    cache, nor the backend, has changed. *)
Theorem markOrderAsSynced_marks_one (query : value) (w : World W) :
  (Forall (fun o => matchesForSync query o = false) (getAll (store w)) ->
   markOrderAsSynced query w = (Ok None, w))
  /\ (forall o' w',
         wellFormed (store w) ->
         markOrderAsSynced query w = (Ok (Some o'), w') ->
         synced o' = JBool true
         /\ (exists k,
                toKey (id o') = Some k
                /\ lookup k (entries (store w')) = Some o'
                /\ forall k', k' <> k ->
                     lookup k' (entries (store w')) = lookup k' (entries (store w)))
         /\ List.length (getAll (store w')) = List.length (getAll (store w))
         /\ backend w' = backend w
         /\ forall unsynced w'',
              getUnsyncedOrders w' = (Ok unsynced, w'') -> ~ In o' unsynced).
Proof.
  split.
  - intros Hnone.
    assert (Hfind : find (matchesForSync query) (getAll (store w)) = None).
    { induction Hnone as [|o rest Ho _ IH]; simpl; [reflexivity |]. now rewrite Ho. }
    unfold markOrderAsSynced. step. now rewrite Hfind.
  - intros o' w' Hwf. unfold markOrderAsSynced. step.
    destruct (find (matchesForSync query) (getAll (store w))) as [o|] eqn:Hfind;
      [| discriminate].
    apply find_some in Hfind as [Hin _].
    destruct (In_getAll o (store w) Hin) as [k Hmem].
    destruct (wellFormed_In k o (store w) Hwf Hmem) as (Hid & Hlook & Hgen).
    rewrite (put_keyed (withSynced (JBool true) o) k (store w) Hid). step.
    intros [= <- <-]. simpl. split; [reflexivity |]. split; [| split; [| split]].
    + exists k. split; [exact Hid |]. split; [apply lookup_upsert |].
      intros k' Hne. now apply lookup_upsert_other.
    + unfold getAll. simpl. rewrite !length_map.
      apply upsert_length_present; [exact (proj1 Hwf) | now rewrite Hlook].
    + reflexivity.
    + unfold getUnsyncedOrders. step. intros unsynced w'' [= <- _] Hlisted.
      apply filter_In in Hlisted as [_ Hun]. discriminate.
Qed.

(** ** Pushing *)

(** X22. [syncPendingOrders] never throws: every failure inside it comes
    back as a result object. While offline it returns the offline result
    without touching the cache or the backend. *)
Theorem syncPendingOrders_never_throws (w : World W) :
  (exists result w', syncPendingOrders w = (Ok result, w'))
  /\ (navigatorOnLine w = false -> syncPendingOrders w = (Ok PushOffline, w)).
Proof.
  split.
  - unfold syncPendingOrders. unfold bind at 1, onLine.
    destruct (negb (navigatorOnLine w)); [now do 2 eexists |].
    unfold tryCatch.
    match goal with |- context [match ?m w with _ => _ end] => destruct (m w) as [[r | e] w1] end;
      now do 2 eexists.
  - intros Hoff. unfold syncPendingOrders. step. now rewrite Hoff.
Qed.

(** X23. When the bulk request fails, the push path stops there: the
    failure is reported with the error's message, the cache is as it was,
    and no dirty record has been pushed. *)
Theorem syncPendingOrders_bulk_failure (w : World W) (message : string) (b1 : W) :
  navigatorOnLine w = true ->
  filter (fun o => negb (truthy (synced o))) (getAll (store w)) <> [] ->
  apiSyncOrders (filter (fun o => negb (truthy (synced o))) (getAll (store w)))
                (backend w)
  = (Throw message, b1) ->
  syncPendingOrders w
  = (Ok (PushError message), mkWorld (store w) b1 (navigatorOnLine w) (ui w)).
Proof.
  intros Hon Hpending Hsync. unfold syncPendingOrders, getUnsyncedOrders. step.
  rewrite Hon. cbn [negb]. step.
  destruct (filter (fun o => negb (truthy (synced o))) (getAll (store w))) as [|o rest];
    [contradiction |].
  cbn [List.length Nat.eqb]. step. rewrite Hsync. step. now rewrite Hon.
Qed.

Lemma pushDirty_other_keys (d : Order) (kd k : Key) (w : World W) :
  toKey (id d) = Some kd -> kd <> k ->
  fst (pushDirty d w) = Ok tt
  /\ lookup k (entries (store (snd (pushDirty d w)))) = lookup k (entries (store w)).
Proof.
  intros Hkd Hne. rewrite pushDirty_unfold.
  pose proof (resolveServerId_keeps_store d w) as Hstore.
  destruct (resolveServerId d w) as [[serverId | e] w1]; simpl in Hstore |- *;
    [| now rewrite Hstore].
  destruct (truthy serverId); simpl; [| now rewrite Hstore].
  destruct (apiUpdateOrderStatus serverId (status d) (backend w1)) as [[u | e] b2];
    simpl; [| now rewrite Hstore].
  rewrite (put_keyed (withDirty (JBool false) d) kd (store w1) Hkd). simpl.
  rewrite Hstore. split; [reflexivity |]. apply lookup_upsert_other. congruence.
Qed.

(** X24. The dirty pass never throws, and it leaves alone every record
    that is not among the dirty records it was given: a key that belongs
    to none of them reads afterwards as it did before. *)
Theorem pushAllDirty_leaves_others (dirtyOrders : list Order) (k : Key) (w : World W) :
  Forall (fun d => exists kd, toKey (id d) = Some kd /\ kd <> k) dirtyOrders ->
  fst (pushAllDirty dirtyOrders w) = Ok tt
  /\ lookup k (entries (store (snd (pushAllDirty dirtyOrders w))))
     = lookup k (entries (store w)).
Proof.
  intros Hall. revert w. induction Hall as [|d rest (kd & Hkd & Hne) _ IH]; intros w.
  - split; reflexivity.
  - cbn [pushAllDirty]. unfold bind.
    destruct (pushDirty_other_keys d kd k w Hkd Hne) as [Hok Hsame].
    destruct (pushDirty d w) as [[[] | e] w1]; simpl in Hok, Hsame; [| discriminate].
    destruct (IH w1) as [Hrest Hlook]. split; [exact Hrest | now rewrite Hlook].
Qed.

(** X25. Pushing one dirty record that has a cached server identifier
    and a valid local key makes a single request, the status update under
    that identifier, and no lookup by order number. If the request
    succeeds the record is written back clean; if it fails the cache is
    untouched. A record with neither server identifier nor order number
    is skipped without any request. *)
Theorem pushDirty_with_cached_id (d : Order) (k : Key) (w : World W) :
  (truthy (_id d) = true -> toKey (id d) = Some k ->
   forall b1,
     apiUpdateOrderStatus (_id d) (status d) (backend w) = (Ok tt, b1) ->
     pushDirty d w
     = (Ok tt,
        mkWorld (mkStore (upsert k (withDirty (JBool false) d) (entries (store w)))
                         (bump k (keyGenerator (store w))))
                b1 (navigatorOnLine w) (ui w)))
  /\ (truthy (_id d) = true ->
      forall message b1,
        apiUpdateOrderStatus (_id d) (status d) (backend w) = (Throw message, b1) ->
        pushDirty d w = (Ok tt, mkWorld (store w) b1 (navigatorOnLine w) (ui w)))
  /\ (truthy (_id d) = false -> truthy (orderId d) = false ->
      pushDirty d w = (Ok tt, w)).
Proof.
  assert (Hresolve : truthy (_id d) = true -> resolveServerId d w = (Ok (_id d), w)).
  { intros Hid. unfold resolveServerId, or. rewrite Hid. cbv iota. now rewrite Hid. }
  split; [| split].
  - intros Hid Hkey b1 Hpush. rewrite pushDirty_unfold, (Hresolve Hid), Hid, Hpush.
    now rewrite (put_keyed (withDirty (JBool false) d) k (store w) Hkey).
  - intros Hid message b1 Hpush.
    now rewrite pushDirty_unfold, (Hresolve Hid), Hid, Hpush.
  - intros Hid Hnumber. rewrite pushDirty_unfold.
    unfold resolveServerId, or. rewrite Hid. cbv iota. simpl. rewrite Hnumber.
    reflexivity.
Qed.

(** ** Export and import *)

Lemma putAll_same (s : Store) :
  wellFormed s ->
  forall es, incl es (entries s) -> putAll (map snd es) s = Committed s.
Proof.
  intros Hwf. induction es as [|[k o] es IH]; intros Hincl; simpl; [reflexivity |].
  assert (Hmem : In (k, o) (entries s)) by (apply Hincl; now left).
  destruct (wellFormed_In k o s Hwf Hmem) as (Hid & _ & Hgen).
  rewrite (put_keyed o k s Hid), Hgen, (upsert_same k o _ (proj1 Hwf) Hmem).
  destruct s as [es0 g]. simpl. apply IH. intros e He. apply Hincl. now right.
Qed.

Lemma putAll_restore (es : list (Key * Order)) : forall p g,
  ascending (p ++ es) -> Forall inline es ->
  exists g', putAll (map snd es) (mkStore p g) = Committed (mkStore (p ++ es) g').
Proof.
  induction es as [|[k o] es IH]; intros p g Hasc Hin; simpl.
  - exists g. now rewrite app_nil_r.
  - inversion Hin as [|? ? Hk Hrest]; subst. unfold inline in Hk. simpl in Hk.
    rewrite (put_keyed o k (mkStore p g) Hk). simpl.
    rewrite (upsert_last k o p (ascending_app_head p (k, o) es Hasc)).
    destruct (IH (p ++ [(k, o)])%list (bump k g)) as [g' Hrun].
    + now rewrite <- app_assoc.
    + exact Hrest.
    + exists g'. rewrite Hrun. now rewrite <- app_assoc.
Qed.

(** X26. What [exportAllData] hands out can be imported again: into the
    cache it came from, where the import changes nothing; and into an
    empty cache, which then holds the same records under the same keys. *)
Theorem export_then_import (now : Z) (w : World W) :
  wellFormed (store w) ->
  exportAllData now w = (Ok (mkExport (getAll (store w)) now), w)
  /\ fst (importAllData (Some (getAll (store w))) w) = Ok true
  /\ store (snd (importAllData (Some (getAll (store w))) w)) = store w
  /\ forall w0 : World W,
       entries (store w0) = [] ->
       fst (importAllData (Some (getAll (store w))) w0) = Ok true
       /\ entries (store (snd (importAllData (Some (getAll (store w))) w0)))
          = entries (store w).
Proof.
  intros Hwf. split; [reflexivity |].
  assert (Hsame : putAll (getAll (store w)) (store w) = Committed (store w)).
  { apply (putAll_same (store w) Hwf (entries (store w))). apply incl_refl. }
  unfold importAllData. split; [| split].
  - destruct (getAll (store w)) eqn:Hall; [reflexivity |]. step. now rewrite Hsame.
  - destruct (getAll (store w)) eqn:Hall; [reflexivity |]. step. now rewrite Hsame.
  - intros w0 Hempty.
    destruct (putAll_restore (entries (store w)) [] (keyGenerator (store w0))
                (proj1 Hwf) (proj1 (proj2 Hwf))) as [g' Hrun].
    simpl in Hrun. fold (getAll (store w)) in Hrun.
    destruct (store w0) as [es0 g0] eqn:Hw0. simpl in Hempty, Hrun. subst es0.
    destruct (getAll (store w)) eqn:Hall.
    + unfold getAll in Hall. apply map_eq_nil in Hall. rewrite Hall. simpl.
      now rewrite Hw0.
    + step. rewrite Hw0, Hrun. step. split; reflexivity.
Qed.

End Services.

End DbRuns.

(* ================================================================== *)
(** * Properties of the dashboard handlers *)
(* ================================================================== *)

Module HandlerRuns.

Import Js Store Effects Db Dashboard StoreFacts StoreShape DbFacts.
Local Open Scope string_scope.
Local Open Scope Z_scope.

(** Sorting what is already sorted changes nothing. *)
Lemma sortNewestFirst_sorted_id l :
  StronglySorted notOlder l -> sortNewestFirst l = l.
Proof.
  induction 1 as [|x rest Hsorted IH Hall]; simpl; [reflexivity |].
  rewrite IH. destruct rest as [|y rest']; simpl; [reflexivity |].
  inversion Hall as [|? ? Hxy _]; subst. unfold notOlder in Hxy.
  destruct (Z.ltb_spec (timestamp x) (timestamp y)); [lia | reflexivity].
Qed.

Lemma sortNewestFirst_idempotent l :
  sortNewestFirst (sortNewestFirst l) = sortNewestFirst l.
Proof. apply sortNewestFirst_sorted_id, sortNewestFirst_sorted. Qed.

Section Handlers.

Context {W : Type} {B : Backend W}.

(** With the signal down and the browser offline, [loadData] shows the
    cache, newest first, and touches nothing else. *)
Lemma loadData_offline (network : Network) (w : World W) :
  isOnline network = false ->
  navigatorOnLine w = false ->
  loadData network w
  = (Ok tt, mkWorld (store w) (backend w) (navigatorOnLine w)
                    (ui w ++ [SetOrders (sortNewestFirst (getAll (store w)))])).
Proof.
  intros Hsignal Hoff. unfold loadData. rewrite Hsignal. cbn [andb].
  unfold tryCatch, bind at 1. rewrite (getAllOrders_offline w Hoff).
  unfold show. now rewrite sortNewestFirst_idempotent.
Qed.

(** X27. A status change made while offline is applied to the cache
    alone: the record stored under the order's key is rewritten with the
    new status and [dirty = true], no request reaches the backend, and
    the list on display becomes the cache, newest first. *)
Theorem handleStatusUpdate_offline (network : Network) (orders : list Order)
        (query newStatus : value) (l o : Order) (k : Key) (w : World W) :
  isOnline network = false ->
  navigatorOnLine w = false ->
  wellFormed (store w) ->
  find (matchesStatusKey query) orders = Some l ->
  toKey (or (id l) (or (_id l) (orderId l))) = Some k ->
  lookup k (entries (store w)) = Some o ->
  let o' := withDirty (JBool true) (withStatus newStatus o) in
  let s' := mkStore (upsert k o' (entries (store w))) (keyGenerator (store w)) in
  handleStatusUpdate network orders query newStatus w
  = (Ok tt, mkWorld s' (backend w) (navigatorOnLine w)
                    (ui w ++ [SetOrders (sortNewestFirst (getAll s'))])).
Proof.
  intros Hsignal Hoff Hwf Hlocal Hkey Hfound. cbv zeta.
  destruct (wellFormed_In k o (store w) Hwf (lookup_In _ _ _ Hfound)) as (Hid & _ & Hgen).
  unfold handleStatusUpdate. rewrite Hlocal, Hsignal.
  unfold updateOrderStatus, findOrder. step. rewrite Hkey. step. rewrite Hfound. step.
  rewrite (put_keyed (withDirty (JBool true) (withStatus newStatus o)) k (store w) Hid).
  rewrite Hgen. step.
  rewrite loadData_offline; [reflexivity | exact Hsignal | exact Hoff].
Qed.

(** X28. A delete confirmed while the signal is up but the server out of
    reach still stands locally: with the remote delete, the direct fetch
    and the pull all failing, the record is gone from the cache, nothing
    else in it has changed, no alert is shown, and the list on display
    becomes what is left, newest first. *)
Theorem handleDeleteOrder_server_unreachable
        (network : Network) (orders : list Order) (orderKey : value)
        (l o : Order) (k : Key) (w : World W)
        (m1 m2 m3 : string) (b1 b2 b3 : W) :
  isOnline network = true ->
  serverUrl network <> "" ->
  navigatorOnLine w = true ->
  wellFormed (store w) ->
  find (matchesOrderKey orderKey) orders = Some l ->
  toKey (or (id l) (or (_id l) (orderId l))) = Some k ->
  lookup k (entries (store w)) = Some o ->
  truthy (_id l) = true ->
  apiDeleteOrder (_id l) (backend w) = (Throw m1, b1) ->
  fetchOrdersDirect b1 = (Throw m2, b2) ->
  apiFetchOrders b2 = (Throw m3, b3) ->
  let s' := mkStore (remove k (entries (store w))) (keyGenerator (store w)) in
  handleDeleteOrder network orders true orderKey w
  = (Ok tt, mkWorld s' b3 (navigatorOnLine w)
                    (ui w ++ [SetOrders (sortNewestFirst (getAll s'))])).
Proof.
  intros Hsignal Hurl Hon Hwf Hlocal Hkey Hfound Hsid Hdel Hdirect Hpull. cbv zeta.
  destruct (wellFormed_In k o (store w) Hwf (lookup_In _ _ _ Hfound)) as (Hid & _ & _).
  apply String.eqb_neq in Hurl.
  unfold handleDeleteOrder. rewrite Hsignal, Hlocal. cbn [negb].
  unfold deleteOrder, findOrder. step. rewrite Hkey. step. rewrite Hfound. step.
  rewrite Hid. step.
  unfold deleteRemote, resolveServerId, or. rewrite Hsid. cbv iota. rewrite Hsid.
  cbn [negb andb]. step. rewrite Hsid. step. rewrite Hdel. step.
  unfold loadData. rewrite Hsignal, Hurl. cbn [negb andb]. step. rewrite Hdirect. step.
  unfold getAllOrders. step. rewrite Hon. step. rewrite Hpull. step.
  now rewrite sortNewestFirst_idempotent, ?Hon.
Qed.

End Handlers.

End HandlerRuns.

(* ================================================================== *)
(** * Properties of the admin session *)
(* ================================================================== *)

Module AuthFacts.

Import Auth.
Local Open Scope string_scope.
Local Open Scope Z_scope.

(** X29. A session opened by a successful login at time [now] counts as
    logged in at every [later] up to and including eight hours after it.
    The first check made after that finds it expired, removes it, and
    from then on every check answers no, whatever the clock says. *)
Theorem session_lasts_eight_hours (now later : Z) (storage : Storage) :
  let opened := snd (loginAdmin ADMIN_PASSWORD now storage) in
  fst (loginAdmin ADMIN_PASSWORD now storage) = LoggedIn
  /\ (later - now <= SESSION_LIFETIME ->
      isAdminLoggedIn later opened = (true, opened))
  /\ (SESSION_LIFETIME < later - now ->
      isAdminLoggedIn later opened = (false, None)
      /\ forall t, isAdminLoggedIn t (snd (isAdminLoggedIn later opened)) = (false, None)).
Proof.
  cbv zeta. unfold loginAdmin. rewrite String.eqb_refl. simpl.
  split; [reflexivity |]. split; intros Hage.
  - destruct (Z.ltb_spec SESSION_LIFETIME (later - now)); [lia | reflexivity].
  - destruct (Z.ltb_spec SESSION_LIFETIME (later - now)); [| lia].
    split; reflexivity.
Qed.

(** X30. A login with any other password is refused with ['Invalid
    password'] and leaves the stored session alone: who was logged in
    before the attempt still is after it, and the role read back is the
    same. *)
Theorem refused_login_changes_nothing (password : string) (now t : Z) (storage : Storage) :
  password <> ADMIN_PASSWORD ->
  loginAdmin password now storage = (Refused "Invalid password", storage)
  /\ isAdminLoggedIn t (snd (loginAdmin password now storage))
     = isAdminLoggedIn t storage
  /\ getCurrentRole t (snd (loginAdmin password now storage))
     = getCurrentRole t storage.
Proof.
  intros Hwrong. apply String.eqb_neq in Hwrong. unfold loginAdmin. rewrite Hwrong.
  repeat split.
Qed.

Lemma session_lasts_eight_hours_witness :
  isAdminLoggedIn (1000 + 28800000) (Some (mkSession true 1000))
    = (true, Some (mkSession true 1000))
  /\ isAdminLoggedIn (1000 + 28800001) (Some (mkSession true 1000)) = (false, None).
Proof.
  pose proof (session_lasts_eight_hours 1000 (1000 + 28800000) None) as (_ & Hin & _).
  pose proof (session_lasts_eight_hours 1000 (1000 + 28800001) None) as (_ & _ & Hout).
  split.
  - apply Hin. unfold SESSION_LIFETIME. lia.
  - apply Hout. unfold SESSION_LIFETIME. lia.
Defined.

Lemma refused_login_changes_nothing_witness :
  loginAdmin "letmein" 5000 (Some (mkSession true 1000))
  = (Refused "Invalid password", Some (mkSession true 1000)).
Proof.
  apply (refused_login_changes_nothing "letmein" 5000 5000 (Some (mkSession true 1000))).
  discriminate.
Defined.

End AuthFacts.

(* ================================================================== *)
(** * Concrete runs *)
(* ================================================================== *)

Module Runs.

Import Js Store Effects Db Dashboard Scenario StoreFacts StoreShape DbFacts DbShape
  DbRuns HandlerRuns.
Local Open Scope string_scope.
Local Open Scope Z_scope.

(** Check the shape of a store that is written out. *)
Ltac shape := unfold wellFormed, ascending; repeat split; repeat constructor.

Lemma store_shape_is_invariant_witness :
  wellFormed (store (snd (syncPendingOrders (world dirtyAndPending twoRemote true))))
  /\ wellFormed (store (snd (getAllOrders (world dirtyAndPending twoRemote true)))).
Proof.
  assert (Hwf : wellFormed (store (world dirtyAndPending twoRemote true))) by shape.
  destruct (store_shape_is_invariant (world dirtyAndPending twoRemote true) Hwf)
    as (Hpull & _ & _ & _ & _ & _ & _ & Hpush & _).
  split; [exact Hpush | exact Hpull].
Defined.

Lemma saveOrder_then_get_witness :
  let o := cached 5 (JStr "s5") (JStr "E-5") "pending" 500 JUndefined JUndefined in
  exists w',
    saveOrder o (world oneDirty twoRemote false) = (Ok o, w')
    /\ getOrderById (id o) w' = (Ok (Some o), w')
    /\ (forall k', k' <> KNum 5 ->
           lookup k' (entries (store w')) = lookup k' (entries oneDirty))
    /\ backend w' = twoRemote.
Proof.
  cbv zeta.
  apply (saveOrder_then_get
           (cached 5 (JStr "s5") (JStr "E-5") "pending" 500 JUndefined JUndefined)
           (KNum 5) (world oneDirty twoRemote false)).
  reflexivity.
Defined.

Lemma deleteOrder_by_key_witness :
  exists w',
    deleteOrder (JNum 1) (world dirtyAndPending twoRemote false)
    = (Ok (Some (cached 1 (JStr "s1") (JStr "A-1") "ready" 100 (JBool true) (JBool true))),
       w')
    /\ getOrderById (JNum 1) w' = (Ok None, w')
    /\ S (List.length (getAll (store w'))) = 2%nat.
Proof.
  destruct (deleteOrder_by_key (JNum 1) (KNum 1)
              (cached 1 (JStr "s1") (JStr "A-1") "ready" 100 (JBool true) (JBool true))
              (world dirtyAndPending twoRemote false))
    as (w' & Hrun & Hgone & Hlen & _).
  - shape.
  - reflexivity.
  - reflexivity.
  - exists w'. repeat split; assumption.
Defined.

Lemma unknown_identifier_witness :
  updateOrderStatus JNull (JStr "ready") (world oneDirty twoRemote false)
    = (Throw "DataError", world oneDirty twoRemote false)
  /\ updateOrderStatus (JStr "nope") (JStr "ready") (world oneDirty twoRemote false)
     = (Throw "Order not found", world oneDirty twoRemote false)
  /\ deleteOrder (JStr "nope") (world oneDirty twoRemote false)
     = (Ok None, world oneDirty twoRemote false).
Proof.
  destruct (unknown_identifier JNull (JStr "ready") (world oneDirty twoRemote false))
    as [Hinvalid _].
  destruct (unknown_identifier (JStr "nope") (JStr "ready")
              (world oneDirty twoRemote false)) as [_ Hmissing].
  split; [apply Hinvalid; reflexivity |].
  apply (Hmissing (KStr "nope")); [reflexivity | reflexivity |].
  repeat constructor; discriminate.
Defined.

Lemma updateOrderStatus_in_place_witness :
  let o' := cached 1 (JStr "s1") (JStr "A-1") "completed" 100 (JBool true) (JBool true) in
  let w' := world (storeOf [o'; cached 2 JUndefined (JStr "B-7") "pending" 300
                                       (JBool false) JUndefined] 3) twoRemote false in
  updateOrderStatus (JStr "A-1") (JStr "completed")
                    (world dirtyAndPending twoRemote false) = (Ok o', w')
  /\ exists k o,
       lookup k (entries dirtyAndPending) = Some o
       /\ o' = withDirty (JBool true) (withStatus (JStr "completed") o)
       /\ status o' = JStr "completed"
       /\ dirty o' = JBool true
       /\ toKey (id o') = Some k
       /\ lookup k (entries (store w')) = Some o'
       /\ (forall k', k' <> k ->
              lookup k' (entries (store w')) = lookup k' (entries dirtyAndPending))
       /\ List.length (getAll (store w')) = List.length (getAll dirtyAndPending)
       /\ keyGenerator (store w') = keyGenerator dirtyAndPending
       /\ backend w' = twoRemote.
Proof.
  cbv zeta. split; [reflexivity |].
  apply (updateOrderStatus_in_place (JStr "A-1") (JStr "completed")
           (world dirtyAndPending twoRemote false)).
  - shape.
  - reflexivity.
Defined.

Lemma syncWithServer_reports_witness :
  syncWithServer (world oneDirty (mkServer false [] []) true)
  = (Ok PullDone, mkWorld oneDirty (mkServer false [] [GetOrders]) true []).
Proof.
  destruct (syncWithServer_reports (world oneDirty (mkServer false [] []) true))
    as (_ & _ & Hfailed).
  apply (Hfailed "Failed to fetch" (mkServer false [] [GetOrders])); reflexivity.
Defined.

Lemma pull_assigns_consecutive_keys_witness :
  getAllOrders (world oneDirty twoRemote true)
  = (Ok [remote "s2" "A-2" "ready" 200; remote "s1" "A-1" "pending" 100],
     mkWorld (mkStore [ (KNum 2, withId (JNum 2) (remote "s1" "A-1" "pending" 100));
                        (KNum 3, withId (JNum 3) (remote "s2" "A-2" "ready" 200)) ] 4)
             (logRequest GetOrders twoRemote) true []).
Proof.
  apply (pull_assigns_consecutive_keys (held twoRemote) (world oneDirty twoRemote true)
           (logRequest GetOrders twoRemote)).
  - reflexivity.
  - reflexivity.
  - repeat constructor.
  - vm_compute. discriminate.
Defined.

Lemma markOrderAsSynced_marks_one_witness :
  markOrderAsSynced (JStr "nope") (world dirtyAndPending twoRemote false)
    = (Ok None, world dirtyAndPending twoRemote false)
  /\ synced (cached 2 JUndefined (JStr "B-7") "pending" 300 (JBool true) JUndefined)
     = JBool true.
Proof.
  destruct (markOrderAsSynced_marks_one (JStr "nope")
              (world dirtyAndPending twoRemote false)) as [Hnone _].
  destruct (markOrderAsSynced_marks_one (JStr "B-7")
              (world dirtyAndPending twoRemote false)) as [_ Hsome].
  split; [apply Hnone; repeat constructor |].
  apply (Hsome (cached 2 JUndefined (JStr "B-7") "pending" 300 (JBool true) JUndefined)
               (world (storeOf [cached 1 (JStr "s1") (JStr "A-1") "ready" 100
                                       (JBool true) (JBool true);
                                cached 2 JUndefined (JStr "B-7") "pending" 300
                                       (JBool true) JUndefined] 3)
                      twoRemote false)).
  - shape.
  - reflexivity.
Defined.

Lemma syncPendingOrders_never_throws_witness :
  syncPendingOrders (world dirtyAndPending twoRemote false)
  = (Ok PushOffline, world dirtyAndPending twoRemote false).
Proof.
  destruct (syncPendingOrders_never_throws (world dirtyAndPending twoRemote false))
    as [_ Hoffline].
  apply Hoffline. reflexivity.
Defined.

Lemma syncPendingOrders_bulk_failure_witness :
  syncPendingOrders (world dirtyAndPending (mkServer false [] []) true)
  = (Ok (PushError "Failed to fetch"),
     mkWorld dirtyAndPending
             (mkServer false []
                [PostSync [cached 2 JUndefined (JStr "B-7") "pending" 300
                                  (JBool false) JUndefined]])
             true []).
Proof.
  apply (syncPendingOrders_bulk_failure
           (world dirtyAndPending (mkServer false [] []) true)).
  - reflexivity.
  - discriminate.
  - reflexivity.
Defined.

Lemma pushAllDirty_leaves_others_witness :
  let dirtyOnes := filter (fun o => truthy (dirty o)) (getAll dirtyAndPending) in
  fst (pushAllDirty dirtyOnes (world dirtyAndPending twoRemote true)) = Ok tt
  /\ lookup (KNum 2)
            (entries (store (snd (pushAllDirty dirtyOnes
                                               (world dirtyAndPending twoRemote true)))))
     = lookup (KNum 2) (entries dirtyAndPending).
Proof.
  cbv zeta.
  apply (pushAllDirty_leaves_others
           (filter (fun o => truthy (dirty o)) (getAll dirtyAndPending))
           (KNum 2) (world dirtyAndPending twoRemote true)).
  repeat constructor. exists (KNum 1). split; [reflexivity | discriminate].
Defined.

Lemma pushDirty_with_cached_id_witness :
  let d := cached 1 (JStr "s1") (JStr "A-1") "ready" 100 (JBool true) (JBool true) in
  pushDirty d (world oneDirty twoRemote true)
  = (Ok tt,
     mkWorld (mkStore (upsert (KNum 1) (withDirty (JBool false) d) (entries oneDirty))
                      (bump (KNum 1) (keyGenerator oneDirty)))
             (logRequest (PatchStatus (JStr "s1") (JStr "ready")) twoRemote) true []).
Proof.
  cbv zeta.
  destruct (pushDirty_with_cached_id
              (cached 1 (JStr "s1") (JStr "A-1") "ready" 100 (JBool true) (JBool true))
              (KNum 1) (world oneDirty twoRemote true)) as [Hpushed _].
  apply Hpushed; reflexivity.
Defined.

Lemma export_then_import_witness :
  fst (importAllData (Some (getAll dirtyAndPending))
                     (world (clear oneDirty) twoRemote false)) = Ok true
  /\ entries (store (snd (importAllData (Some (getAll dirtyAndPending))
                                        (world (clear oneDirty) twoRemote false))))
     = entries dirtyAndPending.
Proof.
  assert (Hwf : wellFormed (store (world dirtyAndPending twoRemote false))) by shape.
  destruct (export_then_import 0 (world dirtyAndPending twoRemote false) Hwf)
    as (_ & _ & _ & Hrestore).
  apply (Hrestore (world (clear oneDirty) twoRemote false)). reflexivity.
Defined.

Lemma handleStatusUpdate_offline_witness :
  let o' := cached 2 JUndefined (JStr "B-7") "ready" 300 (JBool false) (JBool true) in
  let s' := mkStore (upsert (KNum 2) o' (entries dirtyAndPending)) 3 in
  handleStatusUpdate (mkNetwork false "http://localhost:3001") (getAll dirtyAndPending)
                     (JStr "B-7") (JStr "ready") (world dirtyAndPending twoRemote false)
  = (Ok tt, mkWorld s' twoRemote false [SetOrders (sortNewestFirst (getAll s'))]).
Proof.
  cbv zeta.
  apply (handleStatusUpdate_offline (mkNetwork false "http://localhost:3001")
           (getAll dirtyAndPending) (JStr "B-7") (JStr "ready")
           (cached 2 JUndefined (JStr "B-7") "pending" 300 (JBool false) JUndefined)
           (cached 2 JUndefined (JStr "B-7") "pending" 300 (JBool false) JUndefined)
           (KNum 2) (world dirtyAndPending twoRemote false)).
  - reflexivity.
  - reflexivity.
  - shape.
  - reflexivity.
  - reflexivity.
  - reflexivity.
Defined.

Lemma handleDeleteOrder_server_unreachable_witness :
  let s' := mkStore (remove (KNum 1) (entries dirtyAndPending)) 3 in
  handleDeleteOrder (mkNetwork true "http://localhost:3001") (getAll dirtyAndPending)
                    true (JStr "s1") (world dirtyAndPending (mkServer false [] []) true)
  = (Ok tt,
     mkWorld s' (mkServer false [] [DeleteOrder (JStr "s1"); GetOrders; GetOrders]) true
             [SetOrders (sortNewestFirst (getAll s'))]).
Proof.
  cbv zeta.
  apply (handleDeleteOrder_server_unreachable
           (mkNetwork true "http://localhost:3001") (getAll dirtyAndPending) (JStr "s1")
           (cached 1 (JStr "s1") (JStr "A-1") "ready" 100 (JBool true) (JBool true))
           (cached 1 (JStr "s1") (JStr "A-1") "ready" 100 (JBool true) (JBool true))
           (KNum 1) (world dirtyAndPending (mkServer false [] []) true)
           "Failed to fetch" "Failed to fetch" "Failed to fetch"
           (mkServer false [] [DeleteOrder (JStr "s1")])
           (mkServer false [] [DeleteOrder (JStr "s1"); GetOrders])
           (mkServer false [] [DeleteOrder (JStr "s1"); GetOrders; GetOrders])).
  - reflexivity.
  - discriminate.
  - reflexivity.
  - shape.
  - reflexivity.
  - reflexivity.
  - reflexivity.
  - reflexivity.
  - reflexivity.
  - reflexivity.
  - reflexivity.
Defined.

End Runs.
